(** * Pyramidal Lucas-Kanade optical flow: a shallow embedding of
    [lucas_kanade.py].

    The Python module is glue around numerical libraries (numpy, scipy,
    OpenCV).  The embedding keeps that architecture:

    - scalars (numpy's float64) are an interface, [Scalar], whose operations
      carry no laws: every theorem below holds for any arithmetic, IEEE
      binary64 included.  Rocq's primitive binary64 floats are the instance
      used for evaluation;
    - a 2-D [ndarray] is the list of its rows;
    - Python exceptions are values of [error], threaded by the [result]
      monad;
    - [for] loops that mutate arrays in place are folds over the index range
      that pass the arrays along;
    - library routines whose algorithm is not part of the repository
      (LAPACK's determinant and inverse, OpenCV's resize and Harris response,
      scipy's scattered-data interpolation) are parameters of the sections
      that use them; what a theorem needs of them is stated as a hypothesis
      of that theorem.

    Sizes, indices, [window_size], [max_iter] and the estimators'
    [num_levels] are natural numbers.  Where Python would compute a negative
    bound ([h - window_size // 2] on a small image) the loop or slice it
    bounds is empty, which truncated subtraction gives too.  An array
    without rows has shape [(0, 0)]. *)

From Stdlib Require Import ZArith Lia PrimFloat Uint63.
From stdpp Require Import base tactics option list numbers.

Set Default Proof Using "Type".

(** ** Exceptions *)

Inductive error : Set :=
| UnboundLocalError   (* a local variable read before any assignment *)
| IndexError          (* subscript out of range *)
| ValueError          (* shapes that do not broadcast, reshape, empty max *)
| ZeroDivisionError   (* [/] on Python numbers with a zero divisor *)
| LinAlgError.        (* [np.linalg.inv] on a singular matrix *)

Inductive result (A : Type) : Type :=
| Ok (a : A)
| Raise (e : error).
Arguments Ok {A} a.
Arguments Raise {A} e.

#[global] Instance result_ret : MRet result := fun _ a => Ok a.
#[global] Instance result_bind : MBind result := fun _ _ k m =>
  match m with
  | Ok a => k a
  | Raise e => Raise e
  end.

(** A [for] loop whose body may raise: the state is passed along and the
    first exception leaves the loop. *)
Fixpoint for_each {A S} (body : A -> S -> result S) (xs : list A) (s : S)
  : result S :=
  match xs with
  | [] => Ok s
  | x :: xs' => s' ← body x s; for_each body xs' s'
  end.

(** [range(lo, hi)] of Python, on natural numbers. *)
Definition range (lo hi : nat) : list nat := seq lo (hi - lo).

(** ** Scalars *)

Class Scalar (F : Type) := {
  of_Z : Z -> F;            (* conversion of a Python int *)
  fadd : F -> F -> F;
  fsub : F -> F -> F;
  fmul : F -> F -> F;
  fdiv : F -> F -> F;
  fneg : F -> F;
  fgt : F -> F -> bool;     (* [x > y] *)
  fmax : F -> F -> F;       (* [np.maximum] *)
  isnan : F -> bool;        (* [np.isnan] *)
  fnan : F                  (* [np.nan] *)
}.

(** ** Arrays *)

Section Arrays.
Context {F : Type} `{Scalar F}.

Definition zero : F := of_Z 0.

(** A 2-D array is the list of its rows. *)
Abbreviation ndarray := (list (list F)).

Definition nrows (a : ndarray) : nat := length a.
Definition ncols (a : ndarray) : nat :=
  match a with
  | [] => 0
  | r :: _ => length r
  end.

(** [a.shape], as [(rows, columns)]. *)
Definition shape (a : ndarray) : nat * nat := (nrows a, ncols a).

(** Every row has the length of the first one. *)
Definition rect (a : ndarray) : Prop := Forall (fun r => length r = ncols a) a.

(** The array of the given shape whose entry [(i, j)] is [f i j]. *)
Definition tabulate (h w : nat) (f : nat -> nat -> F) : ndarray :=
  fmap (fun i => fmap (fun j => f i j) (seq 0 w)) (seq 0 h).

(** [np.zeros((h, w))]. *)
Definition zeros (h w : nat) : ndarray := tabulate h w (fun _ _ => zero).

(** [a[i, j]] for an index known to be in range (zero otherwise). *)
Definition at2 (a : ndarray) (i j : nat) : F :=
  match a !! i with
  | Some r => match r !! j with Some x => x | None => zero end
  | None => zero
  end.

(** [a[i, j] = x]; IndexError when out of range. *)
Definition set2 (a : ndarray) (i j : nat) (x : F) : result ndarray :=
  match a !! i with
  | Some r => if decide (j < length r) then Ok (<[i := <[j := x]> r]> a)
              else Raise IndexError
  | None => Raise IndexError
  end.

(** [a[r0:r1, c0:c1]] with [0 <= r0], [0 <= c0]: Python clips the stops to
    the array. *)
Definition slice (l : list (list F)) (r0 r1 c0 c1 : nat) : ndarray :=
  fmap (fun r => take (c1 - c0) (drop c0 r)) (take (r1 - r0) (drop r0 l)).

(** Where a slice [a[start:stop]] of an axis of length [n] stops when [stop]
    may be negative: a negative stop counts from the end. *)
Definition py_stop (n : nat) (stop : Z) : nat :=
  if (stop <? 0)%Z then Z.to_nat (Z.of_nat n + stop) else Z.to_nat stop.

(** [a[r0:h - r_margin, c0:w - c_margin]] where [(h, w)] is the shape of
    [like]: the margins are counted from the far sides of [like]. *)
Definition crop_margins (a like : list (list F)) (r0 c0 r_margin c_margin : nat)
  : list (list F) :=
  slice a r0 (py_stop (length a)
                (Z.of_nat (length like) - Z.of_nat r_margin))
          c0 (py_stop (match a with [] => 0 | r :: _ => length r end)
                (Z.of_nat (match like with [] => 0 | r :: _ => length r end)
                 - Z.of_nat c_margin)).

(** [a.flatten()] and [a.reshape(-1)]: row-major. *)
Definition flatten (a : ndarray) : list F := concat a.

(** [l.reshape((h, w))]: ValueError unless [l] has [h * w] entries. *)
Fixpoint chunks (h w : nat) (l : list F) : ndarray :=
  match h with
  | 0 => []
  | S h' => take w l :: chunks h' w (drop w l)
  end.

Definition reshape (l : list F) (h w : nat) : result ndarray :=
  if decide (length l = h * w) then Ok (chunks h w l) else Raise ValueError.

(** [l[0::2]]: every second entry, from index 0. *)
Fixpoint every_second {A} (l : list A) : list A :=
  match l with
  | [] => []
  | x :: l' => x :: match l' with [] => [] | _ :: l'' => every_second l'' end
  end.

(** [a[0:h:2, 0:w:2]] where [(h, w)] is [a]'s own shape. *)
Definition decimate (a : ndarray) : ndarray :=
  fmap every_second (every_second a).

(** ** scipy.signal.convolve2d(in1, in2, mode='same', boundary='symm') *)

(** Symmetric extension of an axis of length [m]: index [-1] reads entry 0,
    [-2] entry 1, [m] entry [m-1], and so on with period [2m]. *)
Definition reflect_symm_index (j : Z) (m : nat) : nat :=
  let m' := Z.of_nat m in
  let k := if (0 <=? j)%Z then (j mod (2 * m'))%Z
           else (Z.abs (j + 1) mod (2 * m'))%Z in
  Z.to_nat (if (m' <=? k)%Z then 2 * m' - k - 1 else k)%Z.

(** The output has [in1]'s shape; entry [(m, n)] is the sum, taken kernel row
    by kernel row, of [in2[j, k] * in1[m + (kh-1)/2 - j, n + (kw-1)/2 - k]]
    with out-of-range indices reflected. *)
Definition convolve2d (in1 in2 : ndarray) : ndarray :=
  let '(h, w) := shape in1 in
  let '(kh, kw) := shape in2 in
  tabulate h w (fun m n =>
    foldl (fun sum j =>
      foldl (fun sum k =>
        let i0 := reflect_symm_index
                    (Z.of_nat m + Z.of_nat ((kh - 1) / 2) - Z.of_nat j) h in
        let i1 := reflect_symm_index
                    (Z.of_nat n + Z.of_nat ((kw - 1) / 2) - Z.of_nat k) w in
        fadd sum (fmul (at2 in2 j k) (at2 in1 i0 i1)))
        sum (seq 0 kw))
      zero (seq 0 kh)).

(** ** Module constants *)

Definition PYRAMID_FILTER : ndarray :=
  fmap (M:=list) (fmap (M:=list) (fun n => fmul (fdiv (of_Z 1) (of_Z 256)) (of_Z n)))
    [[1; 4; 6; 4; 1];
     [4; 16; 24; 16; 4];
     [6; 24; 36; 24; 6];
     [4; 16; 24; 16; 4];
     [1; 4; 6; 4; 1]]%Z.

Definition X_DERIVATIVE_FILTER : ndarray :=
  fmap (M:=list) (fmap (M:=list) of_Z)
    [[1; 0; -1];
     [2; 0; -2];
     [1; 0; -1]]%Z.

Definition Y_DERIVATIVE_FILTER : ndarray :=
  fmap (M:=list) (fmap (M:=list) of_Z)
    [[1; 2; 1];
     [0; 0; 0];
     [-1; -2; -1]]%Z.

(** ** build_pyramid *)

(** One pass of the loop body: [pyramid[i]] is blurred and decimated, the
    result is appended and stays bound to the local [img_lev]. *)
Definition build_pyramid_body (i : nat)
    (st : list ndarray * option ndarray) : result (list ndarray * option ndarray) :=
  let '(pyramid, _) := st in
  match pyramid !! i with
  | None => Raise IndexError
  | Some img_lev =>
      let img_lev := convolve2d img_lev PYRAMID_FILTER in
      let img_lev := decimate img_lev in
      Ok (pyramid ++ [img_lev], Some img_lev)
  end.

(** [np.array(pyramid, dtype=object)] on a list of 2-D arrays.  numpy looks
    for the dimensions the arrays share: arrays of one shape give the array
    of their entries, array by array; arrays that differ in their number of
    rows give the 1-D array of the arrays; arrays with one number of rows and
    different widths are refused with ValueError (an array does not fit the
    slot numpy made for it).  An array that is returned, indexed by a
    position of the list, gives the array at that position: it is modelled
    by the list. *)
Definition np_array_object (pyramid : list ndarray) : result (list ndarray) :=
  match pyramid with
  | [] => Ok pyramid
  | first :: rest =>
      if decide (Forall (fun a => shape a = shape first) rest) then Ok pyramid
      else if decide (Forall (fun a => nrows a = nrows first) rest)
      then Raise ValueError
      else Ok pyramid
  end.

(** The local [img_lev] is bound by the loop body only; the [return] line
    reads it ([type(img_lev)]) whether or not the loop ran, before it calls
    [np.array].  The dtype built from it is numpy's object dtype. *)
Definition build_pyramid (image : ndarray) (num_levels : Z)
  : result (list ndarray) :=
  '(pyramid, img_lev) ←
     for_each build_pyramid_body (range 0 (Z.to_nat num_levels))
       ([image], None);
  match img_lev with
  | None => Raise UnboundLocalError
  | Some _ => np_array_object pyramid
  end.

(** One blur-and-decimate pass, and the levels [0 .. n] it generates. *)
Definition pyramid_down (image : ndarray) : ndarray :=
  decimate (convolve2d image PYRAMID_FILTER).

Definition levels (image : ndarray) (n : nat) : list ndarray :=
  fmap (fun k => Nat.iter k pyramid_down image) (seq 0 (S n)).

(** ** Array arithmetic *)

(** numpy's broadcasting rule for one axis. *)
Definition broadcast_dim (a b : nat) : result nat :=
  if decide (a = b) then Ok a
  else if decide (a = 1) then Ok b
  else if decide (b = 1) then Ok a
  else Raise ValueError.

(** [x - y] on 2-D arrays. *)
Definition np_sub (x y : ndarray) : result ndarray :=
  h ← broadcast_dim (nrows x) (nrows y);
  w ← broadcast_dim (ncols x) (ncols y);
  Ok (tabulate h w (fun i j =>
        fsub (at2 x (if decide (nrows x = 1) then 0 else i)
                    (if decide (ncols x = 1) then 0 else j))
             (at2 y (if decide (nrows y = 1) then 0 else i)
                    (if decide (ncols y = 1) then 0 else j)))).

(** [x += y]: [y] must broadcast to [x]'s shape. *)
Definition np_iadd (x y : ndarray) : result ndarray :=
  if decide ((nrows y = nrows x \/ nrows y = 1) /\
             (ncols y = ncols x \/ ncols y = 1))
  then Ok (tabulate (nrows x) (ncols x) (fun i j =>
         fadd (at2 x i j)
              (at2 y (if decide (nrows y = 1) then 0 else i)
                     (if decide (ncols y = 1) then 0 else j))))
  else Raise ValueError.

(** [np.stack((p, q), axis=-1)] of two 1-D arrays: the rows [[p_k, q_k]]. *)
Definition stack_last (p q : list F) : result ndarray :=
  if decide (length p = length q)
  then Ok (zip_with (fun a b => [a; b]) p q)
  else Raise ValueError.

(** [v.reshape(-1, 1)] of the negated flattened window: a column. *)
Definition column (v : list F) : ndarray := fmap (fun a => [a]) v.

(** [a.T]. *)
Definition transpose (a : ndarray) : ndarray :=
  tabulate (ncols a) (nrows a) (fun i j => at2 a j i).

(** [a @ b]. *)
Definition matmul (a b : ndarray) : result ndarray :=
  if decide (ncols a = nrows b)
  then Ok (tabulate (nrows a) (ncols b) (fun i j =>
         foldl (fun s k => fadd s (fmul (at2 a i k) (at2 b k j)))
           zero (seq 0 (ncols a))))
  else Raise ValueError.

(** The array of shape [(h, w)] that holds [val i j] at the pixels of [P] and
    zero elsewhere: what a loop that starts from [np.zeros] and assigns
    [val i j] at each pixel of [P] leaves behind. *)
Definition paint (h w : nat) (P : list (nat * nat)) (val : nat -> nat -> F)
  : ndarray :=
  tabulate h w (fun i j => if decide ((i, j) ∈ P) then val i j else zero).

(** The pixels [(i, j)] visited by a loop over [rows] with an inner loop over
    [cols], in the order they are visited. *)
Definition grid (rows cols : list nat) : list (nat * nat) :=
  i ← rows; pair i <$> cols.

(** Every row has length [w]. *)
Definition uniform (w : nat) (a : ndarray) : Prop :=
  Forall (fun r => length r = w) a.

(** ** The system of a window, in the specification's words

    These are not used by the embedding of the code: the theorems compare
    what the code builds with them. *)

(** The [ww x ww] window whose top-left pixel is [(i0, j0)], row by row: the
    list whose entry [r * ww + c] is [f (i0 + r) (j0 + c)]. *)
Definition window_rows {A} (ww i0 j0 : nat) (f : nat -> nat -> A) : list A :=
  (fun n => f (i0 + n / ww) (j0 + n mod ww)) <$> seq 0 (ww * ww).

(** [A]: for each pixel of the window that reaches [k] pixels to each side
    of [(i, j)], the row of the two gradients there. *)
Definition spec_A (Ix Iy : ndarray) (k i j : nat) : ndarray :=
  window_rows (2 * k + 1) (i - k) (j - k)
    (fun r c => [at2 Ix r c; at2 Iy r c]).

(** [b]: for each pixel of that window, minus the temporal difference
    [I2 - I1] there. *)
Definition spec_b (I1 I2 : ndarray) (k i j : nat) : ndarray :=
  window_rows (2 * k + 1) (i - k) (j - k)
    (fun r c => [fneg (fsub (at2 I2 r c) (at2 I1 r c))]).

(** ** lucas_kanade_step *)

Section Solvers.
(** [np.linalg.det] and [np.linalg.inv] (LAPACK). *)
Variable linalg_det : ndarray -> F.
Variable linalg_inv : ndarray -> result ndarray.

Definition epsilon : F := fdiv (of_Z 1) (of_Z 10000).

(** [np.linalg.inv] returns a 2x2 matrix on a 2x2 matrix that passed the
    determinant test. *)
Definition inv_after_det_test : Prop :=
  forall C, shape C = (2, 2) -> fgt (linalg_det C) epsilon = true ->
    exists Ci, linalg_inv C = Ok Ci /\ shape Ci = (2, 2).

(** The gradient matrix [A] of a window, from the two gradient images. *)
Definition window_A (Ix Iy : ndarray) (r_lower r_upper c_lower c_upper : nat)
  : result ndarray :=
  stack_last (flatten (slice Ix r_lower r_upper c_lower c_upper))
             (flatten (slice Iy r_lower r_upper c_lower c_upper)).

(** [b = -It[r_lower:r_upper, c_lower:c_upper].reshape(-1, 1)]. *)
Definition window_b (It : ndarray) (r_lower r_upper c_lower c_upper : nat)
  : ndarray :=
  column (fmap fneg (flatten (slice It r_lower r_upper c_lower c_upper))).

(** [np.linalg.inv(C) @ A.T @ b]. *)
Definition least_squares (C A b : ndarray) : result ndarray :=
  Ci ← linalg_inv C;
  CiAt ← matmul Ci (transpose A);
  matmul CiAt b.

(** [U[r, 0]]. *)
Definition entry (U : ndarray) (r c : nat) : result F :=
  match U !! r with
  | Some row => match row !! c with
                | Some x => Ok x
                | None => Raise IndexError
                end
  | None => Raise IndexError
  end.

(** The body of the inner loop at pixel [(i, j)]. *)
Definition lk_pixel (Ix Iy It : ndarray) (window_size : nat) (i j : nat)
    (st : ndarray * ndarray) : result (ndarray * ndarray) :=
  let '(du, dv) := st in
  let r_lower := i - window_size / 2 in
  let r_upper := i + 1 + window_size / 2 in
  let c_lower := j - window_size / 2 in
  let c_upper := j + 1 + window_size / 2 in
  A ← window_A Ix Iy r_lower r_upper c_lower c_upper;
  C ← matmul (transpose A) A;
  if fgt (linalg_det C) epsilon then
    let b := window_b It r_lower r_upper c_lower c_upper in
    U_V_LS ← least_squares C A b;
    x ← entry U_V_LS 0 0;
    du ← set2 du i j x;
    y ← entry U_V_LS 1 0;
    dv ← set2 dv i j y;
    Ok (du, dv)
  else Ok (du, dv).

(** What one pass of the inner loop computes before it writes: [None] when
    the determinant test fails, the pair [(U_V_LS[0, 0], U_V_LS[1, 0])]
    otherwise. *)
Definition lk_flow_at (Ix Iy It : ndarray) (window_size i j : nat)
  : result (option (F * F)) :=
  let r_lower := i - window_size / 2 in
  let r_upper := i + 1 + window_size / 2 in
  let c_lower := j - window_size / 2 in
  let c_upper := j + 1 + window_size / 2 in
  A ← window_A Ix Iy r_lower r_upper c_lower c_upper;
  C ← matmul (transpose A) A;
  if fgt (linalg_det C) epsilon then
    U_V_LS ← least_squares C A (window_b It r_lower r_upper c_lower c_upper);
    x ← entry U_V_LS 0 0;
    y ← entry U_V_LS 1 0;
    Ok (Some (x, y))
  else Ok None.

(** The value a solver leaves in [du] (first) and [dv] (second) at a pixel
    it visits, given what it computes there. *)
Definition written (sol : nat -> nat -> result (option (F * F)))
    (i j : nat) : F * F :=
  match sol i j with
  | Ok (Some xy) => xy
  | _ => (zero, zero)
  end.

Definition lucas_kanade_step (I1 I2 : ndarray) (window_size : nat)
  : result (ndarray * ndarray) :=
  let du := zeros (nrows I1) (ncols I1) in
  let dv := zeros (nrows I1) (ncols I1) in
  let '(h, w) := shape I1 in
  let Ix := convolve2d I2 X_DERIVATIVE_FILTER in
  let Iy := convolve2d I2 Y_DERIVATIVE_FILTER in
  It ← np_sub I2 I1;
  for_each (fun i st =>
      for_each (fun j st => lk_pixel Ix Iy It window_size i j st)
        (range (window_size / 2) (w - window_size / 2)) st)
    (range (window_size / 2) (h - window_size / 2)) (du, dv).

(** ** faster_lucas_kanade_step *)

(** [cv2.cornerHarris(src=np.float32(I2), blockSize=5, k=0.05, ksize=3)]. *)
Variable cornerHarris : ndarray -> ndarray.

(** [a.max()]; ValueError on an empty array. *)
Definition amax (a : ndarray) : result F :=
  match flatten a with
  | [] => Raise ValueError
  | x :: l => Ok (foldl fmax x l)
  end.

(** [np.where(cond)] on a 2-D array: the [(row, column)] pairs at which the
    test holds, in row-major order. *)
Fixpoint where_row (p : F -> bool) (j : nat) (row : list F) : list nat :=
  match row with
  | [] => []
  | x :: row' => (if p x then [j] else []) ++ where_row p (S j) row'
  end.

Fixpoint where_rows (p : F -> bool) (i : nat) (a : ndarray) : list (nat * nat) :=
  match a with
  | [] => []
  | row :: a' => fmap (pair i) (where_row p 0 row) ++ where_rows p (S i) a'
  end.

Definition np_where (p : F -> bool) (a : ndarray) : list (nat * nat) :=
  where_rows p 0 a.

(** The body of the loop over corners. *)
Definition faster_pixel (I1 I2 : ndarray) (window_size : nat) (ij : nat * nat)
    (st : ndarray * ndarray) : result (ndarray * ndarray) :=
  let '(i, j) := ij in
  let '(du, dv) := st in
  let r_lower := i - window_size / 2 in
  let r_upper := Nat.min (nrows I1) (i + 1 + window_size / 2) in
  let c_lower := j - window_size / 2 in
  let c_upper := Nat.min (ncols I1) (j + 1 + window_size / 2) in
  let I1_win := slice I1 r_lower r_upper c_lower c_upper in
  let I2_win := slice I2 r_lower r_upper c_lower c_upper in
  let Ix := convolve2d I2_win X_DERIVATIVE_FILTER in
  let Iy := convolve2d I2_win Y_DERIVATIVE_FILTER in
  It ← np_sub I2_win I1_win;
  A ← stack_last (flatten Ix) (flatten Iy);
  let b := column (fmap fneg (flatten It)) in
  C ← matmul (transpose A) A;
  U_V_LS ← least_squares C A b;
  x ← entry U_V_LS 0 0;
  du ← set2 du i j x;
  y ← entry U_V_LS 1 0;
  dv ← set2 dv i j y;
  Ok (du, dv).

(** The gradient matrix [A] the corner loop builds from a crop of [I2]: the
    gradients are those of the crop itself. *)
Definition crop_A (I2_win : ndarray) : result ndarray :=
  stack_last (flatten (convolve2d I2_win X_DERIVATIVE_FILTER))
             (flatten (convolve2d I2_win Y_DERIVATIVE_FILTER)).

(** What one pass of the corner loop computes before it writes. *)
Definition faster_flow_at (I1 I2 : ndarray) (window_size i j : nat)
  : result (option (F * F)) :=
  let r_lower := i - window_size / 2 in
  let r_upper := Nat.min (nrows I1) (i + 1 + window_size / 2) in
  let c_lower := j - window_size / 2 in
  let c_upper := Nat.min (ncols I1) (j + 1 + window_size / 2) in
  let I1_win := slice I1 r_lower r_upper c_lower c_upper in
  let I2_win := slice I2 r_lower r_upper c_lower c_upper in
  It ← np_sub I2_win I1_win;
  A ← crop_A I2_win;
  C ← matmul (transpose A) A;
  U_V_LS ← least_squares C A (column (fmap fneg (flatten It)));
  x ← entry U_V_LS 0 0;
  y ← entry U_V_LS 1 0;
  Ok (Some (x, y)).

Definition FACTOR : nat := 4.

Definition faster_lucas_kanade_step (I1 I2 : ndarray) (window_size : nat)
  : result (ndarray * ndarray) :=
  let du := zeros (nrows I1) (ncols I1) in
  let dv := zeros (nrows I1) (ncols I1) in
  if decide (Nat.min (nrows I1) (ncols I1) < FACTOR * window_size) then
    lucas_kanade_step I1 I2 window_size
  else
    let haris_response := cornerHarris I2 in
    top ← amax haris_response;
    let corners :=
      np_where (fun x => fgt x (fmul (fdiv (of_Z 1) (of_Z 100)) top))
        haris_response in
    for_each (faster_pixel I1 I2 window_size) corners (du, dv).

(** ** warp_image *)

(** [cv2.resize(a, (width, height))], linear interpolation. *)
Variable cv2_resize : ndarray -> nat -> nat -> ndarray.
(** [scipy.interpolate.griddata(points, values, xi, method='cubic',
    fill_value=np.nan)]: one value per query point, NaN where the point is
    outside the data's convex hull. *)
Variable griddata : list (F * F) -> list F -> list (F * F) -> list F.

(** [cv2.resize] returns an array of the size it was asked for. *)
Definition resize_contract : Prop :=
  forall a width height,
    nrows (cv2_resize a width height) = height /\
    uniform width (cv2_resize a width height).

(** [griddata] returns one value per query point. *)
Definition griddata_contract : Prop :=
  forall points values xi, length (griddata points values xi) = length xi.

(** [a * c] for a scalar [c]. *)
Definition scale (a : ndarray) (c : F) : ndarray :=
  fmap (M:=list) (fmap (M:=list) (fun x => fmul x c)) a.

(** [x + y] on 1-D arrays, with numpy's broadcasting. *)
Definition np_add1 (x y : list F) : result (list F) :=
  n ← broadcast_dim (length x) (length y);
  Ok (fmap (fun k =>
        fadd (nth (if decide (length x = 1) then 0 else k) x zero)
             (nth (if decide (length y = 1) then 0 else k) y zero))
      (seq 0 n)).

(** [np.column_stack((x, y))] of two 1-D arrays. *)
Definition column_stack (x y : list F) : result (list (F * F)) :=
  if decide (length x = length y) then Ok (zip x y) else Raise ValueError.

(** [x, y = np.meshgrid(np.arange(w), np.arange(h))], flattened. *)
Definition meshgrid_x (h w : nat) : list F :=
  flatten (tabulate h w (fun _ j => of_Z (Z.of_nat j))).
Definition meshgrid_y (h w : nat) : list F :=
  flatten (tabulate h w (fun i _ => of_Z (Z.of_nat i))).

(** [g[np.isnan(g)] = src[np.isnan(g)]] on 1-D arrays: the mask must have
    [src]'s length. *)
Definition fill_holes (g src : list F) : result (list F) :=
  if decide (length g = length src)
  then Ok (zip_with (fun a x => if isnan a then x else a) g src)
  else Raise IndexError.

(** [n / d] on Python ints. *)
Definition int_div (n d : nat) : result F :=
  if decide (d = 0) then Raise ZeroDivisionError
  else Ok (fdiv (of_Z (Z.of_nat n)) (of_Z (Z.of_nat d))).

(** The samples [griddata] returns for the displaced grid, one per pixel in
    row-major order (the body of [warp_image] down to the interpolation). *)
Definition interpolate (image u v : ndarray) : result (list F) :=
  let '(h, w) := shape image in
  U_FACTOR ← int_div w (ncols u);
  V_FACTOR ← int_div h (nrows v);
  let u := scale (cv2_resize u w h) U_FACTOR in
  let v := scale (cv2_resize v w h) V_FACTOR in
  let x := meshgrid_x h w in
  let y := meshgrid_y h w in
  points ← column_stack x y;
  x_new ← np_add1 x (flatten u);
  y_new ← np_add1 y (flatten v);
  points_new ← column_stack x_new y_new;
  Ok (griddata points (flatten image) points_new).

Definition warp_image (image u v : ndarray) : result ndarray :=
  let '(h, w) := shape image in
  image_warp ← interpolate image u v;
  image_warp ← fill_holes image_warp (flatten image);
  reshape image_warp h w.

(** ** lucas_kanade_optical_flow *)

(** [int(np.ceil(n / d))]. *)
Definition ceil_div (n d : nat) : nat := (n + d - 1) / d.

(** The working resolution, as the [(width, height)] pair handed to OpenCV. *)
Definition IMAGE_SIZE (shp : nat * nat) (num_levels : nat) : nat * nat :=
  let h_factor := ceil_div shp.1 (2 ^ num_levels) in
  let w_factor := ceil_div shp.2 (2 ^ num_levels) in
  (w_factor * 2 ^ num_levels, h_factor * 2 ^ num_levels).

(** [if I.shape != IMAGE_SIZE: I = cv2.resize(I, IMAGE_SIZE)]: the shape, which
    is [(rows, columns)], is compared with the [(width, height)] pair. *)
Definition resize_to (I : ndarray) (size : nat * nat) : ndarray :=
  if decide (shape I <> size) then cv2_resize I size.1 size.2 else I.

(** What the driver needs of its estimator: the flow it returns has the
    shape of [I2] at the working resolution computed from [I1]. *)
Definition returns_working_shape
    (flow : ndarray -> ndarray -> nat -> nat -> nat -> result (ndarray * ndarray))
  : Prop :=
  forall I1 I2 ws iters num_levels du dv,
    flow I1 I2 ws iters num_levels = Ok (du, dv) ->
    shape du = shape (resize_to I2 (IMAGE_SIZE (shape I1) num_levels)) /\
    shape dv = shape (resize_to I2 (IMAGE_SIZE (shape I1) num_levels)).

Definition DOWN_FACTOR : F := of_Z 2.

(** [pyramid[level]]. *)
Definition level_of (pyramid : list ndarray) (level : nat) : result ndarray :=
  match pyramid !! level with
  | Some a => Ok a
  | None => Raise IndexError
  end.

(** The [for iter in range(max_iter)] loop at one level; the state is
    [(u, v, I2_warp)]. *)
Definition lk_iteration (I1_level I2_level : ndarray) (window_size : nat)
    (_ : nat) (st : ndarray * ndarray * ndarray)
  : result (ndarray * ndarray * ndarray) :=
  let '(u, v, I2_warp) := st in
  '(du, dv) ← lucas_kanade_step I1_level I2_warp window_size;
  u ← np_iadd u du;
  v ← np_iadd v dv;
  I2_warp ← warp_image I2_level u v;
  Ok (u, v, I2_warp).

(** The body of the loop over levels; the state is [(u, v)]. *)
Definition lk_level (pyramid_I1 pyarmid_I2 : list ndarray)
    (window_size max_iter : nat) (level : nat) (st : ndarray * ndarray)
  : result (ndarray * ndarray) :=
  let '(u, v) := st in
  I2_level ← level_of pyarmid_I2 level;
  I1_level ← level_of pyramid_I1 level;
  I2_warp ← warp_image I2_level u v;
  '(u, v, _) ← for_each (lk_iteration I1_level I2_level window_size)
                 (range 0 max_iter) (u, v, I2_warp);
  if decide (0 < level) then
    finer ← level_of pyarmid_I2 (level - 1);
    let '(h_scale, w_scale) := shape finer in
    Ok (scale (cv2_resize u w_scale h_scale) DOWN_FACTOR,
        scale (cv2_resize v w_scale h_scale) DOWN_FACTOR)
  else Ok (u, v).

Definition lucas_kanade_optical_flow (I1 I2 : ndarray)
    (window_size max_iter num_levels : nat) : result (ndarray * ndarray) :=
  let size := IMAGE_SIZE (shape I1) num_levels in
  let I1 := resize_to I1 size in
  let I2 := resize_to I2 size in
  pyramid_I1 ← build_pyramid I1 (Z.of_nat num_levels);
  pyarmid_I2 ← build_pyramid I2 (Z.of_nat num_levels);
  coarsest ← match list.last pyarmid_I2 with
             | Some a => Ok a
             | None => Raise IndexError
             end;
  let u := zeros (nrows coarsest) (ncols coarsest) in
  let v := zeros (nrows coarsest) (ncols coarsest) in
  for_each (lk_level pyramid_I1 pyarmid_I2 window_size max_iter)
    (reverse (range 0 (num_levels + 1))) (u, v).

(** ** faster_lucas_kanade_optical_flow *)

Definition faster_lk_iteration (pyramid_I1 : list ndarray) (I2_level : ndarray)
    (window_size level : nat) (_ : nat) (st : ndarray * ndarray * ndarray)
  : result (ndarray * ndarray * ndarray) :=
  let '(u, v, I2_warp) := st in
  I1_level ← level_of pyramid_I1 level;
  '(du, dv) ← faster_lucas_kanade_step I1_level I2_warp window_size;
  u ← np_iadd u du;
  v ← np_iadd v dv;
  I2_warp ← warp_image I2_level u v;
  Ok (u, v, I2_warp).

Definition faster_lk_level (pyramid_I1 pyarmid_I2 : list ndarray)
    (window_size max_iter : nat) (level : nat) (st : ndarray * ndarray)
  : result (ndarray * ndarray) :=
  let '(u, v) := st in
  I2_level ← level_of pyarmid_I2 level;
  I2_warp ← warp_image I2_level u v;
  '(u, v, _) ← for_each
                 (faster_lk_iteration pyramid_I1 I2_level window_size level)
                 (range 0 max_iter) (u, v, I2_warp);
  if decide (0 < level) then
    finer ← level_of pyarmid_I2 (level - 1);
    let '(h_scale, w_scale) := shape finer in
    U_FACTOR ← int_div w_scale (ncols u);
    V_FACTOR ← int_div h_scale (nrows v);
    Ok (scale (cv2_resize u w_scale h_scale) U_FACTOR,
        scale (cv2_resize v w_scale h_scale) V_FACTOR)
  else Ok (u, v).

Definition faster_lucas_kanade_optical_flow (I1 I2 : ndarray)
    (window_size max_iter num_levels : nat) : result (ndarray * ndarray) :=
  let size := IMAGE_SIZE (shape I1) num_levels in
  let I1 := resize_to I1 size in
  let I2 := resize_to I2 size in
  pyramid_I1 ← build_pyramid I1 (Z.of_nat num_levels);
  pyarmid_I2 ← build_pyramid I2 (Z.of_nat num_levels);
  coarsest ← match list.last pyarmid_I2 with
             | Some a => Ok a
             | None => Raise IndexError
             end;
  let u := zeros (nrows coarsest) (ncols coarsest) in
  let v := zeros (nrows coarsest) (ncols coarsest) in
  for_each (faster_lk_level pyramid_I1 pyarmid_I2 window_size max_iter)
    (reverse (range 0 (num_levels + 1))) (u, v).

(** ** The stabilization drivers *)

(** [np.mean] of the entries of a 2-D array (NaN, by [0 / 0], when there is
    none). *)
Definition np_mean (a : ndarray) : F :=
  fdiv (foldl fadd zero (flatten a)) (of_Z (Z.of_nat (length (flatten a)))).

(** [a[r0:r1, c0:c1] += m], in place: [a] keeps its shape. *)
Definition slice_iadd (a : ndarray) (r0 r1 c0 c1 : nat) (m : F) : ndarray :=
  imap (fun i row =>
          if decide (r0 <= i < r1)
          then imap (fun j x => if decide (c0 <= j < c1) then fadd x m else x) row
          else row) a.

(** The accumulation step of a frame ("Part D"): the bounds come from the
    shapes of [du] and [dv], the means are added to [u] and [v]. *)
Definition accumulate (window_size : nat) (u v du dv : ndarray)
  : ndarray * ndarray :=
  let r_low_u := window_size / 2 in
  let r_high_u := nrows du - window_size / 2 in
  let c_low_u := window_size / 2 in
  let c_high_u := ncols du - window_size / 2 in
  let r_low_v := window_size / 2 in
  let r_high_v := nrows dv - window_size / 2 in
  let c_low_v := window_size / 2 in
  let c_high_v := ncols dv - window_size / 2 in
  let du_mean := np_mean (slice du r_low_u r_high_u c_low_u c_high_u) in
  let dv_mean := np_mean (slice dv r_low_v r_high_v c_low_v c_high_v) in
  (slice_iadd u r_low_u r_high_u c_low_u c_high_u du_mean,
   slice_iadd v r_low_v r_high_v c_low_v c_high_v dv_mean).

Section Drivers.
(** A decoded colour frame, [cv2.cvtColor(frame, cv2.COLOR_BGR2GRAY)] and
    [a.astype('uint8')]. *)
Variable BGR : Type.
Variable cvtColor : BGR -> ndarray.
Variable astype_uint8 : ndarray -> ndarray.
(** The flow estimator the driver calls. *)
Variable flow : ndarray -> ndarray -> nat -> nat -> nat ->
                result (ndarray * ndarray).

(** What the loop carries from frame to frame, with the frames written so
    far. *)
Record driver_state := {
  st_u : ndarray;
  st_v : ndarray;
  prev_frame : ndarray;
  out : list ndarray
}.

(** The invariant of the frame loop: [u], [v] and the previous frame have
    the shape [S] of a frame at the working resolution. *)
Definition driver_inv (S : nat * nat) (st : driver_state) : Prop :=
  shape (st_u st) = S /\ shape (st_v st) = S /\ shape (prev_frame st) = S /\
  uniform S.2 (st_u st) /\ uniform S.2 (st_v st).

(** The state before the loop, from the first frame of the capture. *)
Definition driver_init (frame : BGR) (num_levels : nat) : driver_state :=
  let gray_frame := cvtColor frame in
  let written := [gray_frame] in
  let size := IMAGE_SIZE (shape gray_frame) num_levels in
  let gray_frame := cv2_resize gray_frame size.1 size.2 in
  {| st_u := zeros (nrows gray_frame) (ncols gray_frame);
     st_v := zeros (nrows gray_frame) (ncols gray_frame);
     prev_frame := gray_frame;
     out := written |}.

(** One pass of the [while] loop on a frame that was read; [size] is the
    [IMAGE_SIZE] computed before the loop, [width] and [height] the
    capture's parameters. *)
Definition driver_frame (size : nat * nat) (width height : nat)
    (window_size max_iter num_levels : nat) (frame : BGR) (st : driver_state)
  : result driver_state :=
  let gray_frame := cvtColor frame in
  let gray_frame := cv2_resize gray_frame size.1 size.2 in
  '(du, dv) ← flow (prev_frame st) gray_frame window_size max_iter num_levels;
  let '(u, v) := accumulate window_size (st_u st) (st_v st) du dv in
  warp_frame ← warp_image gray_frame u v;
  let warp_frame := cv2_resize warp_frame width height in
  Ok {| st_u := u; st_v := v; prev_frame := gray_frame;
        out := out st ++ [astype_uint8 warp_frame] |}.

(** The driver on the frames of a capture; the capture's first [read] must
    give a frame. *)
Definition video_stabilization (frames : list BGR) (width height : nat)
    (window_size max_iter num_levels : nat) : result driver_state :=
  match frames with
  | [] => Raise ValueError
  | frame :: rest =>
      let size := IMAGE_SIZE (shape (cvtColor frame)) num_levels in
      for_each (driver_frame size width height window_size max_iter num_levels)
        rest (driver_init frame num_levels)
  end.

(** The driver that crops what it writes ("fix effects"): the first frame
    and every warped frame lose [start_rows], [start_cols], [end_rows] and
    [end_cols] pixels at the top, left, bottom and right before they are
    written; the warped frame is cropped before it is resized. *)
Definition driver_init_fix_effects (frame : BGR) (num_levels : nat)
    (start_rows start_cols end_rows end_cols : nat) : driver_state :=
  let gray_frame := cvtColor frame in
  let written :=
    [crop_margins gray_frame gray_frame start_rows start_cols end_rows end_cols] in
  let size := IMAGE_SIZE (shape gray_frame) num_levels in
  let gray_frame := cv2_resize gray_frame size.1 size.2 in
  {| st_u := zeros (nrows gray_frame) (ncols gray_frame);
     st_v := zeros (nrows gray_frame) (ncols gray_frame);
     prev_frame := gray_frame;
     out := written |}.

Definition driver_frame_fix_effects (size : nat * nat) (width height : nat)
    (window_size max_iter num_levels : nat)
    (start_rows start_cols end_rows end_cols : nat)
    (frame : BGR) (st : driver_state) : result driver_state :=
  let gray_frame := cvtColor frame in
  let gray_frame := cv2_resize gray_frame size.1 size.2 in
  '(du, dv) ← flow (prev_frame st) gray_frame window_size max_iter num_levels;
  let '(u, v) := accumulate window_size (st_u st) (st_v st) du dv in
  warp_frame ← warp_image gray_frame u v;
  let warp_frame :=
    crop_margins warp_frame gray_frame start_rows start_cols end_rows end_cols in
  let warp_frame := cv2_resize warp_frame width height in
  Ok {| st_u := u; st_v := v; prev_frame := gray_frame;
        out := out st ++ [astype_uint8 warp_frame] |}.

Definition video_stabilization_fix_effects (frames : list BGR)
    (width height : nat) (window_size max_iter num_levels : nat)
    (start_rows start_cols end_rows end_cols : nat) : result driver_state :=
  match frames with
  | [] => Raise ValueError
  | frame :: rest =>
      let size := IMAGE_SIZE (shape (cvtColor frame)) num_levels in
      for_each (driver_frame_fix_effects size width height
                  window_size max_iter num_levels
                  start_rows start_cols end_rows end_cols)
        rest (driver_init_fix_effects frame num_levels
                start_rows start_cols end_rows end_cols)
  end.

(** Two states that differ in the frames written only, and two runs that
    raise the same exception or end in such states. *)
Definition same_estimate (st st' : driver_state) : Prop :=
  st_u st = st_u st' /\ st_v st = st_v st' /\
  prev_frame st = prev_frame st' /\ length (out st) = length (out st').

Definition same_outcome (r r' : result driver_state) : Prop :=
  match r, r' with
  | Ok st, Ok st' => same_estimate st st'
  | Raise e, Raise e' => e = e'
  | _, _ => False
  end.

End Drivers.

(** The two drivers differ in the estimator they call. *)
Definition lucas_kanade_video_stabilization (BGR : Type)
    (cvtColor : BGR -> ndarray) (astype_uint8 : ndarray -> ndarray) :=
  video_stabilization BGR cvtColor astype_uint8 lucas_kanade_optical_flow.

Definition lucas_kanade_faster_video_stabilization (BGR : Type)
    (cvtColor : BGR -> ndarray) (astype_uint8 : ndarray -> ndarray) :=
  video_stabilization BGR cvtColor astype_uint8 faster_lucas_kanade_optical_flow.

(** The third calls the corner-restricted estimator and crops. *)
Definition lucas_kanade_faster_video_stabilization_fix_effects (BGR : Type)
    (cvtColor : BGR -> ndarray) (astype_uint8 : ndarray -> ndarray) :=
  video_stabilization_fix_effects BGR cvtColor astype_uint8
    faster_lucas_kanade_optical_flow.

End Solvers.

End Arrays.

(** ** Stand-ins for the library routines

    Simple routines that meet the contracts the theorems ask of the
    libraries; they serve to run the embedding on concrete images. *)

Section StandIns.
Context {F : Type} `{Scalar F}.
Abbreviation ndarray := (list (list F)).

(** Determinant and inverse of a 2x2 matrix by the closed formulas; the
    inverse is refused when the determinant is neither above the
    solver's threshold, nor positive, nor negative. *)
Definition det2 (C : ndarray) : F :=
  fsub (fmul (at2 C 0 0) (at2 C 1 1)) (fmul (at2 C 0 1) (at2 C 1 0)).

Definition inv2 (C : ndarray) : result ndarray :=
  let d := det2 C in
  if fgt d epsilon || fgt d zero || fgt zero d then
    Ok [[fdiv (at2 C 1 1) d; fdiv (fneg (at2 C 0 1)) d];
        [fdiv (fneg (at2 C 1 0)) d; fdiv (at2 C 0 0) d]]
  else Raise LinAlgError.

(** A corner response in the manner of Harris, with the parameters of the
    source (block size 5, sensitivity 0.05, aperture 3): from the products
    of the gradients of [img], summed over the 5x5 block of each pixel,
    [det(M) - k * trace(M)^2]. *)
Definition box5 : ndarray :=
  fmap (M:=list) (fmap (M:=list) of_Z)
    [[1; 1; 1; 1; 1]; [1; 1; 1; 1; 1]; [1; 1; 1; 1; 1];
     [1; 1; 1; 1; 1]; [1; 1; 1; 1; 1]]%Z.

Definition harris (img : ndarray) : ndarray :=
  let dx := convolve2d img X_DERIVATIVE_FILTER in
  let dy := convolve2d img Y_DERIVATIVE_FILTER in
  let prod (p q : ndarray) :=
    tabulate (nrows img) (ncols img) (fun i j => fmul (at2 p i j) (at2 q i j)) in
  let a := convolve2d (prod dx dx) box5 in
  let b := convolve2d (prod dx dy) box5 in
  let c := convolve2d (prod dy dy) box5 in
  tabulate (nrows img) (ncols img) (fun i j =>
    fsub (fsub (fmul (at2 a i j) (at2 c i j)) (fmul (at2 b i j) (at2 b i j)))
         (fmul (fdiv (of_Z 5) (of_Z 100))
               (fmul (fadd (at2 a i j) (at2 c i j))
                     (fadd (at2 a i j) (at2 c i j))))).

(** Resizing by nearest neighbour. *)
Definition resize_nearest (a : ndarray) (width height : nat) : ndarray :=
  tabulate height width (fun i j =>
    at2 a (i * nrows a / height) (j * ncols a / width)).

(** Interpolation that only knows the data sites: a query point that is a
    data site gets that site's value, any other point is a hole. *)
Definition same_scalar (x y : F) : bool := negb (fgt x y || fgt y x).

Fixpoint value_at (points : list (F * F)) (values : list F) (q : F * F) : F :=
  match points, values with
  | p :: points', x :: values' =>
      if same_scalar p.1 q.1 && same_scalar p.2 q.2 then x
      else value_at points' values' q
  | _, _ => fnan
  end.

Definition griddata_sites (points : list (F * F)) (values : list F)
    (xi : list (F * F)) : list F :=
  fmap (value_at points values) xi.

End StandIns.

(** ** IEEE binary64, the scalars of numpy's float64 arrays *)

Definition float_of_Z (z : Z) : float :=
  match z with
  | Z0 => PrimFloat.zero
  | Zpos _ => PrimFloat.of_uint63 (Uint63.of_Z z)
  | Zneg p => PrimFloat.opp (PrimFloat.of_uint63 (Uint63.of_Z (Zpos p)))
  end.

Definition float_max (x y : float) : float :=
  if PrimFloat.is_nan x then x
  else if PrimFloat.is_nan y then y
  else if PrimFloat.ltb x y then y else x.

#[global] Instance float_scalar : Scalar float := {|
  of_Z := float_of_Z;
  fadd := PrimFloat.add;
  fsub := PrimFloat.sub;
  fmul := PrimFloat.mul;
  fdiv := PrimFloat.div;
  fneg := PrimFloat.opp;
  fgt := fun x y => PrimFloat.ltb y x;
  fmax := float_max;
  isnan := PrimFloat.is_nan;
  fnan := PrimFloat.nan
|}.

(** An image given by integer intensities. *)
Definition image_of (rows : list (list Z)) : list (list float) :=
  fmap (M:=list) (fmap (M:=list) float_of_Z) rows.

(** ** Test images *)

(** Two 5x5 frames: a textured patch and the patch one pixel further right. *)
Definition frame_a : list (list float) :=
  image_of [[0; 1; 4; 9; 16];
            [1; 3; 7; 13; 21];
            [4; 7; 12; 19; 28];
            [9; 13; 19; 27; 37];
            [16; 21; 28; 37; 48]]%Z.

Definition frame_b : list (list float) :=
  image_of [[0; 0; 1; 4; 9];
            [1; 1; 3; 7; 13];
            [4; 4; 7; 12; 19];
            [9; 9; 13; 19; 27];
            [16; 16; 21; 28; 37]]%Z.

(** Two 12x12 frames: a smooth surface, and the surface one pixel further
    right. *)
Definition frame12 (shift : Z) : list (list float) :=
  tabulate 12 12 (fun i j =>
    let x := (Z.of_nat j - shift)%Z in
    let y := Z.of_nat i in
    float_of_Z (x * x + y * y * y + x * y)%Z).

(** The maximum of the corner response of the second 12x12 frame. *)
Definition top12 : float :=
  Eval vm_compute in
    match amax (harris (frame12 1)) with Ok t => t | Raise _ => PrimFloat.nan end.

(** A 3x3 image and a field that moves pixel [(1, 1)] one column right and
    sends pixel [(0, 2)] two columns right, out of the image. *)
Definition image3 : list (list float) :=
  image_of [[10; 20; 30]; [40; 50; 60]; [70; 80; 90]]%Z.

Definition field3 : list (list float) :=
  image_of [[0; 0; 2]; [0; 1; 0]; [0; 0; 0]]%Z.

(** The second 5x5 frame with a pixel that is not a number. *)
Definition frame_nan : list (list float) :=
  [[0; 0; 1; 4; 9];
   [1; 1; 3; 7; 13];
   [4; 4; PrimFloat.nan; 12; 19];
   [9; 9; 13; 19; 27];
   [16; 16; 21; 28; 37]]%float.

(** A flat 5x5 frame: every gradient vanishes. *)
Definition frame_flat : list (list float) :=
  image_of [[7; 7; 7; 7; 7]; [7; 7; 7; 7; 7]; [7; 7; 7; 7; 7];
            [7; 7; 7; 7; 7]; [7; 7; 7; 7; 7]]%Z.

(** * Tactics *)

(** Evaluates the binds of the [result] monad and nothing else. *)
Ltac rsimpl := cbn [mbind result_bind mret result_ret] in *.


(** * Facts about arrays *)


Section ArrayFacts.
Context {F : Type} `{Scalar F}.
Abbreviation ndarray := (list (list F)).
Implicit Types (a b : ndarray) (f : nat -> nat -> F).

Lemma for_each_app {A S} (body : A -> S -> result S) xs ys s :
  for_each body (xs ++ ys) s = (s' ← for_each body xs s; for_each body ys s').
Proof.
  revert s; induction xs as [|x xs IH]; intros s; simpl; [done|].
  destruct (body x s) as [s'|e]; simpl; [apply IH|done].
Qed.

Lemma for_each_invariant {A S} (P : S -> Prop) (body : A -> S -> result S) xs :
  (forall x s s', x ∈ xs -> P s -> body x s = Ok s' -> P s') ->
  forall s s', P s -> for_each body xs s = Ok s' -> P s'.
Proof.
  induction xs as [|x xs IH]; intros Hb s s' Hs; simpl.
  - by intros [= <-].
  - destruct (body x s) as [s1|e] eqn:E; simpl; [|done].
    apply IH; [|eapply Hb; eauto; left].
    intros; eapply Hb; eauto; by right.
Qed.

Lemma length_tabulate h w f : length (tabulate h w f) = h.
Proof. unfold tabulate. by rewrite length_fmap, length_seq. Qed.

Lemma nrows_tabulate h w f : nrows (tabulate h w f) = h.
Proof. apply length_tabulate. Qed.

Lemma lookup_tabulate h w f i :
  i < h -> tabulate h w f !! i = Some (fmap (f i) (seq 0 w)).
Proof.
  intros Hi. unfold tabulate.
  rewrite list_lookup_fmap, lookup_seq_lt by done. done.
Qed.

Lemma lookup_tabulate_ge h w f i : h <= i -> tabulate h w f !! i = None.
Proof. intros. apply lookup_ge_None_2. by rewrite length_tabulate. Qed.

Lemma at2_tabulate h w f i j :
  i < h -> j < w -> at2 (tabulate h w f) i j = f i j.
Proof.
  intros Hi Hj. unfold at2. rewrite lookup_tabulate by done.
  rewrite list_lookup_fmap, lookup_seq_lt by done. done.
Qed.

Lemma ncols_tabulate h w f : 0 < h -> ncols (tabulate h w f) = w.
Proof.
  intros Hh. destruct h as [|h]; [lia|].
  unfold tabulate; simpl. by rewrite length_fmap, length_seq.
Qed.

Lemma shape_tabulate h w f : 0 < h -> shape (tabulate h w f) = (h, w).
Proof.
  intros. unfold shape. by rewrite nrows_tabulate, ncols_tabulate.
Qed.

Lemma row_length_tabulate h w f r : r ∈ tabulate h w f -> length r = w.
Proof.
  unfold tabulate. intros (i & -> & _)%list_elem_of_fmap.
  by rewrite length_fmap, length_seq.
Qed.

Lemma rect_tabulate h w f : rect (tabulate h w f).
Proof.
  unfold rect. apply Forall_lookup. intros i r Hr.
  assert (i < h) by (apply lookup_lt_Some in Hr; by rewrite length_tabulate in Hr).
  rewrite (row_length_tabulate h w f r) by (by eapply list_elem_of_lookup_2).
  symmetry. apply ncols_tabulate. lia.
Qed.

Lemma rect_row a i r : rect a -> a !! i = Some r -> length r = ncols a.
Proof.
  intros Ha Hi. unfold rect in Ha. rewrite Forall_lookup in Ha. eauto.
Qed.

Lemma shape_zeros h w : 0 < h -> @shape F (zeros h w) = (h, w).
Proof. apply shape_tabulate. Qed.

Lemma at2_zeros h w i j : @at2 F _ (zeros h w) i j = zero.
Proof.
  unfold zeros. destruct (decide (i < h)) as [Hi|Hi].
  - destruct (decide (j < w)) as [Hj|Hj]; [by apply at2_tabulate|].
    unfold at2. rewrite lookup_tabulate by done.
    rewrite (lookup_ge_None_2 (fmap _ _)); [done|].
    rewrite length_fmap, length_seq. lia.
  - unfold at2. rewrite lookup_tabulate_ge by lia. done.
Qed.

(** Two rectangular arrays of one shape with the same entries are equal. *)
Lemma ndarray_ext a b :
  rect a -> rect b -> shape a = shape b ->
  (forall i j, i < nrows a -> j < ncols a -> at2 a i j = at2 b i j) ->
  a = b.
Proof.
  intros Ha Hb [= Hr Hc] Hab.
  apply list_eq_same_length with (nrows a); [by symmetry|done|].
  intros i r s Hi Hr1 Hr2.
  apply list_eq_same_length with (ncols a);
    [rewrite Hc; by eapply rect_row|by eapply rect_row|].
  intros j x y Hj Hx Hy.
  specialize (Hab i j Hi Hj). unfold at2 in Hab.
  rewrite Hr1, Hr2, Hx, Hy in Hab. done.
Qed.

Lemma tabulate_at2 a : rect a -> tabulate (nrows a) (ncols a) (at2 a) = a.
Proof.
  intros Ha. destruct (decide (nrows a = 0)) as [E|E].
  - destruct a; [done|discriminate].
  - apply ndarray_ext; [apply rect_tabulate|done|apply shape_tabulate; lia|].
    intros i j. rewrite nrows_tabulate, ncols_tabulate by lia.
    apply at2_tabulate.
Qed.

(** *** Decimation *)

Lemma every_second_lookup {A} (l : list A) i :
  every_second l !! i = l !! (2 * i).
Proof.
  revert l. induction i as [|i IH]; intros [|x [|y l]]; try done.
  replace (2 * S i) with (S (S (2 * i))) by lia.
  change (every_second l !! i = l !! (2 * i)). apply IH.
Qed.

Lemma length_every_second {A} (l : list A) :
  length (every_second l) = (length l + 1) / 2.
Proof.
  remember (length l) as n eqn:En. revert l En.
  induction n as [n IH] using lt_wf_ind. intros l ->.
  destruct l as [|x [|y l]]; simpl; [done..|].
  rewrite (IH (length l)) by (simpl; lia || done).
  change (S ((length l + 1) / 2) = (S (S (length l)) + 1) / 2).
  replace (S (S (length l)) + 1) with (length l + 1 + 1 * 2) by lia.
  rewrite Nat.div_add by lia. lia.
Qed.

Lemma nrows_decimate a : nrows (decimate a) = (nrows a + 1) / 2.
Proof.
  unfold decimate, nrows. by rewrite length_fmap, length_every_second.
Qed.

Lemma ncols_decimate a : ncols (decimate a) = (ncols a + 1) / 2.
Proof.
  destruct a as [|r a]; [done|]. simpl. apply length_every_second.
Qed.

Lemma shape_decimate a :
  shape (decimate a) = ((nrows a + 1) / 2, (ncols a + 1) / 2).
Proof. unfold shape. by rewrite nrows_decimate, ncols_decimate. Qed.

Lemma rect_decimate a : rect a -> rect (decimate a).
Proof.
  intros Ha. unfold rect. rewrite ncols_decimate.
  apply Forall_lookup. intros i r Hr.
  unfold decimate in Hr. rewrite list_lookup_fmap, every_second_lookup in Hr.
  destruct (a !! (2 * i)) as [r'|] eqn:E; [|done].
  injection Hr as <-. rewrite length_every_second.
  by rewrite (rect_row _ _ _ Ha E).
Qed.

Lemma at2_decimate a i j : at2 (decimate a) i j = at2 a (2 * i) (2 * j).
Proof.
  unfold at2, decimate.
  rewrite list_lookup_fmap, every_second_lookup.
  destruct (a !! (2 * i)); simpl; [|done].
  by rewrite every_second_lookup.
Qed.

(** *** Convolution *)

Lemma shape_convolve2d a k : shape (convolve2d a k) = shape a.
Proof.
  unfold convolve2d. destruct (shape a) as [h w] eqn:Ea.
  destruct (shape k) as [kh kw]. injection Ea as <- <-.
  destruct a as [|r a]; [done|]. apply shape_tabulate. simpl. lia.
Qed.

Lemma rect_convolve2d a k : rect (convolve2d a k).
Proof.
  unfold convolve2d. destruct (shape a) as [h w].
  destruct (shape k) as [kh kw]. apply rect_tabulate.
Qed.

(** *** In-place assignment *)

Lemma set2_ok a i j x r :
  a !! i = Some r -> j < length r ->
  set2 a i j x = Ok (<[i := <[j := x]> r]> a).
Proof. intros Hr Hj. unfold set2. rewrite Hr. by rewrite decide_True. Qed.

Lemma set2_inv a i j x a' :
  set2 a i j x = Ok a' ->
  exists r, a !! i = Some r /\ j < length r /\ a' = <[i := <[j := x]> r]> a.
Proof.
  unfold set2. destruct (a !! i) as [r|] eqn:E; [|done].
  case_decide; [|done]. intros [= <-]. eauto.
Qed.

Lemma at2_set2 a i j x a' i' j' :
  set2 a i j x = Ok a' ->
  at2 a' i' j' = if decide ((i', j') = (i, j)) then x else at2 a i' j'.
Proof.
  intros (r & Hr & Hj & ->)%set2_inv. unfold at2.
  destruct (decide (i' = i)) as [->|Hi].
  - rewrite list_lookup_insert_eq by (by eapply lookup_lt_Some).
    rewrite Hr. destruct (decide (j' = j)) as [->|Hj'].
    + rewrite list_lookup_insert_eq by done. by rewrite decide_True.
    + rewrite list_lookup_insert_ne by done.
      rewrite decide_False by congruence. done.
  - rewrite list_lookup_insert_ne by done.
    rewrite decide_False by congruence. done.
Qed.

Lemma nrows_set2 a i j x a' : set2 a i j x = Ok a' -> nrows a' = nrows a.
Proof.
  intros (r & Hr & Hj & ->)%set2_inv. unfold nrows. by rewrite length_insert.
Qed.

Lemma ncols_set2 a i j x a' : set2 a i j x = Ok a' -> ncols a' = ncols a.
Proof.
  intros (r & Hr & Hj & ->)%set2_inv.
  destruct a as [|r0 a]; [done|]. destruct i as [|i]; simpl in *; [|done].
  injection Hr as ->. by rewrite length_insert.
Qed.

Lemma rect_set2 a i j x a' : rect a -> set2 a i j x = Ok a' -> rect a'.
Proof.
  intros Ha Hs. unfold rect. rewrite (ncols_set2 _ _ _ _ _ Hs).
  destruct (set2_inv _ _ _ _ _ Hs) as (r & Hr & Hj & ->).
  apply Forall_insert; [done|].
  rewrite length_insert. by eapply rect_row.
Qed.

Lemma at2_paint h w P val i j :
  i < h -> j < w ->
  at2 (paint h w P val) i j = if decide ((i, j) ∈ P) then val i j else zero.
Proof. intros. unfold paint. by rewrite at2_tabulate. Qed.

Lemma paint_nil h w val : paint h w [] val = zeros h w.
Proof.
  unfold paint, zeros, tabulate.
  apply list_fmap_ext; intros _ i _. apply list_fmap_ext; intros _ j _.
  rewrite decide_False; [done|]. apply not_elem_of_nil.
Qed.

Lemma set2_paint h w P val i j :
  i < h -> j < w ->
  set2 (paint h w P val) i j (val i j) = Ok (paint h w ((i, j) :: P) val).
Proof.
  intros Hi Hj.
  assert (exists a', set2 (paint h w P val) i j (val i j) = Ok a') as [a' Ha'].
  { unfold paint. eexists. eapply set2_ok; [by apply lookup_tabulate|].
    by rewrite length_fmap, length_seq. }
  rewrite Ha'. f_equal.
  assert (shape a' = (h, w)) as Hs.
  { unfold shape. rewrite (nrows_set2 _ _ _ _ _ Ha'), (ncols_set2 _ _ _ _ _ Ha').
    apply shape_tabulate. lia. }
  apply ndarray_ext.
  - eapply rect_set2; [|done]. apply rect_tabulate.
  - apply rect_tabulate.
  - rewrite Hs. symmetry. apply shape_tabulate. lia.
  - injection Hs as -> ->. intros i' j' Hi' Hj'.
    rewrite (at2_set2 _ _ _ _ _ _ _ Ha'), !at2_paint by done.
    destruct (decide ((i', j') = (i, j))) as [[= -> ->]|Hne].
    + rewrite decide_True; [done|]. by left.
    + destruct (decide ((i', j') ∈ P)) as [Hin|Hin].
      * rewrite decide_True; [done|]. by right.
      * rewrite decide_False; [done|].
        intros [?|?]%elem_of_cons; done.
Qed.

(** Assigning zero where the array is zero already. *)
Lemma paint_cons_zero h w P val i j :
  val i j = zero -> paint h w ((i, j) :: P) val = paint h w P val.
Proof.
  intros Hz. unfold paint, tabulate.
  apply list_fmap_ext; intros _ i' _. apply list_fmap_ext; intros _ j' _.
  destruct (decide ((i', j') = (i, j))) as [[= -> ->]|Hne].
  - rewrite decide_True by (by left). rewrite Hz. by case_decide.
  - destruct (decide ((i', j') ∈ P)) as [Hin|Hin].
    + rewrite decide_True; [done|]. by right.
    + rewrite decide_False; [done|]. intros [?|?]%elem_of_cons; done.
Qed.

(** *** Nested loops *)

Lemma for_each_ext {A S} (f g : A -> S -> result S) xs s :
  (forall x s, x ∈ xs -> f x s = g x s) -> for_each f xs s = for_each g xs s.
Proof.
  revert s. induction xs as [|x xs IH]; intros s Hfg; simpl; [done|].
  rewrite Hfg by left. destruct (g x s); simpl; [|done].
  apply IH. intros; apply Hfg. by right.
Qed.

Lemma for_each_grid {S} (f : nat -> nat -> S -> result S) rows cols s :
  for_each (fun i st => for_each (fun j st => f i j st) cols st) rows s
  = for_each (fun ij st => f ij.1 ij.2 st) (grid rows cols) s.
Proof.
  revert s. induction rows as [|i rows IH]; intros s; simpl; [done|].
  unfold grid; simpl. rewrite for_each_app.
  assert (forall st, for_each (fun j st => f i j st) cols st
          = for_each (fun ij st => f ij.1 ij.2 st) (pair i <$> cols) st) as ->.
  { clear. induction cols as [|j cols IH]; intros st; simpl; [done|].
    destruct (f i j st); simpl; [apply IH|done]. }
  destruct (for_each _ (pair i <$> cols) s); simpl; [apply IH|done].
Qed.

Lemma elem_of_grid rows cols i j :
  (i, j) ∈ grid rows cols <-> i ∈ rows /\ j ∈ cols.
Proof.
  unfold grid. rewrite list_elem_of_bind. split.
  - intros (i' & (j' & [= -> ->] & Hj)%list_elem_of_fmap & Hi). done.
  - intros [Hi Hj]. exists i. split; [|done].
    apply list_elem_of_fmap. eauto.
Qed.

Lemma elem_of_range lo hi i : i ∈ range lo hi <-> lo <= i < hi.
Proof. unfold range. rewrite elem_of_seq. lia. Qed.

(** A loop that assigns [valu i j] and [valv i j] at each pixel it visits. *)
Lemma for_each_paint (body : nat * nat -> ndarray * ndarray ->
                             result (ndarray * ndarray))
    h w (valu valv : nat -> nat -> F) ps :
  (forall i j P, (i, j) ∈ ps ->
     body (i, j) (paint h w P valu, paint h w P valv)
     = Ok (paint h w ((i, j) :: P) valu, paint h w ((i, j) :: P) valv)) ->
  forall P,
    for_each body ps (paint h w P valu, paint h w P valv)
    = Ok (paint h w (reverse ps ++ P) valu, paint h w (reverse ps ++ P) valv).
Proof.
  induction ps as [|[i j] ps IH]; intros Hb P; simpl; [done|].
  rewrite Hb by left. simpl.
  rewrite IH by (intros; apply Hb; by right).
  by rewrite reverse_cons, <- app_assoc.
Qed.

(** *** Slices, windows and products *)

Lemma uniform_rect a : rect a <-> uniform (ncols a) a.
Proof. done. Qed.

Lemma uniform_tabulate h w f : uniform w (tabulate h w f).
Proof.
  apply Forall_lookup. intros i r Hr.
  apply (row_length_tabulate h w f). by eapply list_elem_of_lookup_2.
Qed.

Lemma length_flatten_uniform w a :
  uniform w a -> length (flatten a) = length a * w.
Proof.
  unfold flatten. induction 1 as [|r a Hr _ IH]; simpl; [done|].
  rewrite length_app, IH, Hr. done.
Qed.

Lemma nrows_slice a r0 r1 c0 c1 :
  nrows (slice a r0 r1 c0 c1) = Nat.min (r1 - r0) (nrows a - r0).
Proof.
  unfold slice, nrows. by rewrite length_fmap, length_take, length_drop.
Qed.

Lemma uniform_slice w a r0 r1 c0 c1 :
  uniform w a -> uniform (Nat.min (c1 - c0) (w - c0)) (slice a r0 r1 c0 c1).
Proof.
  intros Ha. unfold slice. apply Forall_fmap.
  apply Forall_take, Forall_drop. unfold uniform in Ha.
  rewrite Forall_lookup in Ha |- *. intros i r Hr. simpl.
  by rewrite length_take, length_drop, (Ha i r Hr).
Qed.

Lemma length_window w a r0 r1 c0 c1 :
  uniform w a ->
  length (flatten (slice a r0 r1 c0 c1))
  = Nat.min (r1 - r0) (nrows a - r0) * Nat.min (c1 - c0) (w - c0).
Proof.
  intros Ha.
  rewrite (length_flatten_uniform _ _ (uniform_slice w a r0 r1 c0 c1 Ha)).
  f_equal. apply nrows_slice.
Qed.

Lemma at2_slice a r0 r1 c0 c1 i j :
  i < r1 - r0 -> j < c1 - c0 ->
  at2 (slice a r0 r1 c0 c1) i j = at2 a (r0 + i) (c0 + j).
Proof.
  intros Hi Hj. unfold at2, slice.
  rewrite list_lookup_fmap, lookup_take_lt, lookup_drop by done.
  destruct (a !! (r0 + i)) as [r|]; simpl; [|done].
  by rewrite lookup_take_lt, lookup_drop by done.
Qed.

Lemma stack_last_ok (p q : list F) :
  length p = length q ->
  stack_last p q = Ok (zip_with (fun x y => [x; y]) p q).
Proof. intros Hpq. unfold stack_last. by rewrite decide_True. Qed.

Lemma nrows_zip_pairs (p q : list F) :
  length p = length q -> nrows (zip_with (fun x y => [x; y]) p q) = length p.
Proof. intros Hpq. unfold nrows. rewrite length_zip_with. lia. Qed.

Lemma ncols_zip_pairs (p q : list F) :
  length p = length q -> 0 < length p ->
  ncols (zip_with (fun x y => [x; y]) p q) = 2.
Proof. destruct p, q; simpl; intros; (done || lia). Qed.

Lemma shape_transpose a : 0 < ncols a -> shape (transpose a) = (ncols a, nrows a).
Proof. intros. unfold transpose. by apply shape_tabulate. Qed.

Lemma matmul_ok a b :
  ncols a = nrows b ->
  exists c, matmul a b = Ok c /\ nrows c = nrows a /\
            uniform (ncols b) c /\ (0 < nrows a -> ncols c = ncols b).
Proof.
  intros Hab. unfold matmul. rewrite decide_True by done.
  eexists; split; [done|].
  split; [apply nrows_tabulate|].
  split; [apply uniform_tabulate|apply ncols_tabulate].
Qed.

Lemma entry_ok (U : ndarray) r c : r < nrows U -> uniform (ncols U) U -> c < ncols U ->
  exists x, entry U r c = Ok x.
Proof.
  intros Hr HU Hc. unfold entry.
  destruct (lookup_lt_is_Some_2 U r Hr) as [row Hrow]. rewrite Hrow.
  assert (length row = ncols U) as Hl by (by eapply rect_row).
  destruct (lookup_lt_is_Some_2 row c) as [x ->]; [lia|]. eauto.
Qed.

(** * build_pyramid *)

Lemma length_levels a n : length (levels a n) = S n.
Proof. unfold levels. by rewrite length_fmap, length_seq. Qed.

Lemma lookup_levels a n k :
  k <= n -> levels a n !! k = Some (Nat.iter k pyramid_down a).
Proof.
  intros Hk. unfold levels.
  rewrite list_lookup_fmap, lookup_seq_lt by lia. done.
Qed.

Lemma levels_S a n :
  levels a (S n) = levels a n ++ [Nat.iter (S n) pyramid_down a].
Proof. unfold levels. by rewrite (seq_S (S n)), fmap_app. Qed.

Lemma last_levels a n : list.last (levels a n) = Some (Nat.iter n pyramid_down a).
Proof.
  rewrite last_lookup, length_levels. simpl. by apply lookup_levels.
Qed.

Lemma shape_pyramid_down a :
  shape (pyramid_down a) = ((nrows a + 1) / 2, (ncols a + 1) / 2).
Proof.
  unfold pyramid_down. rewrite shape_decimate.
  pose proof (shape_convolve2d a PYRAMID_FILTER) as [= -> ->]. done.
Qed.

Lemma rect_pyramid_down a : rect (pyramid_down a).
Proof. apply rect_decimate, rect_convolve2d. Qed.

(** The loop of [build_pyramid], after [n] passes: the pyramid holds levels
    [0 .. n], and [img_lev] is bound exactly when a pass was made. *)
Lemma build_pyramid_loop a n :
  for_each build_pyramid_body (range 0 n) ([a], None)
  = Ok (levels a n,
        match n with 0 => None | S _ => Some (Nat.iter n pyramid_down a) end).
Proof.
  unfold range. rewrite Nat.sub_0_r.
  induction n as [|n IH]; [done|].
  rewrite seq_S, for_each_app, IH. simpl.
  rewrite lookup_levels by lia. simpl. by rewrite levels_S.
Qed.

Lemma build_pyramid_nonpos a (num_levels : Z) :
  (num_levels <= 0)%Z -> build_pyramid a num_levels = Raise UnboundLocalError.
Proof.
  intros Hn. unfold build_pyramid.
  replace (Z.to_nat num_levels) with 0 by lia. done.
Qed.

Lemma build_pyramid_zero_levels_raise a :
  build_pyramid a (Z.of_nat 0) = Raise UnboundLocalError.
Proof. by apply build_pyramid_nonpos. Qed.

(** *** The shapes of the levels *)

Lemma ceil_div_1 n : ceil_div n 1 = n.
Proof. unfold ceil_div. rewrite Nat.div_1_r. lia. Qed.

(** Halving with rounding up, then again: dividing by the product. *)
Lemma ceil_div_half n d : 0 < d -> (ceil_div n d + 1) / 2 = ceil_div n (2 * d).
Proof.
  intros Hd. unfold ceil_div.
  replace (n + 2 * d - 1) with (n + d - 1 + 1 * d) by lia.
  rewrite (Nat.mul_comm 2 d), <- Nat.Div0.div_div.
  by rewrite Nat.div_add by lia.
Qed.

Lemma pow2_pos n : 0 < 2 ^ n.
Proof. apply Nat.neq_0_lt_0, Nat.pow_nonzero. lia. Qed.

Lemma ceil_div_small n d : n <= 1 -> 0 < d -> ceil_div n d = n.
Proof.
  intros Hn Hd. unfold ceil_div. destruct n as [|[|n]]; [| |lia].
  - apply Nat.div_small. lia.
  - replace (1 + d - 1) with d by lia. apply Nat.div_same. lia.
Qed.

Lemma shape_iter_pyramid_down a k :
  shape (Nat.iter k pyramid_down a)
  = (ceil_div (nrows a) (2 ^ k), ceil_div (ncols a) (2 ^ k)).
Proof.
  induction k as [|k IH].
  - cbn [Nat.iter]. change (2 ^ 0) with 1. by rewrite !ceil_div_1.
  - rewrite Nat.iter_succ, shape_pyramid_down.
    injection IH as -> ->.
    rewrite !ceil_div_half by apply pow2_pos.
    by rewrite <- Nat.pow_succ_r'.
Qed.

(** *** The conversion of the list of levels *)

(** [np.array] refuses the levels of a pyramid exactly when there is a level
    above the image and the image has one row and two columns or more: every
    level then has one row, and the widths differ. *)
Lemma np_array_object_levels a n :
  np_array_object (levels a n)
  = if decide (0 < n /\ nrows a = 1 /\ 2 <= ncols a)
    then Raise ValueError else Ok (levels a n).
Proof.
  unfold levels. change (seq 0 (S n)) with (0 :: seq 1 n). rewrite fmap_cons.
  set (rest := (fun k => Nat.iter k pyramid_down a) <$> seq 1 n).
  change (Nat.iter 0 pyramid_down a) with a. cbn [np_array_object].
  assert (forall P : ndarray -> Prop,
            Forall P rest <-> forall k, 1 <= k <= n -> P (Nat.iter k pyramid_down a))
    as Hrest.
  { intros P. unfold rest. rewrite Forall_fmap, Forall_seq.
    split; intros HP k Hk; apply HP; lia. }
  destruct (decide (0 < n /\ nrows a = 1 /\ 2 <= ncols a)) as [(Hn & Hr & Hc)|Hno].
  - rewrite decide_False.
    + rewrite decide_True; [done|].
      apply Hrest. intros k Hk.
      pose proof (shape_iter_pyramid_down a k) as Hs. unfold shape in Hs.
      assert (nrows (Nat.iter k pyramid_down a) = ceil_div (nrows a) (2 ^ k))
        as -> by congruence.
      rewrite Hr. apply ceil_div_small; [lia|apply pow2_pos].
    + rewrite Hrest. intros Hall. specialize (Hall 1 ltac:(lia)).
      rewrite shape_iter_pyramid_down in Hall. unfold shape in Hall.
      assert (ceil_div (ncols a) (2 ^ 1) = ncols a) as Hw by congruence.
      change (2 ^ 1) with 2 in Hw. unfold ceil_div in Hw.
      pose proof (Nat.div_mod_eq (ncols a + 2 - 1) 2).
      pose proof (Nat.mod_upper_bound (ncols a + 2 - 1) 2). lia.
  - destruct (decide (Forall (fun b => shape b = shape a) rest)) as [|Hsh];
      [done|].
    destruct (decide (Forall (fun b => nrows b = nrows a) rest)) as [Hrows|];
      [|done].
    exfalso. apply Hsh. rewrite Hrest in Hrows |- *.
    assert (0 < n -> nrows a <= 1) as Hsmall.
    { intros Hn. specialize (Hrows 1 ltac:(lia)).
      pose proof (shape_iter_pyramid_down a 1) as Hs. unfold shape in Hs.
      assert (ceil_div (nrows a) (2 ^ 1) = nrows a) as Hr by congruence.
      clear Hrows Hs. change (2 ^ 1) with 2 in Hr.
      unfold ceil_div in Hr.
      pose proof (Nat.div_mod_eq (nrows a + 2 - 1) 2).
      pose proof (Nat.mod_upper_bound (nrows a + 2 - 1) 2). lia. }
    intros k Hk. rewrite shape_iter_pyramid_down.
    assert (ncols a <= 1) as Hc.
    { destruct a as [|r a']; [simpl; lia|].
      specialize (Hsmall ltac:(lia)). simpl in Hsmall.
      destruct (decide (2 <= ncols (r :: a'))); [|lia].
      exfalso. apply Hno. split; [lia|]. split; [simpl in *; lia|done]. }
    rewrite !ceil_div_small by (lia || apply pow2_pos). done.
Qed.

Lemma build_pyramid_levels a (num_levels : Z) :
  (0 < num_levels)%Z ->
  build_pyramid a num_levels
  = np_array_object (levels a (Z.to_nat num_levels)).
Proof.
  intros Hn. unfold build_pyramid. rewrite build_pyramid_loop.
  destruct (Z.to_nat num_levels) eqn:E; [lia|done].
Qed.

Lemma build_pyramid_pos a (num_levels : Z) :
  (0 < num_levels)%Z -> nrows a <> 1 \/ ncols a <= 1 ->
  build_pyramid a num_levels = Ok (levels a (Z.to_nat num_levels)).
Proof.
  intros Hn Ha. rewrite build_pyramid_levels, np_array_object_levels by done.
  rewrite decide_False; [done|lia].
Qed.

Lemma build_pyramid_one_row a (num_levels : Z) :
  (0 < num_levels)%Z -> nrows a = 1 -> 2 <= ncols a ->
  build_pyramid a num_levels = Raise ValueError.
Proof.
  intros Hn Hr Hc. rewrite build_pyramid_levels, np_array_object_levels by done.
  rewrite decide_True; [done|lia].
Qed.

(** A pyramid that is returned is the list of the levels. *)
Lemma build_pyramid_Ok a (num_levels : Z) pyramid :
  build_pyramid a num_levels = Ok pyramid ->
  (0 < num_levels)%Z /\ pyramid = levels a (Z.to_nat num_levels).
Proof.
  intros Hp. destruct (decide (0 < num_levels)%Z) as [Hn|Hn].
  - split; [done|].
    rewrite build_pyramid_levels, np_array_object_levels in Hp by done.
    case_decide; [done|]. by injection Hp.
  - by rewrite build_pyramid_nonpos in Hp by lia.
Qed.

(** C1. With [num_levels = 0] the loop makes no pass, the local [img_lev]
    is never bound, and the [return] line, which reads it, raises
    UnboundLocalError: no one-level pyramid is returned. *)
Theorem build_pyramid_zero_levels a :
  build_pyramid a 0 = Raise UnboundLocalError.
Proof. by apply build_pyramid_nonpos. Qed.

(** C2. [build_pyramid] raises in two cases and in no other: when
    [num_levels <= 0], for 0 as for negative values, with the
    UnboundLocalError of the unbound [img_lev]; and, for any
    [num_levels >= 1], when the image has one row and two columns or more,
    with the ValueError of [np.array], which finds levels of one row and
    different widths. *)
Theorem build_pyramid_raises_iff a (num_levels : Z) :
  ((exists e, build_pyramid a num_levels = Raise e) <->
   (num_levels <= 0)%Z \/ (nrows a = 1 /\ 2 <= ncols a)) /\
  ((num_levels <= 0)%Z ->
   build_pyramid a num_levels = Raise UnboundLocalError) /\
  ((0 < num_levels)%Z -> nrows a = 1 -> 2 <= ncols a ->
   build_pyramid a num_levels = Raise ValueError).
Proof.
  split; [|split; [apply build_pyramid_nonpos|apply build_pyramid_one_row]].
  split.
  - intros [e He]. destruct (decide (num_levels <= 0)%Z) as [|Hn]; [by left|].
    right. destruct (decide (nrows a = 1 /\ 2 <= ncols a)) as [|Hno]; [done|].
    rewrite build_pyramid_pos in He by lia. done.
  - intros [Hn|[Hr Hc]].
    + exists UnboundLocalError. by apply build_pyramid_nonpos.
    + destruct (decide (num_levels <= 0)%Z) as [Hn|Hn].
      * exists UnboundLocalError. by apply build_pyramid_nonpos.
      * exists ValueError. apply build_pyramid_one_row; [lia|done|done].
Qed.

(** With [num_levels >= 1] and an image that has not one row and two
    columns or more, [build_pyramid] returns [num_levels + 1] images: the
    input, then each level the previous one convolved with [PYRAMID_FILTER]
    (symmetric boundary) and decimated from index 0, its dimensions the
    halves of the previous ones, rounded up. *)
Theorem build_pyramid_positive_levels a (num_levels : Z) :
  (0 < num_levels)%Z -> nrows a <> 1 \/ ncols a <= 1 ->
  exists pyramid,
    build_pyramid a num_levels = Ok pyramid /\
    length pyramid = Z.to_nat num_levels + 1 /\
    pyramid !! 0 = Some a /\
    forall i prev, i < Z.to_nat num_levels -> pyramid !! i = Some prev ->
      pyramid !! S i = Some (decimate (convolve2d prev PYRAMID_FILTER)) /\
      shape (decimate (convolve2d prev PYRAMID_FILTER))
      = ((nrows prev + 1) / 2, (ncols prev + 1) / 2).
Proof.
  intros Hn Ha. exists (levels a (Z.to_nat num_levels)).
  split; [by apply build_pyramid_pos|].
  split; [rewrite length_levels; lia|].
  split; [by rewrite lookup_levels by lia|].
  intros i prev Hi Hprev. rewrite lookup_levels in Hprev by lia.
  injection Hprev as <-. split; [by rewrite lookup_levels by lia|].
  apply shape_pyramid_down.
Qed.

End ArrayFacts.

(** * The dense solver *)

Section DenseSolver.
Context {F : Type} `{Scalar F}.
Abbreviation ndarray := (list (list F)).
Variable linalg_det : ndarray -> F.
Variable linalg_inv : ndarray -> result ndarray.
Implicit Types (a b A C U : ndarray).

Lemma np_sub_same_shape a b :
  shape a = shape b ->
  np_sub a b = Ok (tabulate (nrows a) (ncols a)
                     (fun i j => fsub (at2 a i j) (at2 b i j))).
Proof.
  intros [= Hr Hc]. unfold np_sub, broadcast_dim.
  rewrite <- Hr, <- Hc, !decide_True by done. simpl. f_equal.
  unfold tabulate. apply list_fmap_ext; intros ? i [-> ?]%lookup_seq.
  apply list_fmap_ext; intros ? j [-> ?]%lookup_seq.
  repeat case_decide; repeat f_equal; lia.
Qed.

Lemma normal_matrix_ok A :
  0 < nrows A -> ncols A = 2 ->
  exists C, matmul (transpose A) A = Ok C /\ shape C = (2, 2).
Proof.
  intros Hn Hc.
  assert (shape (transpose A) = (2, nrows A)) as [= Hr' Hc'].
  { rewrite shape_transpose by lia. by rewrite Hc. }
  destruct (matmul_ok (transpose A) A) as (C & -> & HrC & _ & HcC); [done|].
  exists C. split; [done|]. unfold shape. rewrite HrC, HcC, Hr' by lia.
  by rewrite Hc.
Qed.

Lemma least_squares_ok C Ci A b :
  linalg_inv C = Ok Ci -> shape Ci = (2, 2) ->
  0 < nrows A -> ncols A = 2 -> nrows b = nrows A -> ncols b = 1 ->
  exists U x y, least_squares linalg_inv C A b = Ok U /\
                entry U 0 0 = Ok x /\ entry U 1 0 = Ok y.
Proof.
  intros HCi [= HrCi HcCi] Hn Hc Hb Hcb.
  assert (shape (transpose A) = (2, nrows A)) as [= Hr' Hc'].
  { rewrite shape_transpose by lia. by rewrite Hc. }
  unfold least_squares. rewrite HCi. simpl.
  destruct (matmul_ok Ci (transpose A)) as (M & -> & HrM & _ & HcM);
    [congruence|]. simpl.
  destruct (matmul_ok M b) as (U & -> & HrU & HuU & HcU).
  { rewrite HcM by lia. congruence. }
  assert (ncols U = 1) as HU1 by (rewrite HcU by lia; done).
  rewrite Hcb, <- HU1 in HuU.
  destruct (entry_ok U 0 0) as [x Hx]; [lia|done|lia|].
  destruct (entry_ok U 1 0) as [y Hy]; [lia|done|lia|].
  exists U, x, y. done.
Qed.

Lemma length_lk_window w a ws i j :
  uniform w a -> i + ws / 2 < nrows a -> j + ws / 2 < w ->
  ws / 2 <= i -> ws / 2 <= j ->
  length (flatten (slice a (i - ws / 2) (i + 1 + ws / 2)
                          (j - ws / 2) (j + 1 + ws / 2)))
  = (2 * (ws / 2) + 1) * (2 * (ws / 2) + 1).
Proof.
  intros Ha Hi Hj Hi' Hj'. rewrite (length_window w) by done.
  f_equal; lia.
Qed.

Lemma ncols_column (v : list F) : 0 < length v -> ncols (column v) = 1.
Proof. destruct v; simpl; [lia|done]. Qed.

(** At an interior pixel the loop body finds its system and, past the
    determinant test, its solution. *)
Lemma lk_flow_at_interior Ix Iy It h w ws i j :
  inv_after_det_test linalg_det linalg_inv ->
  uniform w Ix -> uniform w Iy -> uniform w It ->
  nrows Ix = h -> nrows Iy = h -> nrows It = h ->
  ws / 2 <= i < h - ws / 2 -> ws / 2 <= j < w - ws / 2 ->
  exists A C,
    window_A Ix Iy (i - ws / 2) (i + 1 + ws / 2) (j - ws / 2) (j + 1 + ws / 2)
      = Ok A /\
    matmul (transpose A) A = Ok C /\
    if fgt (linalg_det C) epsilon then
      exists U x y,
        least_squares linalg_inv C A
          (window_b It (i - ws / 2) (i + 1 + ws / 2)
                       (j - ws / 2) (j + 1 + ws / 2)) = Ok U /\
        entry U 0 0 = Ok x /\ entry U 1 0 = Ok y /\
        lk_flow_at linalg_det linalg_inv Ix Iy It ws i j = Ok (Some (x, y))
    else lk_flow_at linalg_det linalg_inv Ix Iy It ws i j = Ok None.
Proof.
  intros Hinv HIx HIy HIt Hx Hy Ht Hi Hj.
  set (n := (2 * (ws / 2) + 1) * (2 * (ws / 2) + 1)).
  assert (0 < n) as Hn by (unfold n; nia).
  pose proof (length_lk_window w Ix ws i j HIx
                ltac:(lia) ltac:(lia) ltac:(lia) ltac:(lia)) as Lx.
  pose proof (length_lk_window w Iy ws i j HIy
                ltac:(lia) ltac:(lia) ltac:(lia) ltac:(lia)) as Ly.
  pose proof (length_lk_window w It ws i j HIt
                ltac:(lia) ltac:(lia) ltac:(lia) ltac:(lia)) as Lt.
  fold n in Lx, Ly, Lt.
  unfold lk_flow_at, window_A.
  rewrite stack_last_ok by congruence. rsimpl.
  set (A := zip_with _ _ _).
  assert (nrows A = n) as HrA by (unfold A; rewrite nrows_zip_pairs; congruence).
  assert (ncols A = 2) as HcA by (unfold A; apply ncols_zip_pairs; lia || congruence).
  destruct (normal_matrix_ok A) as (C & HC & HsC); [lia|done|].
  exists A, C. split; [done|]. split; [done|].
  rewrite HC. rsimpl.
  destruct (fgt (linalg_det C) epsilon) eqn:Hdet; [|done].
  destruct (Hinv C HsC Hdet) as (Ci & HCi & HsCi).
  destruct (least_squares_ok C Ci A
              (window_b It (i - ws / 2) (i + 1 + ws / 2)
                           (j - ws / 2) (j + 1 + ws / 2)))
    as (U & x & y & HU & Ex & Ey); [done|done|lia|done| | |].
  - unfold window_b, column. unfold nrows at 1.
    rewrite !length_fmap. lia.
  - unfold window_b. apply ncols_column. rewrite length_fmap. lia.
  - exists U, x, y. rewrite HU. rsimpl. rewrite Ex, Ey. done.
Qed.

(** The loop body, from what it computes. *)
Lemma lk_pixel_written Ix Iy It h w ws i j P r :
  i < h -> j < w ->
  lk_flow_at linalg_det linalg_inv Ix Iy It ws i j = Ok r ->
  let sol := lk_flow_at linalg_det linalg_inv Ix Iy It ws in
  lk_pixel linalg_det linalg_inv Ix Iy It ws i j
    (paint h w P (fun i j => (written sol i j).1),
     paint h w P (fun i j => (written sol i j).2))
  = Ok (paint h w ((i, j) :: P) (fun i j => (written sol i j).1),
        paint h w ((i, j) :: P) (fun i j => (written sol i j).2)).
Proof.
  intros Hi Hj Hr sol.
  assert (written sol i j = match r with Some xy => xy | None => (zero, zero) end)
    as Hw by (unfold written, sol; by rewrite Hr).
  unfold lk_flow_at in Hr. unfold lk_pixel.
  destruct (window_A _ _ _ _ _ _) as [A|]; simpl in *; [|done].
  destruct (matmul (transpose A) A) as [C|]; simpl in *; [|done].
  destruct (fgt (linalg_det C) epsilon).
  - destruct (least_squares _ _ _ _) as [U|]; simpl in *; [|done].
    destruct (entry U 0 0) as [x|]; simpl in *; [|done].
    destruct (entry U 1 0) as [y|]; simpl in *; [|done].
    injection Hr as <-.
    pose proof (set2_paint h w P (fun i j => (written sol i j).1) i j Hi Hj) as Su.
    pose proof (set2_paint h w P (fun i j => (written sol i j).2) i j Hi Hj) as Sv.
    simpl in Su, Sv. rewrite Hw in Su, Sv. simpl in Su, Sv.
    rewrite Su. simpl. rewrite Sv. done.
  - injection Hr as <-.
    rewrite !paint_cons_zero by (by rewrite Hw). done.
Qed.

Lemma shape_tabulate_like a (f : nat -> nat -> F) : shape (tabulate (nrows a) (ncols a) f) = shape a.
Proof.
  destruct a as [|r a]; [done|]. apply shape_tabulate. simpl. lia.
Qed.

Lemma shape_paint_like a P (val : nat -> nat -> F) : shape (paint (nrows a) (ncols a) P val) = shape a.
Proof. apply shape_tabulate_like. Qed.

(** The two loops of [lucas_kanade_step], from arrays of zeros. *)
Lemma lk_loops Ix Iy It h w ws :
  inv_after_det_test linalg_det linalg_inv ->
  uniform w Ix -> uniform w Iy -> uniform w It ->
  nrows Ix = h -> nrows Iy = h -> nrows It = h ->
  let sol := lk_flow_at linalg_det linalg_inv Ix Iy It ws in
  let ps := grid (range (ws / 2) (h - ws / 2)) (range (ws / 2) (w - ws / 2)) in
  for_each (fun i st =>
      for_each (fun j st => lk_pixel linalg_det linalg_inv Ix Iy It ws i j st)
        (range (ws / 2) (w - ws / 2)) st)
    (range (ws / 2) (h - ws / 2)) (zeros h w, zeros h w)
  = Ok (paint h w (reverse ps ++ []) (fun i j => (written sol i j).1),
        paint h w (reverse ps ++ []) (fun i j => (written sol i j).2)).
Proof.
  intros Hinv HIx HIy HIt Hx Hy Ht sol ps.
  rewrite (for_each_grid (lk_pixel linalg_det linalg_inv Ix Iy It ws)).
  fold ps.
  rewrite <- (paint_nil h w (fun i j => (written sol i j).1)) at 1.
  rewrite <- (paint_nil h w (fun i j => (written sol i j).2)).
  apply for_each_paint. intros i j P Hij. simpl.
  apply elem_of_grid in Hij as [Hi%elem_of_range Hj%elem_of_range].
  destruct (lk_flow_at_interior Ix Iy It h w ws i j)
    as (A & C & _ & _ & Hsol); try done.
  destruct (fgt (linalg_det C) epsilon).
  - destruct Hsol as (U & x & y & _ & _ & _ & Hsol).
    eapply lk_pixel_written; [lia|lia|exact Hsol].
  - eapply lk_pixel_written; [lia|lia|exact Hsol].
Qed.

Lemma grid_nil_r rows : grid rows [] = [].
Proof. unfold grid. induction rows as [|i rows IH]; [done|]. simpl. exact IH. Qed.

(** C10. For images of one shape whose smaller dimension is below
    [window_size], no pixel is visited: [du] and [dv] are the arrays of
    zeros the function starts from. *)
Theorem lucas_kanade_step_small_image I1 I2 window_size :
  shape I1 = shape I2 ->
  Nat.min (nrows I1) (ncols I1) < window_size ->
  lucas_kanade_step linalg_det linalg_inv I1 I2 window_size
  = Ok (zeros (nrows I1) (ncols I1), zeros (nrows I1) (ncols I1)).
Proof.
  intros Hshape Hmin. unfold lucas_kanade_step. cbn [shape].
  rewrite np_sub_same_shape by done. rsimpl.
  rewrite (for_each_grid (lk_pixel linalg_det linalg_inv _ _ _ window_size)).
  assert (window_size <= 2 * (window_size / 2) + 1) as Hk.
  { pose proof (Nat.div_mod_eq window_size 2).
    pose proof (Nat.mod_upper_bound window_size 2). lia. }
  destruct (decide (nrows I1 < window_size)) as [Hh|Hh].
  - unfold range at 1.
    replace (nrows I1 - window_size / 2 - window_size / 2) with 0 by lia.
    done.
  - unfold range at 2.
    replace (ncols I1 - window_size / 2 - window_size / 2) with 0 by lia.
    simpl. by rewrite grid_nil_r.
Qed.

End DenseSolver.

Lemma inv2_after_det_test {F : Type} `{Scalar F} :
  inv_after_det_test (F:=F) det2 inv2.
Proof.
  intros C _ Hdet. unfold inv2. rewrite Hdet. simpl. eauto.
Qed.

Lemma lucas_kanade_step_small_image_witness :
  shape (image_of [[1; 2]; [3; 4]]%Z) = shape (image_of [[1; 2]; [3; 5]]%Z) /\
  Nat.min 2 2 < 3 /\
  lucas_kanade_step det2 inv2
    (image_of [[1; 2]; [3; 4]]%Z) (image_of [[1; 2]; [3; 5]]%Z) 3
  = Ok (zeros 2 2, zeros 2 2).
Proof.
  split; [reflexivity|]. split; [simpl; lia|].
  apply (lucas_kanade_step_small_image det2 inv2
           (image_of [[1; 2]; [3; 4]]%Z) (image_of [[1; 2]; [3; 5]]%Z) 3);
    [reflexivity|simpl; lia].
Defined.

Lemma build_pyramid_positive_levels_witness :
  (0 < 2)%Z /\
  nrows (image_of [[1; 2; 3]; [4; 5; 6]; [7; 8; 9]]%Z) <> 1 /\
  exists pyramid,
    build_pyramid (image_of [[1; 2; 3]; [4; 5; 6]; [7; 8; 9]]%Z) 2 = Ok pyramid /\
    length pyramid = 3 /\
    pyramid !! 0 = Some (image_of [[1; 2; 3]; [4; 5; 6]; [7; 8; 9]]%Z).
Proof.
  assert (nrows (image_of [[1; 2; 3]; [4; 5; 6]; [7; 8; 9]]%Z) <> 1) as Hrows
    by (simpl; lia).
  split; [lia|]. split; [exact Hrows|].
  destruct (build_pyramid_positive_levels
              (image_of [[1; 2; 3]; [4; 5; 6]; [7; 8; 9]]%Z) 2 eq_refl
              (or_introl Hrows))
    as (pyramid & Hp & Hlen & H0 & _).
  exists pyramid. auto.
Defined.

(** A one-row image: every level has one row, the widths are 4, 2 and 1,
    and [np.array] refuses them. *)
Example build_pyramid_one_row_image :
  build_pyramid (image_of [[1; 2; 3; 4]]%Z) 2 = Raise ValueError.
Proof. vm_compute. reflexivity. Qed.

(** The levels of a 4x4 checkerboard, in binary64. *)
Example build_pyramid_checkerboard :
  build_pyramid
    (image_of [[0; 255; 0; 255]; [255; 0; 255; 0];
               [0; 255; 0; 255]; [255; 0; 255; 0]]%Z) 2
  = Ok [image_of [[0; 255; 0; 255]; [255; 0; 255; 0];
                  [0; 255; 0; 255]; [255; 0; 255; 0]]%Z;
        [[109.5703125; 133.4765625]; [133.4765625; 125.5078125]]%float;
        [[123.017578125]]%float].
Proof. vm_compute. reflexivity. Qed.


(** * The corner-restricted solver *)

Section FasterSolver.
Context {F : Type} `{Scalar F}.
Abbreviation ndarray := (list (list F)).
Variable linalg_det : ndarray -> F.
Variable linalg_inv : ndarray -> result ndarray.
Variable cornerHarris : ndarray -> ndarray.
Implicit Types (a b A C U R : ndarray).

(** C4. When the smaller dimension of [I1] is below [4 * window_size],
    [faster_lucas_kanade_step] is [lucas_kanade_step]: same result, same
    exception if any. *)
Theorem faster_step_delegates I1 I2 window_size :
  Nat.min (nrows I1) (ncols I1) < 4 * window_size ->
  faster_lucas_kanade_step linalg_det linalg_inv cornerHarris I1 I2 window_size
  = lucas_kanade_step linalg_det linalg_inv I1 I2 window_size.
Proof.
  intros Hsmall. unfold faster_lucas_kanade_step, FACTOR.
  by rewrite decide_True.
Qed.

Lemma elem_of_where_row (p : F -> bool) j0 (row : list F) k :
  k ∈ where_row p j0 row <->
  exists j x, k = j0 + j /\ row !! j = Some x /\ p x = true.
Proof.
  revert j0. induction row as [|y row IH]; intros j0; simpl.
  - rewrite elem_of_nil. split; [done|]. by intros (j & x & _ & ? & _).
  - rewrite elem_of_app, IH. split.
    + intros [Hk|(j & x & -> & Hj & Hx)].
      * destruct (p y) eqn:E; [|by apply elem_of_nil in Hk].
        apply list_elem_of_singleton in Hk as ->.
        exists 0, y. split; [lia|done].
      * exists (S j), x. split; [lia|done].
    + intros (j & x & -> & Hj & Hx). destruct j as [|j]; simpl in Hj.
      * injection Hj as ->. left. rewrite Hx.
        apply list_elem_of_singleton. lia.
      * right. exists j, x. split; [lia|done].
Qed.

Lemma elem_of_where_rows (p : F -> bool) i0 a i j :
  (i, j) ∈ where_rows p i0 a <->
  exists i' row x, i = i0 + i' /\ a !! i' = Some row /\
                   row !! j = Some x /\ p x = true.
Proof.
  revert i0. induction a as [|r a IH]; intros i0; simpl.
  - rewrite elem_of_nil. split; [done|]. by intros (i' & row & x & _ & ? & _).
  - rewrite elem_of_app, IH, list_elem_of_fmap. split.
    + intros [(k & [= -> ->] & Hk)|(i' & row & x & -> & Hi & Hj & Hx)].
      * apply elem_of_where_row in Hk as (j' & x & -> & Hj & Hx).
        exists 0, r, x. split; [lia|done].
      * exists (S i'), row, x. split; [lia|done].
    + intros (i' & row & x & -> & Hi & Hj & Hx).
      destruct i' as [|i']; simpl in Hi.
      * injection Hi as ->. left. exists j. split; [f_equal; lia|].
        apply elem_of_where_row. exists j, x. done.
      * right. exists i', row, x. split; [lia|done].
Qed.

(** [np.where] lists the in-range pixels that pass the test. *)
Lemma elem_of_np_where (p : F -> bool) a w i j :
  uniform w a ->
  (i, j) ∈ np_where p a <-> i < nrows a /\ j < w /\ p (at2 a i j) = true.
Proof.
  intros Ha. unfold np_where. rewrite elem_of_where_rows. split.
  - intros (i' & row & x & -> & Hi & Hj & Hx). simpl.
    pose proof (lookup_lt_Some _ _ _ Hi). pose proof (lookup_lt_Some _ _ _ Hj).
    unfold uniform in Ha. rewrite Forall_lookup in Ha.
    rewrite (Ha _ _ Hi) in *. unfold at2. rewrite Hi, Hj. done.
  - intros (Hi & Hj & Hx).
    destruct (lookup_lt_is_Some_2 a i Hi) as [row Hrow].
    unfold uniform in Ha. rewrite Forall_lookup in Ha.
    destruct (lookup_lt_is_Some_2 row j) as [x Hxj]; [by rewrite (Ha _ _ Hrow)|].
    unfold at2 in Hx. rewrite Hrow, Hxj in Hx.
    exists i, row, x. done.
Qed.

Lemma ncols_uniform w a : uniform w a -> 0 < nrows a -> ncols a = w.
Proof. destruct 1; simpl; [lia|done]. Qed.





End FasterSolver.




(** * The warper *)

Section Warper.
Context {F : Type} `{Scalar F}.
Abbreviation ndarray := (list (list F)).
Variable cv2_resize : ndarray -> nat -> nat -> ndarray.
Variable griddata : list (F * F) -> list F -> list (F * F) -> list F.
Implicit Types (a b image u v : ndarray) (l : list F).

Lemma lookup_chunks h w l i :
  i < h -> chunks h w l !! i = Some (take w (drop (i * w) l)).
Proof.
  revert l i. induction h as [|h IH]; intros l i Hi; [lia|].
  destruct i as [|i]; simpl; [done|].
  rewrite IH by lia. by rewrite drop_drop.
Qed.

Lemma length_chunks h w l : length (chunks h w l) = h.
Proof. revert l. induction h as [|h IH]; intros l; simpl; [done|]. by rewrite IH. Qed.

Lemma uniform_chunks h w l : length l = h * w -> uniform w (chunks h w l).
Proof.
  revert l. induction h as [|h IH]; intros l Hl; simpl; constructor.
  - rewrite length_take. lia.
  - apply IH. rewrite length_drop. lia.
Qed.

Lemma shape_chunks h w l :
  length l = h * w -> 0 < h -> shape (chunks h w l) = (h, w).
Proof.
  intros Hl Hh. unfold shape, nrows. rewrite length_chunks. f_equal.
  apply ncols_uniform; [by apply uniform_chunks|].
  unfold nrows. rewrite length_chunks. done.
Qed.

Lemma at2_chunks h w l i j :
  i < h -> j < w ->
  at2 (chunks h w l) i j
  = match l !! (i * w + j) with Some x => x | None => zero end.
Proof.
  intros Hi Hj. unfold at2. rewrite lookup_chunks by done.
  by rewrite lookup_take_lt, lookup_drop by done.
Qed.

Lemma lookup_flatten w a i j :
  uniform w a -> j < w ->
  flatten a !! (i * w + j) = a !! i ≫= (.!! j).
Proof.
  unfold flatten. intros Ha Hj. revert i.
  induction Ha as [|r a Hr _ IH]; intros i; simpl; [done|].
  destruct i as [|i]; simpl.
  - rewrite lookup_app_l by lia. done.
  - rewrite lookup_app_r by lia.
    replace (w + i * w + j - length r) with (i * w + j) by lia. apply IH.
Qed.

Lemma at2_flatten w a i j :
  uniform w a -> j < w ->
  match flatten a !! (i * w + j) with Some x => x | None => zero end
  = at2 a i j.
Proof.
  intros Ha Hj. rewrite (lookup_flatten w) by done. unfold at2.
  destruct (a !! i); done.
Qed.

Lemma chunks_flatten w a : uniform w a -> chunks (nrows a) w (flatten a) = a.
Proof.
  unfold flatten. induction 1 as [|r a Hr _ IH]; simpl; [done|].
  rewrite take_app_length' by done. rewrite drop_app_length' by done.
  by rewrite IH.
Qed.

Lemma length_flatten_tabulate h w (f : nat -> nat -> F) :
  length (flatten (tabulate h w f)) = h * w.
Proof.
  rewrite (length_flatten_uniform w) by apply uniform_tabulate.
  by rewrite length_tabulate.
Qed.

Lemma np_add1_same (x y : list F) :
  length x = length y ->
  exists s, np_add1 x y = Ok s /\ length s = length x.
Proof.
  intros Hxy. unfold np_add1, broadcast_dim. rewrite decide_True by done.
  rsimpl. eexists; split; [done|]. by rewrite length_fmap, length_seq.
Qed.

Lemma length_flatten_scale w a c :
  uniform w a -> length (flatten (scale a c)) = nrows a * w.
Proof.
  intros Ha. unfold scale.
  rewrite (length_flatten_uniform w); [by rewrite length_fmap|].
  unfold uniform. apply Forall_fmap. unfold uniform in Ha.
  eapply Forall_impl; [|exact Ha]. intros r Hr. simpl. by rewrite length_fmap.
Qed.

Lemma column_stack_ok (x y : list F) :
  length x = length y -> column_stack x y = Ok (zip x y).
Proof. intros. unfold column_stack. by rewrite decide_True. Qed.

Lemma interpolate_ok image u v :
  resize_contract cv2_resize -> griddata_contract griddata ->
  0 < ncols u -> 0 < nrows v ->
  exists samples,
    interpolate cv2_resize griddata image u v = Ok samples /\
    length samples = nrows image * ncols image.
Proof.
  intros Hres Hgrid Hu Hv. unfold interpolate, int_div. cbn [shape].
  rewrite !decide_False by lia. rsimpl.
  set (h := nrows image). set (w := ncols image).
  assert (length (meshgrid_x h w) = h * w) as Lx by apply length_flatten_tabulate.
  assert (length (meshgrid_y h w) = h * w) as Ly by apply length_flatten_tabulate.
  rewrite (column_stack_ok (meshgrid_x h w)) by congruence. rsimpl.
  destruct (Hres u w h) as [Hru Huu]. destruct (Hres v w h) as [Hrv Huv].
  destruct (np_add1_same (meshgrid_x h w)
              (flatten (scale (cv2_resize u w h)
                 (fdiv (of_Z (Z.of_nat w)) (of_Z (Z.of_nat (ncols u)))))))
    as (x_new & -> & Lxn).
  { rewrite (length_flatten_scale w) by done. congruence. }
  destruct (np_add1_same (meshgrid_y h w)
              (flatten (scale (cv2_resize v w h)
                 (fdiv (of_Z (Z.of_nat h)) (of_Z (Z.of_nat (nrows v)))))))
    as (y_new & -> & Lyn).
  { rewrite (length_flatten_scale w) by done. congruence. }
  rsimpl. rewrite column_stack_ok by congruence. rsimpl.
  eexists. split; [done|]. rewrite Hgrid, length_zip. lia.
Qed.

(** C7. For a rectangular image and displacement fields with at least one
    column ([u]) and one row ([v]), [warp_image] returns an array of the
    image's shape; with [samples] what [griddata] returned for the displaced
    grid, a pixel whose sample is NaN (a hole) holds the image's pixel at
    that place, and any other pixel holds its sample.  Assumed of the
    libraries: [cv2.resize] returns the size asked for, [griddata] one
    value per query point. *)
Theorem warp_image_fills_holes image u v :
  resize_contract cv2_resize -> griddata_contract griddata ->
  rect image -> 0 < ncols u -> 0 < nrows v ->
  let h := nrows image in
  let w := ncols image in
  exists samples image_warp,
    interpolate cv2_resize griddata image u v = Ok samples /\
    warp_image cv2_resize griddata image u v = Ok image_warp /\
    shape image_warp = shape image /\
    forall i j, i < h -> j < w ->
      exists g, samples !! (i * w + j) = Some g /\
        at2 image_warp i j = if isnan g then at2 image i j else g.
Proof.
  intros Hres Hgrid Himg Hu Hv h w.
  destruct (interpolate_ok image u v Hres Hgrid Hu Hv) as (samples & Hs & Ls).
  fold h w in Ls.
  assert (length (flatten image) = h * w) as Lf
    by (by apply length_flatten_uniform).
  exists samples. eexists. split; [done|].
  unfold warp_image. cbn [shape]. rewrite Hs. rsimpl.
  unfold fill_holes. rewrite decide_True by congruence. rsimpl.
  unfold reshape. rewrite decide_True by (rewrite length_zip_with; fold h w; lia).
  fold h w. split; [done|]. split.
  - destruct (decide (h = 0)) as [E|E].
    + rewrite E. simpl. unfold h in E. by destruct image.
    + apply shape_chunks; [rewrite length_zip_with; lia|lia].
  - intros i j Hi Hj.
    assert (i * w + j < h * w) as Hk by nia.
    destruct (lookup_lt_is_Some_2 samples (i * w + j)) as [g Hg]; [lia|].
    exists g. split; [done|].
    rewrite at2_chunks by done.
    rewrite lookup_zip_with, Hg. simpl.
    pose proof (at2_flatten w image i j Himg Hj) as Hat.
    destruct (flatten image !! (i * w + j)) as [x|] eqn:Ex.
    + simpl. rewrite <- Hat. done.
    + apply lookup_ge_None in Ex. lia.
Qed.

Lemma scale_zeros h w c : fmul zero c = zero -> scale (zeros h w) c = zeros h w.
Proof.
  intros Hc. unfold scale, zeros, tabulate.
  rewrite <- list_fmap_compose. apply list_fmap_ext; intros _ i _. simpl.
  rewrite <- list_fmap_compose. apply list_fmap_ext; intros _ j _. simpl. done.
Qed.

Lemma Forall_flatten (P : F -> Prop) a :
  Forall (Forall P) a -> Forall P (flatten a).
Proof.
  unfold flatten. induction 1 as [|r a Hr _ IH]; simpl; [done|].
  by apply Forall_app.
Qed.

Lemma Forall_flatten_tabulate (P : F -> Prop) h w (f : nat -> nat -> F) :
  (forall i j, i < h -> j < w -> P (f i j)) ->
  Forall P (flatten (tabulate h w f)).
Proof.
  intros Hf. apply Forall_flatten. unfold tabulate.
  apply Forall_fmap, Forall_seq. intros i Hi. simpl.
  apply Forall_fmap, Forall_seq. intros j Hj. simpl. apply Hf; lia.
Qed.

(** Adding an all-zero array, where adding zero changes nothing. *)
Lemma np_add1_zero (x zs : list F) :
  length x = length zs ->
  Forall (fun z => z = zero) zs ->
  Forall (fun e => fadd e zero = e) x ->
  np_add1 x zs = Ok x.
Proof.
  intros Hl Hz Hx. unfold np_add1, broadcast_dim.
  rewrite decide_True by done. rsimpl. f_equal.
  apply list_eq_same_length with (length x);
    [done|by rewrite length_fmap, length_seq|].
  intros k a b Hk Ha Hb.
  rewrite list_lookup_fmap, lookup_seq_lt in Ha by done. simpl in Ha.
  injection Ha as <-.
  assert ((if decide (length x = 1) then 0 else k) = k) as ->
    by (case_decide; lia).
  assert ((if decide (length zs = 1) then 0 else k) = k) as ->
    by (case_decide; lia).
  rewrite (nth_lookup_Some x k zero b Hb).
  destruct (lookup_lt_is_Some_2 zs k) as [z Hzk]; [lia|].
  rewrite (nth_lookup_Some zs k zero z Hzk).
  rewrite Forall_lookup in Hz. rewrite (Hz k z Hzk).
  rewrite Forall_lookup in Hx. by apply (Hx k).
Qed.

Lemma fill_holes_same l : fill_holes l l = Ok l.
Proof.
  unfold fill_holes. rewrite decide_True by done. f_equal.
  induction l as [|x l IH]; simpl; [done|]. rewrite IH. by destruct (isnan x).
Qed.

End Warper.

(** * Warping by zero displacement *)

Section ZeroDisplacement.
Context {F : Type} `{Scalar F}.
Abbreviation ndarray := (list (list F)).
Variable cv2_resize : ndarray -> nat -> nat -> ndarray.
Variable griddata : list (F * F) -> list F -> list (F * F) -> list F.
Implicit Types (a b image u v : ndarray) (l : list F).

(** With all-zero fields the points [griddata] is asked about are the grid
    points themselves. *)
Lemma interpolate_zero_displacement image hu wu hv wv :
  let h := nrows image in
  let w := ncols image in
  let points := zip (meshgrid_x h w) (meshgrid_y h w) in
  0 < hu -> 0 < wu -> 0 < hv ->
  cv2_resize (zeros hu wu) w h = zeros h w ->
  cv2_resize (zeros hv wv) w h = zeros h w ->
  fmul zero (fdiv (of_Z (Z.of_nat w)) (of_Z (Z.of_nat wu))) = zero ->
  fmul zero (fdiv (of_Z (Z.of_nat h)) (of_Z (Z.of_nat hv))) = zero ->
  (forall n, n < Nat.max h w -> fadd (of_Z (Z.of_nat n)) zero = of_Z (Z.of_nat n)) ->
  interpolate cv2_resize griddata image (zeros hu wu) (zeros hv wv)
  = Ok (griddata points (flatten image) points).
Proof.
  intros h w points Hhu Hwu Hhv Hru Hrv Hmu Hmv Hadd.
  unfold interpolate, int_div. cbn [shape]. fold h w.
  assert (ncols (zeros hu wu) = wu) as -> by (by apply ncols_tabulate).
  assert (nrows (zeros hv wv) = hv) as -> by apply nrows_tabulate.
  rewrite !decide_False by lia. rsimpl. rewrite Hru, Hrv.
  rewrite !scale_zeros by done.
  assert (length (meshgrid_x h w) = h * w) as Lx by apply length_flatten_tabulate.
  assert (length (meshgrid_y h w) = h * w) as Ly by apply length_flatten_tabulate.
  assert (length (flatten (zeros h w)) = h * w) as Lz
    by apply length_flatten_tabulate.
  assert (Forall (fun z => z = zero) (flatten (zeros h w))) as Hz
    by (by apply Forall_flatten_tabulate).
  rewrite column_stack_ok by congruence. rsimpl.
  rewrite (np_add1_zero (meshgrid_x h w)); [|congruence|done|].
  2:{ apply Forall_flatten_tabulate. intros i j Hi Hj. apply Hadd. lia. }
  rewrite (np_add1_zero (meshgrid_y h w)); [|congruence|done|].
  2:{ apply Forall_flatten_tabulate. intros i j Hi Hj. apply Hadd. lia. }
  rsimpl. rewrite column_stack_ok by congruence. rsimpl. done.
Qed.

(** C8. With all-zero displacement fields the points [griddata] is asked
    about are the grid points themselves, and [warp_image] returns an array
    of the image's shape that holds, at each pixel, the image's pixel when
    the sample [griddata] gives at that pixel's own site is NaN, and the
    sample otherwise: the output equals the image at every pixel whose
    sample is NaN or is the datum there, and only the pixels at which the
    interpolant does not reproduce its own datum can differ.  Assumed of the
    libraries and of the arithmetic: [griddata] returns one value per query
    point, resizing a zero field gives the zero field, [0 * c = 0] for the
    two rescaling factors and [n + 0 = n] for the grid coordinates. *)
Theorem warp_image_zero_displacement image hu wu hv wv :
  let h := nrows image in
  let w := ncols image in
  let points := zip (meshgrid_x h w) (meshgrid_y h w) in
  let samples := griddata points (flatten image) points in
  griddata_contract griddata ->
  rect image ->
  0 < hu -> 0 < wu -> 0 < hv ->
  cv2_resize (zeros hu wu) w h = zeros h w ->
  cv2_resize (zeros hv wv) w h = zeros h w ->
  fmul zero (fdiv (of_Z (Z.of_nat w)) (of_Z (Z.of_nat wu))) = zero ->
  fmul zero (fdiv (of_Z (Z.of_nat h)) (of_Z (Z.of_nat hv))) = zero ->
  (forall n, n < Nat.max h w -> fadd (of_Z (Z.of_nat n)) zero = of_Z (Z.of_nat n)) ->
  exists image_warp,
    warp_image cv2_resize griddata image (zeros hu wu) (zeros hv wv)
      = Ok image_warp /\
    shape image_warp = shape image /\
    forall i j, i < h -> j < w ->
      exists g, samples !! (i * w + j) = Some g /\
        at2 image_warp i j = (if isnan g then at2 image i j else g) /\
        (isnan g = true \/ g = at2 image i j ->
         at2 image_warp i j = at2 image i j).
Proof.
  intros h w points samples Hgrid Himg Hhu Hwu Hhv Hru Hrv Hmu Hmv Hadd.
  assert (length (flatten image) = h * w) as Lf
    by (by apply length_flatten_uniform).
  assert (length samples = h * w) as Ls.
  { unfold samples. rewrite Hgrid. unfold points.
    rewrite length_zip.
    pose proof (length_flatten_tabulate h w (fun _ j => of_Z (Z.of_nat j))) as Lx.
    pose proof (length_flatten_tabulate h w (fun i _ => of_Z (Z.of_nat i))) as Ly.
    unfold meshgrid_x, meshgrid_y. rewrite Lx, Ly. lia. }
  eexists. split; [|split].
  - unfold warp_image. cbn [shape].
    rewrite (interpolate_zero_displacement image hu wu hv wv) by done.
    fold h w points samples. rsimpl.
    unfold fill_holes. rewrite decide_True by congruence. rsimpl.
    unfold reshape.
    rewrite decide_True by (rewrite length_zip_with; lia). done.
  - destruct (decide (h = 0)) as [E|E].
    + rewrite E. simpl. unfold h in E. by destruct image.
    + apply shape_chunks; [rewrite length_zip_with; lia|lia].
  - intros i j Hi Hj.
    assert (i * w + j < h * w) as Hk by nia.
    destruct (lookup_lt_is_Some_2 samples (i * w + j)) as [g Hg]; [lia|].
    exists g. split; [done|].
    assert (at2 (chunks h w (zip_with (fun s x => if isnan s then x else s)
                               samples (flatten image))) i j
            = if isnan g then at2 image i j else g) as Hat.
    { rewrite at2_chunks by done.
      rewrite lookup_zip_with, Hg. simpl.
      pose proof (at2_flatten w image i j Himg Hj) as Hfl.
      destruct (flatten image !! (i * w + j)) as [x|] eqn:Ex.
      - simpl. rewrite <- Hfl. done.
      - apply lookup_ge_None in Ex. lia. }
    split; [exact Hat|].
    intros [Hnan|Hdat]; rewrite Hat.
    + by rewrite Hnan.
    + destruct (isnan g); [done|exact Hdat].
Qed.

End ZeroDisplacement.

(** * The pyramidal estimators *)

Section Flow.
Context {F : Type} `{Scalar F}.
Abbreviation ndarray := (list (list F)).
Variable linalg_det : ndarray -> F.
Variable linalg_inv : ndarray -> result ndarray.
Variable cornerHarris : ndarray -> ndarray.
Variable cv2_resize : ndarray -> nat -> nat -> ndarray.
Variable griddata : list (F * F) -> list F -> list (F * F) -> list F.
Implicit Types (a b u v du dv : ndarray).

Lemma bind_Ok {A B} (m : result A) (k : A -> result B) (y : B) :
  m ≫= k = Ok y -> exists x, m = Ok x /\ k x = Ok y.
Proof. destruct m as [x|e]; [eauto|done]. Qed.

Lemma shape_np_iadd a b c : np_iadd a b = Ok c -> shape c = shape a.
Proof.
  unfold np_iadd. case_decide; [|done]. intros [= <-].
  apply shape_tabulate_like.
Qed.

Lemma shape_scale a c : shape (scale a c) = shape a.
Proof.
  unfold scale, shape, nrows. rewrite length_fmap. f_equal.
  destruct a as [|r a]; simpl; [done|]. by rewrite length_fmap.
Qed.

(** [cv2.resize] to the shape of an array gives an array of that shape. *)
Lemma shape_resize_like a b c :
  resize_contract cv2_resize ->
  shape (scale (cv2_resize a (ncols b) (nrows b)) c) = shape b.
Proof.
  intros Hres. rewrite shape_scale.
  destruct (Hres a (ncols b) (nrows b)) as [Hr Hu].
  unfold shape. rewrite Hr. f_equal.
  destruct b as [|r b].
  - simpl in *. by destruct (cv2_resize a 0 0).
  - apply ncols_uniform; [done|]. rewrite Hr. simpl. lia.
Qed.

(** The iterations at one level keep the shapes of [u] and [v]. *)
Lemma lk_iterations_shape I1_level I2_level ws iters u v w0 u' v' w' :
  for_each (lk_iteration linalg_det linalg_inv cv2_resize griddata
              I1_level I2_level ws) iters (u, v, w0) = Ok (u', v', w') ->
  shape u' = shape u /\ shape v' = shape v.
Proof.
  intros Hloop.
  refine (for_each_invariant
            (fun st => shape st.1.1 = shape u /\ shape st.1.2 = shape v)
            _ _ _ (u, v, w0) (u', v', w') (conj eq_refl eq_refl) Hloop).
  intros it [[u1 v1] w1] [[u2 v2] w2] _ [Hu Hv] Hbody. simpl in *. unfold lk_iteration in Hbody.
  apply bind_Ok in Hbody as ([du dv] & _ & Hbody).
  apply bind_Ok in Hbody as (u3 & Hu3 & Hbody).
  apply bind_Ok in Hbody as (v3 & Hv3 & Hbody).
  apply bind_Ok in Hbody as (w3 & _ & [= <- <- <-]).
  rewrite (shape_np_iadd _ _ _ Hu3), (shape_np_iadd _ _ _ Hv3). done.
Qed.

Lemma faster_lk_iterations_shape pyramid_I1 I2_level ws level iters
    u v w0 u' v' w' :
  for_each (faster_lk_iteration linalg_det linalg_inv cornerHarris
              cv2_resize griddata pyramid_I1 I2_level ws level)
    iters (u, v, w0) = Ok (u', v', w') ->
  shape u' = shape u /\ shape v' = shape v.
Proof.
  intros Hloop.
  refine (for_each_invariant
            (fun st => shape st.1.1 = shape u /\ shape st.1.2 = shape v)
            _ _ _ (u, v, w0) (u', v', w') (conj eq_refl eq_refl) Hloop).
  intros it [[u1 v1] w1] [[u2 v2] w2] _ [Hu Hv] Hbody. simpl in *. unfold faster_lk_iteration in Hbody.
  apply bind_Ok in Hbody as (I1_level & _ & Hbody).
  apply bind_Ok in Hbody as ([du dv] & _ & Hbody).
  apply bind_Ok in Hbody as (u3 & Hu3 & Hbody).
  apply bind_Ok in Hbody as (v3 & Hv3 & Hbody).
  apply bind_Ok in Hbody as (w3 & _ & [= <- <- <-]).
  rewrite (shape_np_iadd _ _ _ Hu3), (shape_np_iadd _ _ _ Hv3). done.
Qed.

Lemma level_of_Ok (pyramid : list ndarray) level a :
  level_of pyramid level = Ok a -> pyramid !! level = Some a.
Proof. unfold level_of. destruct (pyramid !! level); [by intros [= ->]|done]. Qed.

(** Above the finest level, a level ends with [u] and [v] resized to the
    next finer level. *)
Lemma lk_level_shape_pos p1 p2 ws iters level st u' v' :
  resize_contract cv2_resize -> 0 < level ->
  lk_level linalg_det linalg_inv cv2_resize griddata p1 p2 ws iters level st
    = Ok (u', v') ->
  exists finer, p2 !! (level - 1) = Some finer /\
                shape u' = shape finer /\ shape v' = shape finer.
Proof.
  intros Hres Hl Hbody. destruct st as [u v]. unfold lk_level in Hbody.
  apply bind_Ok in Hbody as (I2_level & _ & Hbody).
  apply bind_Ok in Hbody as (I1_level & _ & Hbody).
  apply bind_Ok in Hbody as (I2_warp & _ & Hbody).
  apply bind_Ok in Hbody as ([[u1 v1] w1] & _ & Hbody).
  rewrite decide_True in Hbody by done.
  apply bind_Ok in Hbody as (finer & Hf%level_of_Ok & Hbody).
  cbn [shape] in Hbody. injection Hbody as <- <-.
  exists finer. split; [done|]. by rewrite !shape_resize_like.
Qed.

(** At the finest level, a level keeps the shapes of [u] and [v]. *)
Lemma lk_level_shape_zero p1 p2 ws iters u v u' v' :
  lk_level linalg_det linalg_inv cv2_resize griddata p1 p2 ws iters 0 (u, v)
    = Ok (u', v') ->
  shape u' = shape u /\ shape v' = shape v.
Proof.
  intros Hbody. unfold lk_level in Hbody.
  apply bind_Ok in Hbody as (I2_level & _ & Hbody).
  apply bind_Ok in Hbody as (I1_level & _ & Hbody).
  apply bind_Ok in Hbody as (I2_warp & _ & Hbody).
  apply bind_Ok in Hbody as ([[u1 v1] w1] & Hloop & Hbody).
  rewrite decide_False in Hbody by lia. injection Hbody as <- <-.
  eapply lk_iterations_shape. exact Hloop.
Qed.

Lemma faster_lk_level_shape_pos p1 p2 ws iters level st u' v' :
  resize_contract cv2_resize -> 0 < level ->
  faster_lk_level linalg_det linalg_inv cornerHarris cv2_resize griddata
    p1 p2 ws iters level st = Ok (u', v') ->
  exists finer, p2 !! (level - 1) = Some finer /\
                shape u' = shape finer /\ shape v' = shape finer.
Proof.
  intros Hres Hl Hbody. destruct st as [u v]. unfold faster_lk_level in Hbody.
  apply bind_Ok in Hbody as (I2_level & _ & Hbody).
  apply bind_Ok in Hbody as (I2_warp & _ & Hbody).
  apply bind_Ok in Hbody as ([[u1 v1] w1] & _ & Hbody).
  rewrite decide_True in Hbody by done.
  apply bind_Ok in Hbody as (finer & Hf%level_of_Ok & Hbody).
  cbn [shape] in Hbody.
  apply bind_Ok in Hbody as (U_FACTOR & _ & Hbody).
  apply bind_Ok in Hbody as (V_FACTOR & _ & Hbody).
  injection Hbody as <- <-.
  exists finer. split; [done|]. by rewrite !shape_resize_like.
Qed.

Lemma faster_lk_level_shape_zero p1 p2 ws iters u v u' v' :
  faster_lk_level linalg_det linalg_inv cornerHarris cv2_resize griddata
    p1 p2 ws iters 0 (u, v) = Ok (u', v') ->
  shape u' = shape u /\ shape v' = shape v.
Proof.
  intros Hbody. unfold faster_lk_level in Hbody.
  apply bind_Ok in Hbody as (I2_level & _ & Hbody).
  apply bind_Ok in Hbody as (I2_warp & _ & Hbody).
  apply bind_Ok in Hbody as ([[u1 v1] w1] & Hloop & Hbody).
  rewrite decide_False in Hbody by lia. injection Hbody as <- <-.
  eapply faster_lk_iterations_shape. exact Hloop.
Qed.

(** A loop from the coarsest level down to level 0 whose passes behave as
    above ends with [u] and [v] of the shape of level 0. *)
Lemma descent_shape (body : nat -> ndarray * ndarray -> result (ndarray * ndarray))
    (p2 : list ndarray) n st u v :
  (forall level s u' v', 0 < level -> body level s = Ok (u', v') ->
     exists finer, p2 !! (level - 1) = Some finer /\
                   shape u' = shape finer /\ shape v' = shape finer) ->
  (forall u0 v0 u' v', body 0 (u0, v0) = Ok (u', v') ->
     shape u' = shape u0 /\ shape v' = shape v0) ->
  for_each body (reverse (range 0 (S n + 1))) st = Ok (u, v) ->
  exists finest, p2 !! 0 = Some finest /\
                 shape u = shape finest /\ shape v = shape finest.
Proof.
  intros Hpos Hzero Hloop. unfold range in Hloop.
  replace (S n + 1 - 0) with (S (S n)) in Hloop by lia.
  cbn [seq] in Hloop. rewrite !reverse_cons, <- app_assoc in Hloop.
  rewrite for_each_app in Hloop.
  apply bind_Ok in Hloop as (s1 & _ & Hloop). cbn [app for_each] in Hloop.
  apply bind_Ok in Hloop as ([u1 v1] & H1 & Hloop).
  apply bind_Ok in Hloop as ([u0 v0] & H0 & [= <- <-]).
  destruct (Hpos 1 s1 u1 v1 ltac:(lia) H1) as (finest & Hf & Hu & Hv).
  destruct (Hzero u1 v1 u0 v0 H0) as [Hu0 Hv0].
  exists finest. split; [done|]. split; congruence.
Qed.

(** Whenever [lucas_kanade_optical_flow] returns, [u] and [v] have the shape
    of the finest pyramid level: [I2] as resized to the working resolution. *)
Lemma lucas_kanade_optical_flow_shape I1 I2 ws iters num_levels u v :
  resize_contract cv2_resize ->
  lucas_kanade_optical_flow linalg_det linalg_inv cv2_resize griddata
    I1 I2 ws iters num_levels = Ok (u, v) ->
  let I2' := resize_to cv2_resize I2 (IMAGE_SIZE (shape I1) num_levels) in
  0 < num_levels /\ shape u = shape I2' /\ shape v = shape I2'.
Proof.
  intros Hres Hflow I2'. unfold lucas_kanade_optical_flow in Hflow.
  fold I2' in Hflow.
  apply bind_Ok in Hflow as (p1 & _ & Hflow).
  apply bind_Ok in Hflow as (p2 & Hp2 & Hflow).
  apply bind_Ok in Hflow as (coarsest & _ & Hflow).
  destruct num_levels as [|n]; [by rewrite build_pyramid_nonpos in Hp2|].
  apply build_pyramid_Ok in Hp2 as [_ ->].
  destruct (descent_shape _ _ n _ u v
              (fun level s u' v' => lk_level_shape_pos _ _ _ _ level s u' v' Hres)
              (lk_level_shape_zero _ _ _ _) Hflow) as (finest & Hf & Hu & Hv).
  rewrite lookup_levels in Hf by lia. injection Hf as <-.
  split; [lia|done].
Qed.

Lemma faster_lucas_kanade_optical_flow_shape I1 I2 ws iters num_levels u v :
  resize_contract cv2_resize ->
  faster_lucas_kanade_optical_flow linalg_det linalg_inv cornerHarris
    cv2_resize griddata I1 I2 ws iters num_levels = Ok (u, v) ->
  let I2' := resize_to cv2_resize I2 (IMAGE_SIZE (shape I1) num_levels) in
  0 < num_levels /\ shape u = shape I2' /\ shape v = shape I2'.
Proof.
  intros Hres Hflow I2'. unfold faster_lucas_kanade_optical_flow in Hflow.
  fold I2' in Hflow.
  apply bind_Ok in Hflow as (p1 & _ & Hflow).
  apply bind_Ok in Hflow as (p2 & Hp2 & Hflow).
  apply bind_Ok in Hflow as (coarsest & _ & Hflow).
  destruct num_levels as [|n]; [by rewrite build_pyramid_nonpos in Hp2|].
  apply build_pyramid_Ok in Hp2 as [_ ->].
  destruct (descent_shape _ _ n _ u v
              (fun level s u' v' =>
                 faster_lk_level_shape_pos _ _ _ _ level s u' v' Hres)
              (faster_lk_level_shape_zero _ _ _ _) Hflow)
    as (finest & Hf & Hu & Hv).
  rewrite lookup_levels in Hf by lia. injection Hf as <-.
  split; [lia|done].
Qed.

Lemma ceil_div_mul_ge n d : 0 < d -> n <= ceil_div n d * d.
Proof.
  intros Hd. unfold ceil_div.
  pose proof (Nat.div_mod_eq (n + d - 1) d).
  pose proof (Nat.mod_upper_bound (n + d - 1) d). nia.
Qed.

(** The working resolution of an image: each dimension rounded up to a
    multiple of [2 ^ num_levels]. *)
Lemma shape_resize_to I (shp : nat * nat) num_levels :
  resize_contract cv2_resize ->
  shape I = shp -> 0 < shp.1 ->
  shape (resize_to cv2_resize I (IMAGE_SIZE shp num_levels))
  = (ceil_div shp.1 (2 ^ num_levels) * 2 ^ num_levels,
     ceil_div shp.2 (2 ^ num_levels) * 2 ^ num_levels).
Proof.
  intros Hres HI Hh. destruct shp as [h w]. simpl in Hh.
  assert (0 < 2 ^ num_levels) as Hp
    by (apply Nat.neq_0_lt_0, Nat.pow_nonzero; lia).
  pose proof (ceil_div_mul_ge h _ Hp) as Gh.
  pose proof (ceil_div_mul_ge w _ Hp) as Gw.
  unfold resize_to, IMAGE_SIZE. cbn [fst snd].
  set (H' := ceil_div h (2 ^ num_levels) * 2 ^ num_levels) in *.
  set (W' := ceil_div w (2 ^ num_levels) * 2 ^ num_levels) in *.
  case_decide as Hne.
  - destruct (Hres I W' H') as [Hr Hu]. unfold shape. rewrite Hr. f_equal.
    apply ncols_uniform; [done|]. rewrite Hr. lia.
  - rewrite HI in Hne. injection Hne as E1 E2.
    rewrite HI. f_equal; lia.
Qed.

(** With [num_levels = 0] the estimator raises the UnboundLocalError of
    [build_pyramid], whatever the images. *)
Theorem lucas_kanade_optical_flow_zero_levels I1 I2 ws iters :
  lucas_kanade_optical_flow linalg_det linalg_inv cv2_resize griddata
    I1 I2 ws iters 0 = Raise UnboundLocalError.
Proof.
  unfold lucas_kanade_optical_flow. by rewrite build_pyramid_zero_levels_raise.
Qed.

(** C6. Whenever [lucas_kanade_optical_flow] returns on two images of one
    shape [(h, w)], [u] and [v] have the working resolution, [h] and [w]
    rounded up to multiples of [2 ^ num_levels], which is not [(h, w)]
    unless both are such multiples already. *)
Theorem lucas_kanade_optical_flow_padded_shape I1 I2 ws iters num_levels u v :
  resize_contract cv2_resize ->
  shape I2 = shape I1 -> 0 < nrows I1 ->
  lucas_kanade_optical_flow linalg_det linalg_inv cv2_resize griddata
    I1 I2 ws iters num_levels = Ok (u, v) ->
  let padded :=
    (ceil_div (nrows I1) (2 ^ num_levels) * 2 ^ num_levels,
     ceil_div (ncols I1) (2 ^ num_levels) * 2 ^ num_levels) in
  shape u = padded /\ shape v = padded.
Proof.
  intros Hres Hshape Hh Hflow padded.
  destruct (lucas_kanade_optical_flow_shape _ _ _ _ _ _ _ Hres Hflow)
    as (_ & -> & ->).
  by rewrite (shape_resize_to I2 (shape I1) num_levels Hres Hshape Hh).
Qed.

End Flow.

(** * The system the dense solver solves *)

Section DenseSystem.
Context {F : Type} `{Scalar F}.
Abbreviation ndarray := (list (list F)).
Variable linalg_det : ndarray -> F.
Variable linalg_inv : ndarray -> result ndarray.
Implicit Types (a b A C U M : ndarray).

Lemma length_window_rows {X} ww i0 j0 (f : nat -> nat -> X) :
  length (window_rows ww i0 j0 f) = ww * ww.
Proof. unfold window_rows. by rewrite length_fmap, length_seq. Qed.

(** A window that lies in the array, flattened: its pixels row by row. *)
Lemma flatten_slice_window w a ww i0 j0 :
  uniform w a -> i0 + ww <= nrows a -> j0 + ww <= w ->
  flatten (slice a i0 (i0 + ww) j0 (j0 + ww)) = window_rows ww i0 j0 (at2 a).
Proof.
  intros Ha Hi Hj.
  assert (uniform ww (slice a i0 (i0 + ww) j0 (j0 + ww))) as Hs.
  { replace ww with (Nat.min (j0 + ww - j0) (w - j0)) at 1 by lia.
    by apply uniform_slice. }
  assert (nrows (slice a i0 (i0 + ww) j0 (j0 + ww)) = ww) as Hn
    by (rewrite nrows_slice; lia).
  apply list_eq_same_length with (ww * ww).
  - by rewrite length_window_rows.
  - rewrite (length_flatten_uniform ww) by done. unfold nrows in Hn. by rewrite Hn.
  - intros n x y Hlt Hx Hy.
    assert (0 < ww) as Hww by (destruct ww; [simpl in Hlt|]; lia).
    assert (n / ww < ww) as Hr by (apply Nat.Div0.div_lt_upper_bound; lia).
    assert (n mod ww < ww) as Hc by (apply Nat.mod_upper_bound; lia).
    unfold window_rows in Hy.
    rewrite list_lookup_fmap, lookup_seq_lt in Hy by done.
    injection Hy as <-.
    rewrite <- (at2_slice a i0 (i0 + ww) j0 (j0 + ww)) by lia.
    rewrite <- (at2_flatten ww) by done.
    replace (n / ww * ww + n mod ww) with n
      by (rewrite (Nat.div_mod_eq n ww) at 1; lia).
    by rewrite Hx.
Qed.

Lemma zip_with_fmap_same {X Y Z} (f : Y -> Y -> Z) (g h : X -> Y) (l : list X) :
  zip_with f (g <$> l) (h <$> l) = (fun x => f (g x) (h x)) <$> l.
Proof.
  induction l as [|x l IH]; [done|].
  rewrite !fmap_cons. cbn [zip_with]. by rewrite IH.
Qed.

Lemma ncols_window_rows ww i0 j0 m (f : nat -> nat -> list F) :
  0 < ww * ww -> (forall r c, length (f r c) = m) ->
  ncols (window_rows ww i0 j0 f) = m.
Proof.
  intros Hww Hf. unfold window_rows.
  destruct (ww * ww) as [|n]; [lia|]. cbn [seq fmap list_fmap ncols]. apply Hf.
Qed.

Lemma nrows_matmul a b c : matmul a b = Ok c -> nrows c = nrows a.
Proof.
  unfold matmul. case_decide; [|done]. intros [= <-]. apply nrows_tabulate.
Qed.

(** A product with two rows and one column, from its two entries. *)
Lemma matmul_column M b U x y :
  matmul M b = Ok U -> nrows M = 2 -> ncols b = 1 ->
  entry U 0 0 = Ok x -> entry U 1 0 = Ok y -> U = [[x]; [y]].
Proof.
  unfold matmul. case_decide; [|done]. intros [= <-] -> ->.
  cbn [tabulate seq fmap list_fmap entry lookup list_lookup].
  by intros [= <-] [= <-].
Qed.

(** At an interior pixel the matrix the loop stacks is [spec_A]. *)
Lemma window_A_spec Ix Iy h w ws i j :
  uniform w Ix -> uniform w Iy -> nrows Ix = h -> nrows Iy = h ->
  ws / 2 <= i < h - ws / 2 -> ws / 2 <= j < w - ws / 2 ->
  window_A Ix Iy (i - ws / 2) (i + 1 + ws / 2) (j - ws / 2) (j + 1 + ws / 2)
  = Ok (spec_A Ix Iy (ws / 2) i j).
Proof.
  intros HIx HIy Hx Hy Hi Hj. set (k := ws / 2) in *.
  unfold window_A, spec_A.
  replace (i + 1 + k) with (i - k + (2 * k + 1)) by lia.
  replace (j + 1 + k) with (j - k + (2 * k + 1)) by lia.
  rewrite !(flatten_slice_window w) by (done || lia).
  rewrite stack_last_ok by (by rewrite !length_window_rows).
  unfold window_rows. by rewrite zip_with_fmap_same.
Qed.

(** At an interior pixel the column the loop builds is [spec_b]. *)
Lemma window_b_spec I1 I2 h w ws i j :
  ws / 2 <= i < h - ws / 2 -> ws / 2 <= j < w - ws / 2 ->
  window_b (tabulate h w (fun i j => fsub (at2 I2 i j) (at2 I1 i j)))
    (i - ws / 2) (i + 1 + ws / 2) (j - ws / 2) (j + 1 + ws / 2)
  = spec_b I1 I2 (ws / 2) i j.
Proof.
  intros Hi Hj. set (k := ws / 2) in *.
  unfold window_b, spec_b, column.
  replace (i + 1 + k) with (i - k + (2 * k + 1)) by lia.
  replace (j + 1 + k) with (j - k + (2 * k + 1)) by lia.
  rewrite (flatten_slice_window w);
    [|apply uniform_tabulate|rewrite nrows_tabulate; lia|lia].
  unfold window_rows. rewrite <- !list_fmap_compose.
  apply list_fmap_ext. intros idx n Hn. unfold compose. cbv beta.
  apply lookup_seq in Hn as [-> Hn]. rewrite Nat.add_0_l.
  assert (idx / (2 * k + 1) < 2 * k + 1)
    by (apply Nat.Div0.div_lt_upper_bound; lia).
  assert (idx mod (2 * k + 1) < 2 * k + 1) by (apply Nat.mod_upper_bound; lia).
  rewrite at2_tabulate by lia. done.
Qed.

(** C3, as the code has it.  For images of one shape, [lucas_kanade_step]
    returns [(du, dv)] of that shape such that: a pixel within
    [window_size // 2] of a border has [du = dv = 0]; at an interior pixel,
    with [A] the matrix of the gradients of [I2] over the window (3x3
    kernels, symmetric boundary), [b] minus the difference [I2 - I1] over
    the window and [C = A.T @ A], the pixel has [du = dv = 0] when the test
    [det(C) > 1e-4] fails, and otherwise [inv(C) @ A.T @ b] is the column of
    [du] and [dv] at the pixel.  [A] and [b] are those of the
    specification, [spec_A] and [spec_b].  The only assumption is on
    LAPACK: [inv] returns a 2x2 matrix on a matrix that passed the
    determinant test. *)
Theorem lucas_kanade_step_pixels I1 I2 window_size :
  inv_after_det_test linalg_det linalg_inv ->
  shape I1 = shape I2 ->
  let h := nrows I1 in
  let w := ncols I1 in
  let k := window_size / 2 in
  let Ix := convolve2d I2 X_DERIVATIVE_FILTER in
  let Iy := convolve2d I2 Y_DERIVATIVE_FILTER in
  exists du dv,
    lucas_kanade_step linalg_det linalg_inv I1 I2 window_size = Ok (du, dv) /\
    shape du = shape I1 /\ shape dv = shape I1 /\
    forall i j, i < h -> j < w ->
      if decide (k <= i < h - k /\ k <= j < w - k) then
        let A := spec_A Ix Iy k i j in
        let b := spec_b I1 I2 k i j in
        exists C,
          matmul (transpose A) A = Ok C /\
          if fgt (linalg_det C) epsilon then
            exists Ci M,
              linalg_inv C = Ok Ci /\
              matmul Ci (transpose A) = Ok M /\
              matmul M b = Ok [[at2 du i j]; [at2 dv i j]]
          else at2 du i j = zero /\ at2 dv i j = zero
      else at2 du i j = zero /\ at2 dv i j = zero.
Proof.
  intros Hinv Hshape h w k Ix Iy.
  set (It := tabulate h w (fun i j => fsub (at2 I2 i j) (at2 I1 i j))).
  pose proof Hshape as [= Hr Hc].
  assert (nrows Ix = h /\ uniform w Ix) as [HrIx HuIx].
  { pose proof (shape_convolve2d I2 X_DERIVATIVE_FILTER) as [= E1 E2].
    split; [unfold Ix, h; congruence|].
    unfold Ix, w. rewrite Hc, <- E2. apply rect_convolve2d. }
  assert (nrows Iy = h /\ uniform w Iy) as [HrIy HuIy].
  { pose proof (shape_convolve2d I2 Y_DERIVATIVE_FILTER) as [= E1 E2].
    split; [unfold Iy, h; congruence|].
    unfold Iy, w. rewrite Hc, <- E2. apply rect_convolve2d. }
  assert (nrows It = h /\ uniform w It) as [HrIt HuIt].
  { split; [apply nrows_tabulate|apply uniform_tabulate]. }
  pose proof (lk_loops linalg_det linalg_inv Ix Iy It h w window_size Hinv
                HuIx HuIy HuIt HrIx HrIy HrIt) as Hloop.
  cbv zeta in Hloop. fold k in Hloop.
  eexists _, _. split; [|split; [|split]].
  - unfold lucas_kanade_step. cbn [shape].
    rewrite np_sub_same_shape by done. rsimpl.
    rewrite <- Hr, <- Hc. exact Hloop.
  - apply shape_paint_like.
  - apply shape_paint_like.
  - intros i j Hi Hj. rewrite !at2_paint by done.
    rewrite app_nil_r.
    case_decide as Hint.
    + rewrite !decide_True
        by (apply elem_of_reverse, elem_of_grid;
            rewrite !elem_of_range; fold k; lia).
      destruct (lk_flow_at_interior linalg_det linalg_inv Ix Iy It h w
                  window_size i j)
        as (A & C & HA & HC & Hsol); try done; try (fold k; lia).
      rewrite (window_A_spec Ix Iy h w window_size i j) in HA
        by (done || (fold k; lia)).
      assert (A = spec_A Ix Iy (window_size / 2) i j) as -> by congruence.
      clear HA. fold k in HC, Hsol |- *.
      cbv zeta. exists C. split; [done|].
      unfold written.
      destruct (fgt (linalg_det C) epsilon) eqn:Hdet.
      * destruct Hsol as (U & x & y & HU & Ex & Ey & ->). cbn [fst snd].
        unfold It, k in HU.
        rewrite (window_b_spec I1 I2 h w window_size i j) in HU
          by (fold k; lia).
        fold k in HU. unfold least_squares in HU.
        apply bind_Ok in HU as (Ci & HCi & HU).
        apply bind_Ok in HU as (M & HM & HU).
        exists Ci, M. split; [done|]. split; [done|]. rewrite HU. f_equal.
        assert (0 < (2 * k + 1) * (2 * k + 1)) as Hpos by nia.
        destruct (normal_matrix_ok (spec_A Ix Iy k i j)) as (C' & HC' & HsC).
        { unfold nrows, spec_A. by rewrite length_window_rows. }
        { unfold spec_A. by apply ncols_window_rows. }
        assert (C' = C) as -> by congruence.
        destruct (Hinv C HsC Hdet) as (Ci' & HCi' & [= Hr2 Hc2]).
        assert (Ci' = Ci) as -> by congruence.
        apply (matmul_column M (spec_b I1 I2 k i j)); [done| | |done|done].
        -- by rewrite (nrows_matmul _ _ _ HM).
        -- unfold spec_b. by apply ncols_window_rows.
      * rewrite Hsol. done.
    + rewrite !decide_False; [done| |].
      all: rewrite elem_of_reverse, elem_of_grid, !elem_of_range; fold k; lia.
Qed.

End DenseSystem.

(** * The stabilization drivers *)

Section DriverFacts.
Context {F : Type} `{Scalar F}.
Abbreviation ndarray := (list (list F)).
Variable linalg_det : ndarray -> F.
Variable linalg_inv : ndarray -> result ndarray.
Variable cornerHarris : ndarray -> ndarray.
Variable cv2_resize : ndarray -> nat -> nat -> ndarray.
Variable griddata : list (F * F) -> list F -> list (F * F) -> list F.
Variable BGR : Type.
Variable cvtColor : BGR -> ndarray.
Variable astype_uint8 : ndarray -> ndarray.
Implicit Types (a b u v du dv : ndarray).

Lemma nrows_slice_iadd a r0 r1 c0 c1 m :
  nrows (slice_iadd a r0 r1 c0 c1 m) = nrows a.
Proof. unfold slice_iadd, nrows. apply length_imap. Qed.

Lemma shape_slice_iadd a r0 r1 c0 c1 m :
  shape (slice_iadd a r0 r1 c0 c1 m) = shape a.
Proof.
  unfold shape. rewrite nrows_slice_iadd. f_equal.
  destruct a as [|r a]; [done|]. unfold slice_iadd. simpl.
  case_decide; [apply length_imap|done].
Qed.

Lemma at2_slice_iadd w a r0 r1 c0 c1 m i j :
  uniform w a -> i < nrows a -> j < w ->
  at2 (slice_iadd a r0 r1 c0 c1 m) i j
  = if decide (r0 <= i < r1 /\ c0 <= j < c1) then fadd (at2 a i j) m
    else at2 a i j.
Proof.
  intros Ha Hi Hj. unfold at2, slice_iadd.
  rewrite list_lookup_imap.
  destruct (lookup_lt_is_Some_2 a i Hi) as [row Hrow]. rewrite Hrow. simpl.
  unfold uniform in Ha. rewrite Forall_lookup in Ha.
  destruct (lookup_lt_is_Some_2 row j) as [x Hx]; [by rewrite (Ha _ _ Hrow)|].
  destruct (decide (r0 <= i < r1)) as [Hr|Hr].
  - rewrite list_lookup_imap, Hx. simpl.
    destruct (decide (c0 <= j < c1)) as [Hc|Hc].
    + by rewrite decide_True.
    + rewrite decide_False; [done|lia].
  - rewrite Hx, decide_False; [done|lia].
Qed.

Lemma uniform_slice_iadd w a r0 r1 c0 c1 m :
  uniform w a -> uniform w (slice_iadd a r0 r1 c0 c1 m).
Proof.
  intros Ha. unfold uniform, slice_iadd in *. rewrite Forall_lookup in Ha |- *.
  intros i r Hr. rewrite list_lookup_imap in Hr.
  destruct (a !! i) as [row|] eqn:E; [|done]. simpl in Hr.
  injection Hr as <-. case_decide; [rewrite length_imap|]; by eapply Ha.
Qed.

(** [cv2.resize] to one size gives one shape, whatever the input. *)
Lemma shape_resize_fixed a b width height :
  resize_contract cv2_resize ->
  shape (cv2_resize a width height) = shape (cv2_resize b width height).
Proof.
  intros Hres.
  destruct (Hres a width height) as [Hra Hua].
  destruct (Hres b width height) as [Hrb Hub].
  unfold shape. rewrite Hra, Hrb. f_equal.
  destruct height as [|height].
  - destruct (cv2_resize a width 0), (cv2_resize b width 0); done.
  - rewrite (ncols_uniform width (cv2_resize a _ _)) by (done || lia).
    rewrite (ncols_uniform width (cv2_resize b _ _)) by (done || lia). done.
Qed.

Lemma ceil_div_multiple q d : 0 < d -> ceil_div (q * d) d = q.
Proof.
  intros Hd. unfold ceil_div.
  replace (q * d + d - 1) with (d - 1 + q * d) by lia.
  rewrite Nat.div_add by lia. rewrite Nat.div_small by lia. done.
Qed.

(** A frame at the working resolution is already at the working resolution
    the estimator computes for it. *)
Lemma resize_to_working a b (shp : nat * nat) num_levels :
  resize_contract cv2_resize ->
  let size := IMAGE_SIZE shp num_levels in
  let frame := cv2_resize a size.1 size.2 in
  shape (resize_to cv2_resize (cv2_resize b size.1 size.2)
           (IMAGE_SIZE (shape frame) num_levels))
  = shape frame.
Proof.
  intros Hres size frame.
  assert (0 < 2 ^ num_levels) as Hp
    by (apply Nat.neq_0_lt_0, Nat.pow_nonzero; lia).
  assert (shape (cv2_resize b size.1 size.2) = shape frame) as Hb
    by (by apply shape_resize_fixed).
  destruct (Hres a size.1 size.2) as [Hr Hu]. fold frame in Hr, Hu.
  unfold resize_to. case_decide as Hne; [|done].
  destruct (decide (size.2 = 0)) as [E|E].
  - exfalso. apply Hne. rewrite Hb.
    assert (frame = []) as Hnil
      by (apply nil_length_inv; unfold nrows in Hr; lia).
    rewrite Hnil. unfold IMAGE_SIZE. cbn [shape nrows ncols length fst snd].
    pose proof (ceil_div_multiple 0 (2 ^ num_levels) Hp) as E0.
    simpl in E0. rewrite E0. done.
  - assert (ncols frame = size.1) as Hc by (apply ncols_uniform; [done|lia]).
    assert (IMAGE_SIZE (shape frame) num_levels = size) as ->.
    { unfold IMAGE_SIZE. cbn [shape fst snd]. rewrite Hr, Hc.
      unfold size, IMAGE_SIZE. cbn [fst snd].
      rewrite !ceil_div_multiple by done. done. }
    by apply shape_resize_fixed.
Qed.

Lemma dense_returns_working_shape :
  resize_contract cv2_resize ->
  returns_working_shape cv2_resize
    (lucas_kanade_optical_flow linalg_det linalg_inv cv2_resize griddata).
Proof.
  intros Hres I1 I2 ws iters num_levels du dv Hflow.
  by destruct (lucas_kanade_optical_flow_shape _ _ _ _ _ _ _ _ _ _ _ Hres Hflow)
    as (_ & ? & ?).
Qed.

Lemma faster_returns_working_shape :
  resize_contract cv2_resize ->
  returns_working_shape cv2_resize
    (faster_lucas_kanade_optical_flow linalg_det linalg_inv cornerHarris
       cv2_resize griddata).
Proof.
  intros Hres I1 I2 ws iters num_levels du dv Hflow.
  by destruct (faster_lucas_kanade_optical_flow_shape
                 _ _ _ _ _ _ _ _ _ _ _ _ Hres Hflow) as (_ & ? & ?).
Qed.

Section Loop.
Variable flow : ndarray -> ndarray -> nat -> nat -> nat ->
                result (ndarray * ndarray).
Variable first : BGR.
Variables (width height window_size max_iter num_levels : nat).

Let size := IMAGE_SIZE (shape (cvtColor first)) num_levels.
Let S := shape (cv2_resize (cvtColor first) size.1 size.2).
Let step := driver_frame cv2_resize griddata BGR cvtColor astype_uint8 flow
              size width height window_size max_iter num_levels.

Lemma driver_init_inv :
  driver_inv S (driver_init cv2_resize BGR cvtColor first num_levels).
Proof using Type.
  unfold driver_inv, driver_init. cbn [st_u st_v prev_frame]. fold size.
  split; [apply shape_tabulate_like|]. split; [apply shape_tabulate_like|].
  split; [done|]. unfold S. cbn [shape snd].
  split; apply uniform_tabulate.
Qed.

(** One frame: the flow has the shape of [u] and [v], and the state after the
    frame is the accumulation of its means. *)
Lemma driver_frame_inv frame st st' :
  resize_contract cv2_resize -> returns_working_shape cv2_resize flow ->
  driver_inv S st -> step frame st = Ok st' ->
  exists du dv,
    flow (prev_frame st) (cv2_resize (cvtColor frame) size.1 size.2)
      window_size max_iter num_levels = Ok (du, dv) /\
    shape du = S /\ shape dv = S /\
    (st_u st', st_v st') = accumulate window_size (st_u st) (st_v st) du dv /\
    driver_inv S st'.
Proof using Type.
  intros Hres Hflow (Hu & Hv & Hp & Uu & Uv) Hstep.
  unfold step, driver_frame in Hstep.
  apply bind_Ok in Hstep as ([du dv] & Hf & Hstep).
  destruct (accumulate window_size (st_u st) (st_v st) du dv) as [u v] eqn:Ea.
  apply bind_Ok in Hstep as (warp_frame & _ & [= <-]).
  cbn [st_u st_v prev_frame].
  destruct (Hflow _ _ _ _ _ _ _ Hf) as [Hdu Hdv].
  assert (shape (resize_to cv2_resize
                   (cv2_resize (cvtColor frame) size.1 size.2)
                   (IMAGE_SIZE (shape (prev_frame st)) num_levels)) = S) as HS.
  { rewrite Hp. unfold S, size. by apply resize_to_working. }
  rewrite HS in Hdu, Hdv.
  exists du, dv. split; [done|]. split; [done|]. split; [done|]. split; [done|].
  unfold accumulate in Ea. injection Ea as <- <-.
  unfold driver_inv. cbn [st_u st_v prev_frame].
  rewrite !shape_slice_iadd.
  split; [done|]. split; [done|].
  split; [unfold S; by apply shape_resize_fixed|].
  split; by apply uniform_slice_iadd.
Qed.

Lemma driver_reach_inv frames st :
  resize_contract cv2_resize -> returns_working_shape cv2_resize flow ->
  for_each step frames
    (driver_init cv2_resize BGR cvtColor first num_levels) = Ok st ->
  driver_inv S st.
Proof using Type.
  intros Hres Hflow Hrun.
  refine (for_each_invariant (driver_inv S) step frames _ _ _
            driver_init_inv Hrun).
  intros frame s s' _ Hs Hstep.
  by destruct (driver_frame_inv frame s s' Hres Hflow Hs Hstep)
    as (du & dv & _ & _ & _ & _ & ?).
Qed.

End Loop.

(** C9. In either driver ([video_stabilization] with one or the other
    estimator for [flow]; [init] is its state before the loop and [step] its
    loop body), take any state the frame loop has reached and any next frame
    on which the pass succeeds, and let [(du, dv)] be the flow the estimator
    returned for that frame.  The pass adds the mean of the
    interior of [du] to the entries of [u] in the interior region (rows and
    columns [window_size // 2] away from every side) and leaves every other
    entry of [u] as it was; likewise [dv] and [v].  The shapes of [u] and
    [v] are those they had before the first frame.  Assumed of OpenCV:
    [cv2.resize] returns the size asked for. *)
Theorem stabilization_accumulates_in_interior
    flow first frames frame width height window_size max_iter num_levels st st' :
  let size := IMAGE_SIZE (shape (cvtColor first)) num_levels in
  let init := driver_init cv2_resize BGR cvtColor first num_levels in
  let step := driver_frame cv2_resize griddata BGR cvtColor astype_uint8 flow
                size width height window_size max_iter num_levels in
  let k := window_size / 2 in
  let h := nrows (st_u st) in
  let w := ncols (st_u st) in
  resize_contract cv2_resize ->
  flow = lucas_kanade_optical_flow linalg_det linalg_inv cv2_resize griddata \/
  flow = faster_lucas_kanade_optical_flow linalg_det linalg_inv cornerHarris
           cv2_resize griddata ->
  for_each step frames init = Ok st ->
  step frame st = Ok st' ->
  shape (st_u st) = shape (st_u init) /\ shape (st_v st) = shape (st_v init) /\
  shape (st_u st') = shape (st_u init) /\ shape (st_v st') = shape (st_v init) /\
  exists du dv,
    flow (prev_frame st) (cv2_resize (cvtColor frame) size.1 size.2)
      window_size max_iter num_levels = Ok (du, dv) /\
    forall i j, i < h -> j < w ->
      at2 (st_u st') i j
      = (if decide (k <= i < h - k /\ k <= j < w - k)
         then fadd (at2 (st_u st) i j)
                   (np_mean (slice du k (h - k) k (w - k)))
         else at2 (st_u st) i j) /\
      at2 (st_v st') i j
      = (if decide (k <= i < h - k /\ k <= j < w - k)
         then fadd (at2 (st_v st) i j)
                   (np_mean (slice dv k (h - k) k (w - k)))
         else at2 (st_v st) i j).
Proof.
  intros size init step k h w Hres Hflow Hrun Hstep.
  assert (returns_working_shape cv2_resize flow) as Hws.
  { destruct Hflow as [-> | ->];
      [by apply dense_returns_working_shape
      |by apply faster_returns_working_shape]. }
  set (S := shape (cv2_resize (cvtColor first) size.1 size.2)).
  pose proof (driver_init_inv first num_levels) as (I1 & I2 & _).
  pose proof (driver_reach_inv flow first width height window_size max_iter
                num_levels frames st Hres Hws Hrun) as Hinv.
  destruct (driver_frame_inv flow first width height window_size max_iter
              num_levels frame st st' Hres Hws Hinv Hstep)
    as (du & dv & Hf & Hdu & Hdv & Hacc & (J1 & J2 & _)).
  destruct Hinv as (Hu & Hv & _ & Uu & Uv).
  fold size S in I1, I2, Hu, Hv, Uu, Uv, Hdu, Hdv, J1, J2. fold init in I1, I2.
  split; [congruence|]. split; [congruence|].
  split; [congruence|]. split; [congruence|].
  exists du, dv. split; [done|].
  assert (S = (h, w)) as HS by (by rewrite <- Hu).
  assert (shape (st_v st) = (h, w)) as [= Hvr Hvc] by congruence.
  assert (shape du = (h, w)) as [= Hdur Hduc] by congruence.
  assert (shape dv = (h, w)) as [= Hdvr Hdvc] by congruence.
  rewrite HS in Uu, Uv. cbn [snd] in Uu, Uv.
  unfold accumulate in Hacc. injection Hacc as -> ->.
  rewrite Hdur, Hduc, Hdvr, Hdvc. fold k.
  intros i j Hi Hj. split.
  - by apply (at2_slice_iadd w).
  - apply (at2_slice_iadd w); [done|lia|done].
Qed.

End DriverFacts.

Lemma resize_nearest_contract {F : Type} `{Scalar F} :
  resize_contract (F:=F) resize_nearest.
Proof.
  intros a width height. unfold resize_nearest.
  split; [apply nrows_tabulate|apply uniform_tabulate].
Qed.

Lemma griddata_sites_contract {F : Type} `{Scalar F} :
  griddata_contract (F:=F) griddata_sites.
Proof. intros points values xi. unfold griddata_sites. apply length_fmap. Qed.

Example warp_image_field3 :
  interpolate resize_nearest griddata_sites image3 field3 (zeros 3 3)
  = Ok [10; 20; nan; 40; 60; 60; 70; 80; 90]%float /\
  warp_image resize_nearest griddata_sites image3 field3 (zeros 3 3)
  = Ok (image_of [[10; 20; 30]; [40; 60; 60]; [70; 80; 90]]%Z).
Proof. split; vm_compute; reflexivity. Qed.

Lemma warp_image_fills_holes_witness :
  resize_contract (F:=float) resize_nearest /\
  griddata_contract (F:=float) griddata_sites /\
  rect image3 /\ 0 < ncols field3 /\ 0 < nrows (zeros (F:=float) 3 3) /\
  exists samples image_warp,
    interpolate resize_nearest griddata_sites image3 field3 (zeros 3 3)
      = Ok samples /\
    warp_image resize_nearest griddata_sites image3 field3 (zeros 3 3)
      = Ok image_warp /\
    shape image_warp = shape image3.
Proof.
  assert (rect image3) as Hr by (repeat constructor).
  assert (0 < ncols field3) as Hu by (simpl; lia).
  assert (0 < nrows (zeros (F:=float) 3 3)) as Hv by (simpl; lia).
  split; [apply resize_nearest_contract|].
  split; [apply griddata_sites_contract|].
  do 3 (split; [done|]).
  destruct (warp_image_fills_holes resize_nearest griddata_sites
              image3 field3 (zeros 3 3)
              resize_nearest_contract griddata_sites_contract Hr Hu Hv)
    as (samples & image_warp & Hs & Hw & Hshape & _).
  exists samples, image_warp. auto.
Defined.

Lemma lucas_kanade_step_pixels_witness :
  inv_after_det_test (F:=float) det2 inv2 /\
  shape frame_a = shape frame_b /\
  exists du dv,
    lucas_kanade_step det2 inv2 frame_a frame_b 3 = Ok (du, dv) /\
    shape du = shape frame_a /\ shape dv = shape frame_a.
Proof.
  split; [apply inv2_after_det_test|]. split; [reflexivity|].
  destruct (lucas_kanade_step_pixels det2 inv2 frame_a frame_b 3
              inv2_after_det_test eq_refl) as (du & dv & Hstep & Hu & Hv & _).
  exists du, dv. auto.
Defined.

(** C3 as stated fails where a determinant is not a number.  On the 5x5
    frames, the second with a NaN at [(2, 2)], and [window_size = 3], the
    normal matrix of the interior pixel [(2, 2)] has a NaN determinant:
    [det(C) <= 1e-4] does not hold, so the claim counts the pixel among
    those that carry the solution; [det(C) > 1e-4] does not hold either, and
    the code leaves [du = dv = 0] there. *)
Lemma lucas_kanade_step_nan_determinant :
  exists C du dv,
    shape frame_a = shape frame_nan /\
    matmul
      (transpose (spec_A (convolve2d frame_nan X_DERIVATIVE_FILTER)
                         (convolve2d frame_nan Y_DERIVATIVE_FILTER) 1 2 2))
      (spec_A (convolve2d frame_nan X_DERIVATIVE_FILTER)
              (convolve2d frame_nan Y_DERIVATIVE_FILTER) 1 2 2) = Ok C /\
    PrimFloat.is_nan (det2 C) = true /\
    PrimFloat.leb (det2 C) epsilon = false /\
    fgt (det2 C) epsilon = false /\
    lucas_kanade_step det2 inv2 frame_a frame_nan 3 = Ok (du, dv) /\
    at2 du 2 2 = 0%float /\ at2 dv 2 2 = 0%float.
Proof.
  do 3 eexists.
  split; [reflexivity|].
  split; [vm_compute; reflexivity|].
  split; [vm_compute; reflexivity|].
  split; [vm_compute; reflexivity|].
  split; [vm_compute; reflexivity|].
  split; [vm_compute; reflexivity|].
  split; vm_compute; reflexivity.
Qed.

Lemma warp_image_zero_displacement_witness :
  griddata_contract (F:=float) griddata_sites /\ rect image3 /\
  exists image_warp,
    warp_image resize_nearest griddata_sites image3
      (zeros (F:=float) 2 2) (zeros (F:=float) 2 2) = Ok image_warp /\
    shape image_warp = shape image3 /\
    at2 image_warp 1 1 = at2 image3 1 1.
Proof.
  assert (rect image3) as Hr by (repeat constructor).
  split; [apply griddata_sites_contract|]. split; [exact Hr|].
  destruct (warp_image_zero_displacement resize_nearest griddata_sites
              image3 2 2 2 2 griddata_sites_contract Hr)
    as (image_warp & Hw & Hs & Hpix);
    try (simpl; lia); try (vm_compute; reflexivity).
  { intros n Hn. simpl in Hn.
    do 3 (destruct n as [|n]; [vm_compute; reflexivity|]). lia. }
  exists image_warp. split; [exact Hw|]. split; [exact Hs|].
  destruct (Hpix 1 1) as (g & Hg & _ & Himp); [simpl; lia|simpl; lia|].
  apply Himp. right. vm_compute in Hg. injection Hg as <-.
  vm_compute. reflexivity.
Defined.

(** On two 5x5 frames with one pyramid level above the input, the flow
    returned is 6x6. *)
Lemma lucas_kanade_optical_flow_5x5 :
  resize_contract (F:=float) resize_nearest /\
  shape frame_b = shape frame_a /\ 0 < nrows frame_a /\
  shape frame_a = (5, 5) /\
  exists u v,
    lucas_kanade_optical_flow det2 inv2 resize_nearest griddata_sites
      frame_a frame_b 3 1 1 = Ok (u, v) /\
    shape u = (6, 6) /\ shape v = (6, 6).
Proof.
  split; [apply resize_nearest_contract|].
  split; [reflexivity|]. split; [simpl; lia|]. split; [reflexivity|].
  destruct (lucas_kanade_optical_flow det2 inv2 resize_nearest griddata_sites
              frame_a frame_b 3 1 1) as [[u v]|e] eqn:E.
  - exists u, v. split; [done|].
    apply (lucas_kanade_optical_flow_padded_shape det2 inv2 resize_nearest
             griddata_sites frame_a frame_b 3 1 1 u v
             resize_nearest_contract eq_refl); [simpl; lia|done].
  - vm_compute in E. discriminate E.
Defined.

(** A two-frame capture of grey 5x5 frames: the first pass of the dense
    driver's loop. *)
Lemma stabilization_accumulates_in_interior_witness :
  let flow := lucas_kanade_optical_flow det2 inv2 resize_nearest griddata_sites in
  let init := driver_init resize_nearest (list (list float)) id frame_a 1 in
  resize_contract (F:=float) resize_nearest /\
  for_each (driver_frame resize_nearest griddata_sites (list (list float)) id id
              flow (IMAGE_SIZE (shape frame_a) 1) 5 5 3 1 1) [] init = Ok init /\
  exists st',
    driver_frame resize_nearest griddata_sites (list (list float)) id id
      flow (IMAGE_SIZE (shape frame_a) 1) 5 5 3 1 1 frame_b init = Ok st' /\
    shape (st_u st') = shape (st_u init) /\
    shape (st_v st') = shape (st_v init).
Proof.
  intros flow init.
  split; [apply resize_nearest_contract|]. split; [reflexivity|].
  destruct (driver_frame resize_nearest griddata_sites (list (list float)) id id
              flow (IMAGE_SIZE (shape frame_a) 1) 5 5 3 1 1 frame_b init)
    as [st'|e] eqn:E.
  - exists st'. split; [done|].
    destruct (stabilization_accumulates_in_interior det2 inv2 harris
                resize_nearest griddata_sites (list (list float)) id id
                flow frame_a [] frame_b 5 5 3 1 1 init st'
                resize_nearest_contract (or_introl eq_refl) eq_refl E)
      as (_ & _ & Hu & Hv & _).
    split; [exact Hu|exact Hv].
  - vm_compute in E. discriminate E.
Defined.

Lemma faster_step_delegates_witness :
  Nat.min (nrows frame_a) (ncols frame_a) < 4 * 3 /\
  faster_lucas_kanade_step det2 inv2 harris frame_a frame_b 3
  = lucas_kanade_step det2 inv2 frame_a frame_b 3.
Proof.
  split; [simpl; lia|].
  apply (faster_step_delegates det2 inv2 harris frame_a frame_b 3).
  simpl; lia.
Defined.

(** * The shapes of the pyramid and the working resolution *)

Section PyramidShapes.
Context {F : Type} `{Scalar F}.
Abbreviation ndarray := (list (list F)).
Implicit Types (a : ndarray).

(** Level [k] of a pyramid over an image whose dimensions are multiples of
    [2 ^ n]: the dimensions divided by [2 ^ k], with no rounding. *)
Lemma shape_level_working a n k p q :
  k <= n -> shape a = (p * 2 ^ n, q * 2 ^ n) ->
  shape (Nat.iter k pyramid_down a) = (p * 2 ^ (n - k), q * 2 ^ (n - k)).
Proof.
  intros Hk [= Hr Hc]. rewrite shape_iter_pyramid_down, Hr, Hc.
  assert (2 ^ n = 2 ^ (n - k) * 2 ^ k) as ->
    by (rewrite <- Nat.pow_add_r; f_equal; lia).
  rewrite !Nat.mul_assoc.
  by rewrite !ceil_div_multiple by apply pow2_pos.
Qed.


(** With [num_levels >= 1] and an image that has not one row and two
    columns or more, level [k] of the pyramid [build_pyramid] returns has
    [ceil(h / 2^k)] rows and [ceil(w / 2^k)] columns, [(h, w)] being the
    shape of the image. *)
Theorem build_pyramid_level_shapes a (num_levels : Z) :
  (0 < num_levels)%Z -> nrows a <> 1 \/ ncols a <= 1 ->
  exists pyramid,
    build_pyramid a num_levels = Ok pyramid /\
    forall k, k <= Z.to_nat num_levels ->
      exists level, pyramid !! k = Some level /\
        shape level = (ceil_div (nrows a) (2 ^ k), ceil_div (ncols a) (2 ^ k)).
Proof.
  intros Hn Ha. exists (levels a (Z.to_nat num_levels)).
  split; [by apply build_pyramid_pos|].
  intros k Hk. eexists. split; [by apply lookup_levels|].
  apply shape_iter_pyramid_down.
Qed.


Variable cv2_resize : ndarray -> nat -> nat -> ndarray.

(** The guard [I.shape != IMAGE_SIZE] compares [(rows, columns)] with
    [(width, height)]: the image is passed on as it is exactly when it is
    square with a side that is a multiple of [2 ^ num_levels]; any other
    image goes through [cv2.resize], one that has the working resolution
    already included. *)
Theorem resize_to_skipped_iff_square I num_levels :
  let size := IMAGE_SIZE (shape I) num_levels in
  (nrows I = ncols I /\ Nat.divide (2 ^ num_levels) (nrows I) ->
   resize_to cv2_resize I size = I) /\
  (~ (nrows I = ncols I /\ Nat.divide (2 ^ num_levels) (nrows I)) ->
   resize_to cv2_resize I size = cv2_resize I size.1 size.2).
Proof.
  intros size. unfold resize_to.
  pose proof (pow2_pos num_levels) as Hp.
  pose proof (ceil_div_mul_ge (nrows I) _ Hp) as Gh.
  pose proof (ceil_div_mul_ge (ncols I) _ Hp) as Gw.
  split.
  - intros [Hsq [q Hq]]. rewrite decide_False; [done|].
    intros Hne. apply Hne. unfold size, IMAGE_SIZE, shape. cbn [fst snd].
    rewrite <- Hsq, Hq, ceil_div_multiple by done. done.
  - intros Hno. rewrite decide_True; [done|].
    intros E. apply Hno. unfold size, IMAGE_SIZE, shape in E. cbn [fst snd] in E.
    injection E as E1 E2.
    assert (nrows I = ncols I) as Hsq by lia.
    split; [done|]. eexists. exact E1.
Qed.

End PyramidShapes.

(** * What the solvers and the warper do at their edges *)

Section SolverEdges.
Context {F : Type} `{Scalar F}.
Abbreviation ndarray := (list (list F)).
Variable linalg_det : ndarray -> F.
Variable linalg_inv : ndarray -> result ndarray.
Variable cornerHarris : ndarray -> ndarray.
Implicit Types (a b u v du dv A C U : ndarray).

Lemma shape_set2 a i j x a' : set2 a i j x = Ok a' -> shape a' = shape a.
Proof.
  intros Hs. unfold shape.
  by rewrite (nrows_set2 _ _ _ _ _ Hs), (ncols_set2 _ _ _ _ _ Hs).
Qed.

(** A pass of the dense loop keeps the shapes of [du] and [dv]. *)
Lemma lk_pixel_shape Ix Iy It ws i j du dv du' dv' :
  lk_pixel linalg_det linalg_inv Ix Iy It ws i j (du, dv) = Ok (du', dv') ->
  shape du' = shape du /\ shape dv' = shape dv.
Proof.
  unfold lk_pixel. intros Hb.
  apply bind_Ok in Hb as (A & _ & Hb).
  apply bind_Ok in Hb as (C & _ & Hb).
  destruct (fgt (linalg_det C) epsilon); [|by injection Hb as <- <-].
  apply bind_Ok in Hb as (U & _ & Hb).
  apply bind_Ok in Hb as (x & _ & Hb).
  apply bind_Ok in Hb as (du1 & Hdu & Hb).
  apply bind_Ok in Hb as (y & _ & Hb).
  apply bind_Ok in Hb as (dv1 & Hdv & [= <- <-]).
  split; by eapply shape_set2.
Qed.

(** A pass of the corner loop keeps the shapes of [du] and [dv], and has
    computed a solution. *)
Lemma faster_pixel_Ok I1 I2 ws i j du dv du' dv' :
  faster_pixel linalg_inv I1 I2 ws (i, j) (du, dv) = Ok (du', dv') ->
  shape du' = shape du /\ shape dv' = shape dv /\
  exists xy, faster_flow_at linalg_inv I1 I2 ws i j = Ok (Some xy).
Proof.
  unfold faster_pixel, faster_flow_at, crop_A. intros Hb.
  apply bind_Ok in Hb as (It & -> & Hb). rsimpl.
  apply bind_Ok in Hb as (A & -> & Hb). rsimpl.
  apply bind_Ok in Hb as (C & -> & Hb). rsimpl.
  apply bind_Ok in Hb as (U & -> & Hb). rsimpl.
  apply bind_Ok in Hb as (x & -> & Hb). rsimpl.
  apply bind_Ok in Hb as (du1 & Hdu & Hb).
  apply bind_Ok in Hb as (y & -> & Hb). rsimpl.
  apply bind_Ok in Hb as (dv1 & Hdv & [= <- <-]).
  split; [by eapply shape_set2|]. split; [by eapply shape_set2|]. eauto.
Qed.

(** A loop that returns has had every one of its passes return. *)
Lemma for_each_Ok_each {X St} (body : X -> St -> result St) xs s s' x :
  for_each body xs s = Ok s' -> x ∈ xs -> exists s1 s2, body x s1 = Ok s2.
Proof.
  revert s. induction xs as [|y xs IH]; intros s Hloop Hx.
  - by apply elem_of_nil in Hx.
  - simpl in Hloop. apply bind_Ok in Hloop as (s1 & Hy & Hloop).
    apply elem_of_cons in Hx as [->|Hx]; [eauto|]. by eapply IH.
Qed.

Lemma lk_loops_shape Ix Iy It ws rows cols du dv du' dv' :
  for_each (fun i st =>
      for_each (fun j st => lk_pixel linalg_det linalg_inv Ix Iy It ws i j st)
        cols st) rows (du, dv) = Ok (du', dv') ->
  shape du' = shape du /\ shape dv' = shape dv.
Proof.
  rewrite (for_each_grid (lk_pixel linalg_det linalg_inv Ix Iy It ws)).
  intros Hloop.
  refine (for_each_invariant
            (fun st => shape st.1 = shape du /\ shape st.2 = shape dv)
            _ _ _ (du, dv) (du', dv') (conj eq_refl eq_refl) Hloop).
  intros [i j] [u1 v1] [u2 v2] _ [Hu Hv] Hbody. cbn [fst snd] in *.
  destruct (lk_pixel_shape _ _ _ _ _ _ _ _ _ _ Hbody) as [-> ->]. done.
Qed.

Lemma lucas_kanade_step_shape I1 I2 ws du dv :
  lucas_kanade_step linalg_det linalg_inv I1 I2 ws = Ok (du, dv) ->
  shape du = shape I1 /\ shape dv = shape I1.
Proof.
  unfold lucas_kanade_step. cbn [shape]. intros Hstep.
  apply bind_Ok in Hstep as (It & _ & Hloop).
  apply lk_loops_shape in Hloop as [-> ->].
  split; apply shape_tabulate_like.
Qed.

(** Whenever [lucas_kanade_step] returns, [du] and [dv] have the shape of
    [I1], whatever the shape of [I2] and whatever [np.linalg.det] and
    [np.linalg.inv] returned. *)
Theorem lucas_kanade_step_returns_shape_of_I1 I1 I2 window_size du dv :
  lucas_kanade_step linalg_det linalg_inv I1 I2 window_size = Ok (du, dv) ->
  shape du = shape I1 /\ shape dv = shape I1.
Proof. apply lucas_kanade_step_shape. Qed.

(** Whenever [faster_lucas_kanade_step] returns, by either branch, [du] and
    [dv] have the shape of [I1]. *)
Theorem faster_lucas_kanade_step_returns_shape_of_I1 I1 I2 window_size du dv :
  faster_lucas_kanade_step linalg_det linalg_inv cornerHarris I1 I2 window_size
    = Ok (du, dv) ->
  shape du = shape I1 /\ shape dv = shape I1.
Proof.
  unfold faster_lucas_kanade_step. case_decide.
  - apply lucas_kanade_step_shape.
  - intros Hstep. apply bind_Ok in Hstep as (top & _ & Hloop).
    assert (shape du = shape (zeros (nrows I1) (ncols I1)) /\
            shape dv = shape (zeros (nrows I1) (ncols I1))) as [-> ->].
    { refine (for_each_invariant
                (fun st => shape st.1 = shape (zeros (nrows I1) (ncols I1)) /\
                           shape st.2 = shape (zeros (nrows I1) (ncols I1)))
                _ _ _ (zeros (nrows I1) (ncols I1), zeros (nrows I1) (ncols I1))
                (du, dv) (conj eq_refl eq_refl) Hloop).
      intros [i j] [u1 v1] [u2 v2] _ [Hu Hv] Hbody. cbn [fst snd] in *.
      destruct (faster_pixel_Ok _ _ _ _ _ _ _ _ _ Hbody) as (-> & -> & _).
      done. }
    split; apply shape_tabulate_like.
Qed.

(** Two non-empty images whose row counts, or column counts, differ with
    neither being 1 do not broadcast: the subtraction [I2 - I1] raises
    ValueError and [lucas_kanade_step] with it. *)
Theorem lucas_kanade_step_shape_mismatch I1 I2 window_size :
  0 < nrows I1 -> 0 < ncols I1 -> 0 < nrows I2 -> 0 < ncols I2 ->
  (nrows I2 <> nrows I1 /\ nrows I2 <> 1 /\ nrows I1 <> 1) \/
  (ncols I2 <> ncols I1 /\ ncols I2 <> 1 /\ ncols I1 <> 1) ->
  lucas_kanade_step linalg_det linalg_inv I1 I2 window_size = Raise ValueError.
Proof.
  intros _ _ _ _ Hbad.
  assert (np_sub I2 I1 = Raise ValueError) as Hsub.
  { unfold np_sub, broadcast_dim.
    destruct Hbad as [(H1 & H2 & H3)|(H1 & H2 & H3)].
    - destruct (decide (nrows I2 = nrows I1)); [done|].
      destruct (decide (nrows I2 = 1)); [done|].
      by destruct (decide (nrows I1 = 1)).
    - destruct (decide (ncols I2 = ncols I1)); [done|].
      destruct (decide (ncols I2 = 1)); [done|].
      destruct (decide (ncols I1 = 1)); [done|].
      by repeat case_decide. }
  unfold lucas_kanade_step. cbn [shape]. by rewrite Hsub.
Qed.

Lemma paint_zero h w P (val : nat -> nat -> F) :
  (forall i j, (i, j) ∈ P -> val i j = zero) -> paint h w P val = zeros h w.
Proof.
  intros Hz. unfold paint, zeros, tabulate.
  apply list_fmap_ext; intros _ i _. apply list_fmap_ext; intros _ j _.
  case_decide; [by apply Hz|done].
Qed.

(** When the determinant test fails at every interior pixel, the dense
    solver returns arrays of zeros and [np.linalg.inv] is not called: the
    result is the same for every [np.linalg.inv], one that raises on every
    matrix included. *)
Theorem lucas_kanade_step_flat I1 I2 window_size :
  let h := nrows I1 in
  let w := ncols I1 in
  let k := window_size / 2 in
  let Ix := convolve2d I2 X_DERIVATIVE_FILTER in
  let Iy := convolve2d I2 Y_DERIVATIVE_FILTER in
  shape I1 = shape I2 ->
  (forall i j A C, k <= i < h - k -> k <= j < w - k ->
     window_A Ix Iy (i - k) (i + 1 + k) (j - k) (j + 1 + k) = Ok A ->
     matmul (transpose A) A = Ok C ->
     fgt (linalg_det C) epsilon = false) ->
  lucas_kanade_step linalg_det linalg_inv I1 I2 window_size
  = Ok (zeros h w, zeros h w).
Proof.
  intros h w k Ix Iy Hshape Hdet.
  pose proof Hshape as [= Hr Hc].
  set (It := tabulate h w (fun i j => fsub (at2 I2 i j) (at2 I1 i j))).
  assert (nrows Ix = h /\ uniform w Ix) as [HrIx HuIx].
  { pose proof (shape_convolve2d I2 X_DERIVATIVE_FILTER) as [= E1 E2].
    split; [unfold Ix, h; congruence|].
    unfold Ix, w. rewrite Hc, <- E2. apply rect_convolve2d. }
  assert (nrows Iy = h /\ uniform w Iy) as [HrIy HuIy].
  { pose proof (shape_convolve2d I2 Y_DERIVATIVE_FILTER) as [= E1 E2].
    split; [unfold Iy, h; congruence|].
    unfold Iy, w. rewrite Hc, <- E2. apply rect_convolve2d. }
  assert (nrows It = h /\ uniform w It) as [HrIt HuIt].
  { split; [apply nrows_tabulate|apply uniform_tabulate]. }
  set (sol := lk_flow_at linalg_det linalg_inv Ix Iy It window_size).
  set (ps := grid (range k (h - k)) (range k (w - k))).
  assert (forall i j, (i, j) ∈ ps -> sol i j = Ok None) as Hsol.
  { intros i j [Hi%elem_of_range Hj%elem_of_range]%elem_of_grid.
    destruct (lk_flow_at_interior linalg_det (fun C => Ok C)
                Ix Iy It h w window_size i j)
      as (A & C & HA & HC & _); try done.
    { intros C0 HC0 _. eauto. }
    unfold sol, lk_flow_at. rewrite HA. rsimpl. rewrite HC. rsimpl.
    by rewrite (Hdet i j A C Hi Hj HA HC). }
  unfold lucas_kanade_step. cbn [shape].
  rewrite np_sub_same_shape by done. rsimpl.
  rewrite <- Hr, <- Hc. fold h w k Ix Iy It.
  rewrite (for_each_grid (lk_pixel linalg_det linalg_inv Ix Iy It window_size)).
  fold ps.
  pose proof (for_each_paint
                (fun ij st => lk_pixel linalg_det linalg_inv Ix Iy It
                                window_size ij.1 ij.2 st)
                h w (fun i j => (written sol i j).1)
                (fun i j => (written sol i j).2) ps) as Hloop.
  rewrite <- (paint_nil h w (fun i j => (written sol i j).1)) at 1.
  rewrite <- (paint_nil h w (fun i j => (written sol i j).2)) at 1.
  rewrite Hloop.
  - assert (forall i j, (i, j) ∈ reverse ps ++ [] -> written sol i j = (zero, zero))
      as Hz.
    { intros i j Hij. rewrite app_nil_r, elem_of_reverse in Hij.
      unfold written. by rewrite Hsol. }
    f_equal. f_equal; apply paint_zero; intros i j Hij; by rewrite Hz.
  - intros i j P Hij. cbn [fst snd].
    pose proof Hij as [Hi%elem_of_range Hj%elem_of_range]%elem_of_grid.
    eapply lk_pixel_written; [lia|lia|]. by apply Hsol.
Qed.

(** The corner loop has no determinant test: if [np.linalg.inv] raises on
    the normal matrix of one selected pixel, [faster_lucas_kanade_step] does
    not return. *)
Theorem faster_lucas_kanade_step_unguarded I1 I2 window_size top i j A C e :
  let h := nrows I1 in
  let w := ncols I1 in
  let k := window_size / 2 in
  let R := cornerHarris I2 in
  let I2_win :=
    slice I2 (i - k) (Nat.min h (i + 1 + k)) (j - k) (Nat.min w (j + 1 + k)) in
  4 * window_size <= Nat.min h w ->
  amax R = Ok top ->
  (i, j) ∈ np_where (fun x => fgt x (fmul (fdiv (of_Z 1) (of_Z 100)) top)) R ->
  crop_A I2_win = Ok A -> matmul (transpose A) A = Ok C ->
  linalg_inv C = Raise e ->
  exists e',
    faster_lucas_kanade_step linalg_det linalg_inv cornerHarris
      I1 I2 window_size = Raise e'.
Proof.
  intros h w k R I2_win Hbig Htop Hsel HA HC Hinv.
  destruct (faster_lucas_kanade_step linalg_det linalg_inv cornerHarris
              I1 I2 window_size) as [[du dv]|e'] eqn:Hstep; [|eauto].
  exfalso. unfold faster_lucas_kanade_step, FACTOR in Hstep.
  rewrite decide_False in Hstep by (fold h w; lia).
  fold R in Hstep. rewrite Htop in Hstep. rsimpl.
  destruct (for_each_Ok_each _ _ _ _ _ Hstep Hsel) as ([u1 v1] & [u2 v2] & Hbody).
  destruct (faster_pixel_Ok _ _ _ _ _ _ _ _ _ Hbody) as (_ & _ & xy & Hflow).
  unfold faster_flow_at in Hflow. fold h w k I2_win in Hflow.
  apply bind_Ok in Hflow as (It & _ & Hflow).
  rewrite HA in Hflow. rsimpl. rewrite HC in Hflow. rsimpl.
  unfold least_squares in Hflow. rewrite Hinv in Hflow. done.
Qed.

Variable cv2_resize : ndarray -> nat -> nat -> ndarray.
Variable griddata : list (F * F) -> list F -> list (F * F) -> list F.

(** The scale factors are quotients of Python ints: a field [u] that has
    rows but no column, or a field [v] without rows under a [u] that has
    columns, makes [warp_image] raise ZeroDivisionError before any library
    routine is called. *)
Theorem warp_image_empty_field image u v :
  (0 < nrows u /\ ncols u = 0) \/ (0 < ncols u /\ nrows v = 0) ->
  warp_image cv2_resize griddata image u v = Raise ZeroDivisionError.
Proof.
  intros Hbad. unfold warp_image, interpolate, int_div. cbn [shape].
  destruct Hbad as [[_ Hu]|[Hu Hv]].
  - by destruct (decide (ncols u = 0)).
  - destruct (decide (ncols u = 0)); [lia|]. rsimpl.
    by destruct (decide (nrows v = 0)).
Qed.

End SolverEdges.

(** * The corner-restricted estimator *)

Section FasterFlow.
Context {F : Type} `{Scalar F}.
Abbreviation ndarray := (list (list F)).
Variable linalg_det : ndarray -> F.
Variable linalg_inv : ndarray -> result ndarray.
Variable cornerHarris : ndarray -> ndarray.
Variable cv2_resize : ndarray -> nat -> nat -> ndarray.
Variable griddata : list (F * F) -> list F -> list (F * F) -> list F.
Implicit Types (a b u v du dv : ndarray).

(** With [num_levels = 0] the corner-restricted estimator raises the
    UnboundLocalError of [build_pyramid], as the dense one does. *)
Theorem faster_lucas_kanade_optical_flow_zero_levels I1 I2 ws iters :
  faster_lucas_kanade_optical_flow linalg_det linalg_inv cornerHarris
    cv2_resize griddata I1 I2 ws iters 0 = Raise UnboundLocalError.
Proof.
  unfold faster_lucas_kanade_optical_flow.
  by rewrite build_pyramid_zero_levels_raise.
Qed.

(** Whenever [faster_lucas_kanade_optical_flow] returns on two images of one
    shape [(h, w)], [u] and [v] have the working resolution: [h] and [w]
    rounded up to multiples of [2 ^ num_levels]. *)
Theorem faster_lucas_kanade_optical_flow_padded_shape
    I1 I2 ws iters num_levels u v :
  resize_contract cv2_resize ->
  shape I2 = shape I1 -> 0 < nrows I1 ->
  faster_lucas_kanade_optical_flow linalg_det linalg_inv cornerHarris
    cv2_resize griddata I1 I2 ws iters num_levels = Ok (u, v) ->
  let padded :=
    (ceil_div (nrows I1) (2 ^ num_levels) * 2 ^ num_levels,
     ceil_div (ncols I1) (2 ^ num_levels) * 2 ^ num_levels) in
  shape u = padded /\ shape v = padded.
Proof.
  intros Hres Hshape Hh Hflow padded.
  destruct (faster_lucas_kanade_optical_flow_shape _ _ _ _ _ _ _ _ _ _ _ _
              Hres Hflow) as (_ & -> & ->).
  by rewrite (shape_resize_to _ I2 (shape I1) num_levels Hres Hshape Hh).
Qed.

(** One level of the two estimators, on a level small enough for the
    corner-restricted step to delegate, entered with [u] and [v] of the
    level's shape: the same result when, above level 0, the next finer level
    has twice the rows and columns and the quotients [2c / c] are 2. *)
Lemma lk_level_agree p1 p2 ws iters l L1 L2 u v :
  p1 !! l = Some L1 -> p2 !! l = Some L2 ->
  Nat.min (nrows L1) (ncols L1) < 4 * ws ->
  shape u = shape L2 -> shape v = shape L2 ->
  (0 < l -> exists Lf,
     p2 !! (l - 1) = Some Lf /\
     shape Lf = (2 * nrows L2, 2 * ncols L2) /\
     0 < nrows L2 /\ 0 < ncols L2 /\
     fdiv (of_Z (Z.of_nat (2 * nrows L2))) (of_Z (Z.of_nat (nrows L2)))
       = of_Z 2 /\
     fdiv (of_Z (Z.of_nat (2 * ncols L2))) (of_Z (Z.of_nat (ncols L2)))
       = of_Z 2) ->
  faster_lk_level linalg_det linalg_inv cornerHarris cv2_resize griddata
    p1 p2 ws iters l (u, v)
  = lk_level linalg_det linalg_inv cv2_resize griddata p1 p2 ws iters l (u, v).
Proof.
  intros Hp1 Hp2 Hsmall Hu Hv Hfiner.
  unfold faster_lk_level, lk_level, level_of. rewrite Hp1, Hp2. rsimpl.
  destruct (warp_image cv2_resize griddata L2 u v) as [w0|e]; rsimpl; [|done].
  rewrite (for_each_ext
             (faster_lk_iteration linalg_det linalg_inv cornerHarris
                cv2_resize griddata p1 L2 ws l)
             (lk_iteration linalg_det linalg_inv cv2_resize griddata L1 L2 ws)).
  2:{ intros it [[u1 v1] w1] _.
      unfold faster_lk_iteration, lk_iteration, level_of. rewrite Hp1. rsimpl.
      unfold faster_lucas_kanade_step, FACTOR.
      destruct (decide (Nat.min (nrows L1) (ncols L1) < 4 * ws)); [done|lia]. }
  destruct (for_each _ (range 0 iters) (u, v, w0))
    as [[[u1 v1] w1]|e] eqn:Eloop; rsimpl; [|done].
  case_decide as Hl; [|done].
  destruct (Hfiner Hl) as (Lf & HLf & HsLf & Hr & Hc & Dr & Dc).
  rewrite HLf. rsimpl. rewrite HsLf.
  destruct (lk_iterations_shape _ _ _ _ _ _ _ _ _ _ _ _ _ _ Eloop)
    as [Hu1 Hv1].
  assert (ncols u1 = ncols L2) as -> by (rewrite Hu in Hu1; by injection Hu1).
  assert (nrows v1 = nrows L2) as -> by (rewrite Hv in Hv1; by injection Hv1).
  unfold int_div.
  destruct (decide (ncols L2 = 0)); [lia|].
  destruct (decide (nrows L2 = 0)); [lia|]. rsimpl.
  by rewrite Dr, Dc.
Qed.

(** On images whose working resolution has its smaller dimension below
    [4 * window_size], every level is small enough for the corner-restricted
    step to delegate, and [faster_lucas_kanade_optical_flow] is
    [lucas_kanade_optical_flow]: same flow, same exception if any.  The two
    differ in how they scale the flow between levels, by the constant 2 or
    by the quotient of the widths (heights) of the levels; the quotients
    [2c / c] that occur are assumed to be 2, as they are in binary64. *)
Theorem faster_flow_agrees_on_small_images I1 I2 window_size max_iter num_levels :
  let H' := ceil_div (nrows I1) (2 ^ num_levels) * 2 ^ num_levels in
  let W' := ceil_div (ncols I1) (2 ^ num_levels) * 2 ^ num_levels in
  resize_contract cv2_resize ->
  shape I2 = shape I1 -> 0 < nrows I1 -> 0 < ncols I1 ->
  Nat.min H' W' < 4 * window_size ->
  (forall c, 0 < c -> 2 * c <= Nat.max H' W' ->
     fdiv (of_Z (Z.of_nat (2 * c))) (of_Z (Z.of_nat c)) = of_Z 2) ->
  faster_lucas_kanade_optical_flow linalg_det linalg_inv cornerHarris
    cv2_resize griddata I1 I2 window_size max_iter num_levels
  = lucas_kanade_optical_flow linalg_det linalg_inv cv2_resize griddata
      I1 I2 window_size max_iter num_levels.
Proof.
  intros H' W' Hres Hshape Hh Hw Hsmall Hdiv.
  unfold faster_lucas_kanade_optical_flow, lucas_kanade_optical_flow.
  set (size := IMAGE_SIZE (shape I1) num_levels).
  pose proof (shape_resize_to _ I1 (shape I1) num_levels Hres eq_refl Hh) as S1.
  pose proof (shape_resize_to _ I2 (shape I1) num_levels Hres Hshape Hh) as S2.
  fold size in S1, S2. cbn [shape fst snd] in S1, S2.
  set (J1 := resize_to cv2_resize I1 size) in *.
  set (J2 := resize_to cv2_resize I2 size) in *.
  destruct num_levels as [|n]; [by rewrite !build_pyramid_nonpos by lia|].
  set (N := S n) in *.
  set (p := ceil_div (nrows I1) (2 ^ N)) in *.
  set (q := ceil_div (ncols I1) (2 ^ N)) in *.
  pose proof (pow2_pos N) as HpN.
  assert (0 < p) as Hp.
  { pose proof (ceil_div_mul_ge (nrows I1) _ HpN) as Gp. fold p in Gp.
    destruct p; [simpl in Gp; lia|lia]. }
  assert (0 < q) as Hq.
  { pose proof (ceil_div_mul_ge (ncols I1) _ HpN) as Gq. fold q in Gq.
    destruct q; [simpl in Gq; lia|lia]. }
  assert (2 <= 2 ^ N) as Hp2.
  { unfold N. rewrite Nat.pow_succ_r'. pose proof (pow2_pos n). lia. }
  assert (nrows J1 <> 1 /\ nrows J2 <> 1) as [Hrows1 Hrows2].
  { pose proof S1 as [= E1 _]. pose proof S2 as [= E2 _].
    rewrite E1, E2. nia. }
  rewrite (build_pyramid_pos J1), (build_pyramid_pos J2)
    by (lia || by left).
  clear Hrows1 Hrows2.
  rewrite Nat2Z.id. rsimpl.
  rewrite last_levels. rsimpl.
  assert (forall k, k <= N ->
            shape (Nat.iter k pyramid_down J1) = (p * 2 ^ (N - k), q * 2 ^ (N - k)) /\
            shape (Nat.iter k pyramid_down J2) = (p * 2 ^ (N - k), q * 2 ^ (N - k)))
    as Hlev.
  { intros k Hk. split; by apply shape_level_working. }
  assert (forall k, k <= N -> 2 ^ (N - k) <= 2 ^ N) as Hmono
    by (intros k Hk; apply Nat.pow_le_mono_r; lia).
  assert (forall m, m <= N -> forall u v,
            shape u = shape (Nat.iter m pyramid_down J2) ->
            shape v = shape (Nat.iter m pyramid_down J2) ->
            for_each (faster_lk_level linalg_det linalg_inv cornerHarris
                        cv2_resize griddata (levels J1 N) (levels J2 N)
                        window_size max_iter)
              (reverse (seq 0 (S m))) (u, v)
            = for_each (lk_level linalg_det linalg_inv cv2_resize griddata
                          (levels J1 N) (levels J2 N) window_size max_iter)
                (reverse (seq 0 (S m))) (u, v)) as Hdescent.
  { assert (forall m, m <= N -> forall u v,
              shape u = shape (Nat.iter m pyramid_down J2) ->
              shape v = shape (Nat.iter m pyramid_down J2) ->
              faster_lk_level linalg_det linalg_inv cornerHarris
                cv2_resize griddata (levels J1 N) (levels J2 N)
                window_size max_iter m (u, v)
              = lk_level linalg_det linalg_inv cv2_resize griddata
                  (levels J1 N) (levels J2 N) window_size max_iter m (u, v))
      as Hbody.
    { intros m Hm u v Hu Hv.
      destruct (Hlev m Hm) as [[= R1 C1] [= R2 C2]].
      pose proof (Hmono m Hm).
      apply (lk_level_agree _ _ _ _ _ (Nat.iter m pyramid_down J1)
               (Nat.iter m pyramid_down J2));
        [by apply lookup_levels|by apply lookup_levels| |done|done|].
      - rewrite R1, C1. unfold H', W' in Hsmall. fold p q in Hsmall. nia.
      - intros Hl. exists (Nat.iter (m - 1) pyramid_down J2).
        split; [apply lookup_levels; lia|].
        destruct (Hlev (m - 1) ltac:(lia)) as [_ ->].
        rewrite R2, C2.
        assert (2 ^ (N - (m - 1)) = 2 * 2 ^ (N - m)) as ->.
        { replace (N - (m - 1)) with (S (N - m)) by lia.
          apply Nat.pow_succ_r'. }
        pose proof (pow2_pos (N - m)).
        split; [f_equal; lia|]. split; [nia|]. split; [nia|].
        assert (2 * 2 ^ (N - m) <= 2 ^ N) as Hle.
        { rewrite <- Nat.pow_succ_r'. apply Nat.pow_le_mono_r; lia. }
        unfold H', W' in Hdiv. fold p q in Hdiv.
        split; apply Hdiv; nia. }
    induction m as [|m IH]; intros Hm u v Hu Hv.
    - change (reverse (seq 0 1)) with [0]. cbn [for_each].
      by rewrite Hbody by (done || lia).
    - rewrite seq_S, reverse_app. cbn [reverse rev_append app for_each plus].
      rewrite Hbody by done.
      destruct (lk_level _ _ _ _ _ _ _ _ (S m) (u, v)) as [[u' v']|e] eqn:E;
        rsimpl; [|done].
      destruct (lk_level_shape_pos _ _ _ _ _ _ _ _ (S m) (u, v) u' v'
                  Hres ltac:(lia) E) as (finer & Hf & Hu' & Hv').
      rewrite lookup_levels in Hf by lia. injection Hf as <-.
      rewrite Nat.sub_0_r in Hu', Hv'.
      apply IH; [lia|done|done]. }
  unfold range. replace (N + 1 - 0) with (S N) by lia.
  apply Hdescent; [done| |]; apply shape_tabulate_like.
Qed.

End FasterFlow.

(** * The drivers, frame after frame *)

Section DriverLoops.
Context {F : Type} `{Scalar F}.
Abbreviation ndarray := (list (list F)).
Variable linalg_det : ndarray -> F.
Variable linalg_inv : ndarray -> result ndarray.
Variable cornerHarris : ndarray -> ndarray.
Variable cv2_resize : ndarray -> nat -> nat -> ndarray.
Variable griddata : list (F * F) -> list F -> list (F * F) -> list F.
Variable BGR : Type.
Variable cvtColor : BGR -> ndarray.
Variable astype_uint8 : ndarray -> ndarray.
Implicit Types (a b u v du dv : ndarray).
Implicit Types (st : driver_state (F:=F)).

(** ** What is written and what is kept *)

Section AnyFlow.
Variable flow : ndarray -> ndarray -> nat -> nat -> nat ->
                result (ndarray * ndarray).
Variables (size : nat * nat) (width height window_size max_iter num_levels : nat).

Let step := driver_frame cv2_resize griddata BGR cvtColor astype_uint8 flow
              size width height window_size max_iter num_levels.

Lemma driver_frame_out frame st st' :
  step frame st = Ok st' ->
  (exists written, out st' = out st ++ [written]) /\
  prev_frame st' = cv2_resize (cvtColor frame) size.1 size.2.
Proof using Type.
  unfold step, driver_frame. intros Hstep.
  apply bind_Ok in Hstep as ([du dv] & _ & Hstep).
  destruct (accumulate window_size (st_u st) (st_v st) du dv) as [u v].
  apply bind_Ok in Hstep as (warp_frame & _ & [= <-]).
  cbn [out prev_frame]. eauto.
Qed.

Lemma driver_loop_out frames st st' :
  for_each step frames st = Ok st' ->
  length (out st') = length (out st) + length frames /\
  (forall k x, out st !! k = Some x -> out st' !! k = Some x) /\
  prev_frame st'
  = match list.last frames with
    | Some frame => cv2_resize (cvtColor frame) size.1 size.2
    | None => prev_frame st
    end.
Proof using Type.
  revert st. induction frames as [|frame frames IH]; intros st Hloop.
  - injection Hloop as <-. simpl. split; [lia|done].
  - cbn [for_each] in Hloop. apply bind_Ok in Hloop as (s1 & Hs1 & Hloop).
    destruct (driver_frame_out _ _ _ Hs1) as [[written Hout] Hprev].
    destruct (IH _ Hloop) as (Hlen & Hkeep & Hlast).
    rewrite Hout, length_app in Hlen. simpl in Hlen.
    split; [simpl; lia|]. split.
    + intros k x Hk. apply Hkeep. rewrite Hout. by apply lookup_app_l_Some.
    + rewrite last_cons. destruct (list.last frames); [done|].
      by rewrite Hlast.
Qed.

End AnyFlow.

(** Whenever a driver returns ([video_stabilization] with either estimator,
    or any other, for [flow]), it has written one frame per frame read, the
    first of them the first frame in grey, untouched; and the frame it holds
    as [prev_frame] is the last frame read, resized: each frame is matched
    against the frame just before it, never against the first. *)
Theorem stabilization_writes_one_frame_per_frame_read
    flow first rest width height window_size max_iter num_levels st :
  video_stabilization cv2_resize griddata BGR cvtColor astype_uint8 flow
    (first :: rest) width height window_size max_iter num_levels = Ok st ->
  let size := IMAGE_SIZE (shape (cvtColor first)) num_levels in
  length (out st) = length (first :: rest) /\
  out st !! 0 = Some (cvtColor first) /\
  exists frame,
    list.last (first :: rest) = Some frame /\
    prev_frame st = cv2_resize (cvtColor frame) size.1 size.2.
Proof.
  intros Hrun size. unfold video_stabilization in Hrun. fold size in Hrun.
  destruct (driver_loop_out _ _ _ _ _ _ _ _ _ _ Hrun) as (Hlen & Hkeep & Hlast).
  split; [simpl in *; lia|]. split; [by apply Hkeep|].
  rewrite last_cons. destruct (list.last rest) as [frame|]; eauto.
Qed.

(** ** The driver that crops *)

Lemma py_stop_margin n m :
  py_stop n (Z.of_nat n - Z.of_nat m) = if decide (m <= n) then n - m else 2 * n - m.
Proof.
  unfold py_stop. case_decide; destruct (Z.ltb_spec (Z.of_nat n - Z.of_nat m) 0); lia.
Qed.

(** A frame cropped by margins counted on its own sides. *)
Lemma crop_margins_self a r0 c0 r_margin c_margin :
  let h := nrows a in
  let w := ncols a in
  let r1 := if decide (r_margin <= h) then h - r_margin else 2 * h - r_margin in
  let c1 := if decide (c_margin <= w) then w - c_margin else 2 * w - c_margin in
  rect a ->
  nrows (crop_margins a a r0 c0 r_margin c_margin) = r1 - r0 /\
  uniform (c1 - c0) (crop_margins a a r0 c0 r_margin c_margin) /\
  forall i j, i < r1 - r0 -> j < c1 - c0 ->
    at2 (crop_margins a a r0 c0 r_margin c_margin) i j = at2 a (r0 + i) (c0 + j).
Proof.
  intros h w r1 c1 Ha. unfold crop_margins.
  fold (nrows a) (ncols a). rewrite !py_stop_margin. fold h w r1 c1.
  split; [|split].
  - rewrite nrows_slice. fold h. unfold r1. case_decide; lia.
  - replace (c1 - c0) with (Nat.min (c1 - c0) (w - c0))
      by (unfold c1; case_decide; lia).
    by apply uniform_slice.
  - intros i j Hi Hj. by apply at2_slice.
Qed.

Section Cropping.
Variable flow : ndarray -> ndarray -> nat -> nat -> nat ->
                result (ndarray * ndarray).
Variables (size : nat * nat) (width height window_size max_iter num_levels : nat).
Variables (start_rows start_cols end_rows end_cols : nat).

Let step := driver_frame cv2_resize griddata BGR cvtColor astype_uint8 flow
              size width height window_size max_iter num_levels.
Let step_fix := driver_frame_fix_effects cv2_resize griddata BGR cvtColor
                  astype_uint8 flow size width height
                  window_size max_iter num_levels
                  start_rows start_cols end_rows end_cols.

Lemma driver_frame_fix_effects_sim frame st st' :
  same_estimate st st' -> same_outcome (step_fix frame st) (step frame st').
Proof using Type.
  intros (Hu & Hv & Hp & Hlen).
  unfold step_fix, step, driver_frame_fix_effects, driver_frame.
  rewrite Hu, Hv, Hp.
  destruct (flow _ _ _ _ _) as [[du dv]|e]; rsimpl; [|done].
  destruct (accumulate _ _ _ _ _) as [u v].
  destruct (warp_image _ _ _ _ _) as [warp_frame|e]; rsimpl; [|done].
  unfold same_outcome, same_estimate. cbn [st_u st_v prev_frame out].
  rewrite !length_app. simpl. auto with lia.
Qed.

Lemma driver_loop_fix_effects_sim frames st st' :
  same_estimate st st' ->
  same_outcome (for_each step_fix frames st) (for_each step frames st').
Proof using Type.
  revert st st'. induction frames as [|frame frames IH]; intros st st' Hsim.
  - done.
  - cbn [for_each].
    pose proof (driver_frame_fix_effects_sim frame st st' Hsim) as Hstep.
    destruct (step_fix frame st) as [s1|e], (step frame st') as [s1'|e'];
      rsimpl; try done.
    by apply IH.
Qed.

Lemma driver_frame_fix_effects_out frame st st' :
  step_fix frame st = Ok st' -> exists written, out st' = out st ++ [written].
Proof using Type.
  unfold step_fix, driver_frame_fix_effects. intros Hstep.
  apply bind_Ok in Hstep as ([du dv] & _ & Hstep).
  destruct (accumulate window_size (st_u st) (st_v st) du dv) as [u v].
  apply bind_Ok in Hstep as (warp_frame & _ & [= <-]).
  cbn [out]. eauto.
Qed.

Lemma driver_loop_fix_effects_first frames st st' x :
  for_each step_fix frames st = Ok st' ->
  out st !! 0 = Some x -> out st' !! 0 = Some x.
Proof using Type.
  intros Hloop Hx.
  refine (for_each_invariant (fun s => out s !! 0 = Some x) step_fix frames
            _ st st' Hx Hloop).
  intros frame s s' _ Hs Hstep.
  destruct (driver_frame_fix_effects_out _ _ _ Hstep) as [written ->].
  by apply lookup_app_l_Some.
Qed.

End Cropping.

(** Cropping touches what is written and nothing else: on one capture, with
    margins that leave a non-empty frame (OpenCV does not resize an empty
    image), [lucas_kanade_faster_video_stabilization_fix_effects] and
    [lucas_kanade_faster_video_stabilization] raise the same exception or
    return with the same [u], [v] and previous frame, after writing the same
    number of frames. *)
Theorem fix_effects_estimates_as_faster_driver
    frames first width height window_size max_iter num_levels
    start_rows start_cols end_rows end_cols :
  head frames = Some first ->
  start_rows + end_rows < nrows (cvtColor first) ->
  start_cols + end_cols < ncols (cvtColor first) ->
  match
    lucas_kanade_faster_video_stabilization_fix_effects linalg_det linalg_inv
      cornerHarris cv2_resize griddata BGR cvtColor astype_uint8
      frames width height window_size max_iter num_levels
      start_rows start_cols end_rows end_cols,
    lucas_kanade_faster_video_stabilization linalg_det linalg_inv
      cornerHarris cv2_resize griddata BGR cvtColor astype_uint8
      frames width height window_size max_iter num_levels
  with
  | Ok st, Ok st' =>
      st_u st = st_u st' /\ st_v st = st_v st' /\
      prev_frame st = prev_frame st' /\ length (out st) = length (out st')
  | Raise e, Raise e' => e = e'
  | _, _ => False
  end.
Proof.
  intros Hfirst _ _.
  unfold lucas_kanade_faster_video_stabilization_fix_effects,
    lucas_kanade_faster_video_stabilization,
    video_stabilization_fix_effects, video_stabilization.
  destruct frames as [|frame rest]; [done|].
  apply (driver_loop_fix_effects_sim
           (faster_lucas_kanade_optical_flow linalg_det linalg_inv
              cornerHarris cv2_resize griddata)).
  unfold same_estimate, driver_init_fix_effects, driver_init. done.
Qed.

(** Whenever the cropping driver returns, the first frame it has written is
    the first grey frame without its first [start_rows] rows and
    [start_cols] columns, cut at row [h - end_rows] and column
    [w - end_cols]; a margin larger than the frame gives a negative bound,
    which Python counts from the far side once more: row [2h - end_rows]
    when [end_rows > h], and likewise for columns. *)
Theorem fix_effects_first_frame_written
    first rest width height window_size max_iter num_levels
    start_rows start_cols end_rows end_cols st :
  let gray := cvtColor first in
  let h := nrows gray in
  let w := ncols gray in
  let r1 := if decide (end_rows <= h) then h - end_rows else 2 * h - end_rows in
  let c1 := if decide (end_cols <= w) then w - end_cols else 2 * w - end_cols in
  rect gray ->
  lucas_kanade_faster_video_stabilization_fix_effects linalg_det linalg_inv
    cornerHarris cv2_resize griddata BGR cvtColor astype_uint8
    (first :: rest) width height window_size max_iter num_levels
    start_rows start_cols end_rows end_cols = Ok st ->
  exists written,
    out st !! 0 = Some written /\
    nrows written = r1 - start_rows /\
    uniform (c1 - start_cols) written /\
    forall i j, i < r1 - start_rows -> j < c1 - start_cols ->
      at2 written i j = at2 gray (start_rows + i) (start_cols + j).
Proof.
  intros gray h w r1 c1 Hrect Hrun.
  unfold lucas_kanade_faster_video_stabilization_fix_effects,
    video_stabilization_fix_effects in Hrun.
  exists (crop_margins gray gray start_rows start_cols end_rows end_cols).
  split; [|by apply crop_margins_self].
  eapply driver_loop_fix_effects_first; [exact Hrun|]. done.
Qed.

(** With [num_levels = 0] and a second frame to read, each of the three
    drivers raises the UnboundLocalError of [build_pyramid] at its first
    pass: the estimator is called with the driver's [num_levels]. *)
Theorem stabilization_zero_levels
    first second rest width height window_size max_iter
    start_rows start_cols end_rows end_cols :
  lucas_kanade_video_stabilization linalg_det linalg_inv
    cv2_resize griddata BGR cvtColor astype_uint8
    (first :: second :: rest) width height window_size max_iter 0
  = Raise UnboundLocalError /\
  lucas_kanade_faster_video_stabilization linalg_det linalg_inv
    cornerHarris cv2_resize griddata BGR cvtColor astype_uint8
    (first :: second :: rest) width height window_size max_iter 0
  = Raise UnboundLocalError /\
  lucas_kanade_faster_video_stabilization_fix_effects linalg_det linalg_inv
    cornerHarris cv2_resize griddata BGR cvtColor astype_uint8
    (first :: second :: rest) width height window_size max_iter 0
    start_rows start_cols end_rows end_cols
  = Raise UnboundLocalError.
Proof.
  unfold lucas_kanade_video_stabilization,
    lucas_kanade_faster_video_stabilization,
    lucas_kanade_faster_video_stabilization_fix_effects,
    video_stabilization, video_stabilization_fix_effects.
  cbn [for_each].
  unfold driver_frame, driver_frame_fix_effects,
    lucas_kanade_optical_flow, faster_lucas_kanade_optical_flow.
  by rewrite !build_pyramid_zero_levels_raise.
Qed.

End DriverLoops.

(** * The accumulated field is one translation *)

Section GlobalDisplacement.
Context {F : Type} `{Scalar F}.
Abbreviation ndarray := (list (list F)).
Variable linalg_det : ndarray -> F.
Variable linalg_inv : ndarray -> result ndarray.
Variable cornerHarris : ndarray -> ndarray.
Variable cv2_resize : ndarray -> nat -> nat -> ndarray.
Variable griddata : list (F * F) -> list F -> list (F * F) -> list F.
Variable BGR : Type.
Variable cvtColor : BGR -> ndarray.
Variable astype_uint8 : ndarray -> ndarray.
Implicit Types (a b u v du dv : ndarray).
Implicit Types (st : driver_state (F:=F)).

(** An array that is zero on a border [k] wide and holds [c] inside. *)
Lemma framed_slice_iadd h w k a c m :
  nrows a = h -> uniform w a ->
  (forall i j, i < h -> j < w ->
     at2 a i j = if decide (k <= i < h - k /\ k <= j < w - k) then c else zero) ->
  forall i j, i < h -> j < w ->
    at2 (slice_iadd a k (h - k) k (w - k) m) i j
    = if decide (k <= i < h - k /\ k <= j < w - k) then fadd c m else zero.
Proof.
  intros Hr Hu Ha i j Hi Hj.
  rewrite (at2_slice_iadd w) by (done || lia).
  rewrite Ha by done. by case_decide.
Qed.

(** Whenever a driver returns, with either estimator, [u] is zero on a
    border [window_size // 2] wide and holds one value at every pixel
    inside it, and so does [v]: the field that warps a frame is one
    translation, the sum of the mean flows of the frames so far.  Assumed of
    OpenCV: [cv2.resize] returns the size asked for. *)
Theorem stabilization_field_is_one_translation
    flow first rest width height window_size max_iter num_levels st :
  resize_contract cv2_resize ->
  flow = lucas_kanade_optical_flow linalg_det linalg_inv cv2_resize griddata \/
  flow = faster_lucas_kanade_optical_flow linalg_det linalg_inv cornerHarris
           cv2_resize griddata ->
  video_stabilization cv2_resize griddata BGR cvtColor astype_uint8 flow
    (first :: rest) width height window_size max_iter num_levels = Ok st ->
  let k := window_size / 2 in
  let h := nrows (st_u st) in
  let w := ncols (st_u st) in
  shape (st_v st) = (h, w) /\
  exists cu cv, forall i j, i < h -> j < w ->
    at2 (st_u st) i j
    = (if decide (k <= i < h - k /\ k <= j < w - k) then cu else zero) /\
    at2 (st_v st) i j
    = (if decide (k <= i < h - k /\ k <= j < w - k) then cv else zero).
Proof.
  intros Hres Hflow Hrun k h w.
  assert (returns_working_shape cv2_resize flow) as Hws.
  { destruct Hflow as [-> | ->];
      [by apply dense_returns_working_shape
      |by apply faster_returns_working_shape]. }
  unfold video_stabilization in Hrun.
  set (size := IMAGE_SIZE (shape (cvtColor first)) num_levels) in *.
  set (S := shape (cv2_resize (cvtColor first) size.1 size.2)).
  set (Inv := fun s : driver_state (F:=F) =>
         driver_inv S s /\
         exists cu cv, forall i j, i < S.1 -> j < S.2 ->
           at2 (st_u s) i j
           = (if decide (k <= i < S.1 - k /\ k <= j < S.2 - k) then cu else zero) /\
           at2 (st_v s) i j
           = (if decide (k <= i < S.1 - k /\ k <= j < S.2 - k) then cv else zero)).
  assert (Inv st) as [(Hu & Hv & _) (cu & cv & Hfield)].
  { refine (for_each_invariant Inv _ rest _ _ _ _ Hrun).
    - intros frame s s' _ [Hs (cu & cv & Hfield)] Hstep.
      destruct (driver_frame_inv _ _ _ _ _ flow first width height window_size
                  max_iter num_levels frame s s' Hres Hws Hs Hstep)
        as (du & dv & _ & Hdu & Hdv & Hacc & Hs').
      split; [exact Hs'|].
      destruct Hs as (Su & Sv & _ & Uu & Uv).
      fold size S in Hdu, Hdv. unfold accumulate in Hacc.
      injection Hacc as -> ->.
      assert (nrows du = S.1 /\ ncols du = S.2) as [-> ->]
        by (by rewrite <- Hdu).
      assert (nrows dv = S.1 /\ ncols dv = S.2) as [-> ->]
        by (by rewrite <- Hdv).
      fold k. eexists _, _. intros i j Hi Hj. split.
      + apply (framed_slice_iadd S.1 S.2 k (st_u s) cu);
          [by rewrite <- Su|done| |done|done].
        intros i' j' Hi' Hj'. by apply Hfield.
      + apply (framed_slice_iadd S.1 S.2 k (st_v s) cv);
          [by rewrite <- Sv|done| |done|done].
        intros i' j' Hi' Hj'. by apply Hfield.
    - split; [apply driver_init_inv|].
      exists zero, zero. intros i j Hi Hj.
      unfold driver_init. cbn [st_u st_v]. fold size.
      rewrite !at2_zeros by done. by case_decide. }
  assert (S = (h, w)) as HS by (by rewrite <- Hu).
  split; [congruence|].
  exists cu, cv. rewrite HS in Hfield. exact Hfield.
Qed.

End GlobalDisplacement.

(** * The further properties on concrete frames *)

Lemma build_pyramid_level_shapes_witness :
  (0 < 2)%Z /\ nrows frame_a <> 1 /\
  exists pyramid level,
    build_pyramid frame_a 2 = Ok pyramid /\
    pyramid !! 2 = Some level /\ shape level = (2, 2).
Proof.
  assert (nrows frame_a <> 1) as Hrows by (simpl; lia).
  split; [lia|]. split; [exact Hrows|].
  destruct (build_pyramid_level_shapes frame_a 2 eq_refl (or_introl Hrows))
    as (pyramid & Hp & Hk).
  destruct (Hk 2) as (level & Hl & Hs); [simpl; lia|].
  exists pyramid, level. split; [done|]. split; [done|]. exact Hs.
Defined.

Lemma lucas_kanade_step_returns_shape_of_I1_witness :
  exists du dv,
    lucas_kanade_step det2 inv2 frame_a frame_b 3 = Ok (du, dv) /\
    shape du = (5, 5) /\ shape dv = (5, 5).
Proof.
  destruct (lucas_kanade_step det2 inv2 frame_a frame_b 3)
    as [[du dv]|e] eqn:E.
  - exists du, dv. split; [done|].
    apply (lucas_kanade_step_returns_shape_of_I1 det2 inv2
             frame_a frame_b 3 du dv E).
  - vm_compute in E. discriminate E.
Defined.

Lemma faster_lucas_kanade_step_returns_shape_of_I1_witness :
  exists du dv,
    faster_lucas_kanade_step det2 inv2 harris (frame12 0) (frame12 1) 3
      = Ok (du, dv) /\
    shape du = (12, 12) /\ shape dv = (12, 12).
Proof.
  destruct (faster_lucas_kanade_step det2 inv2 harris (frame12 0) (frame12 1) 3)
    as [[du dv]|e] eqn:E.
  - exists du, dv. split; [done|].
    apply (faster_lucas_kanade_step_returns_shape_of_I1 det2 inv2 harris
             (frame12 0) (frame12 1) 3 du dv E).
  - vm_compute in E. discriminate E.
Defined.

Lemma lucas_kanade_step_shape_mismatch_witness :
  nrows image3 <> nrows frame_a /\ nrows image3 <> 1 /\ nrows frame_a <> 1 /\
  lucas_kanade_step det2 inv2 frame_a image3 3 = Raise ValueError.
Proof.
  assert (nrows image3 <> nrows frame_a /\ nrows image3 <> 1 /\
          nrows frame_a <> 1) as Hbad by (simpl; lia).
  split; [apply Hbad|]. split; [apply Hbad|]. split; [apply Hbad|].
  apply (lucas_kanade_step_shape_mismatch det2 inv2 frame_a image3 3);
    [simpl; lia|simpl; lia|simpl; lia|simpl; lia|].
  left. exact Hbad.
Defined.

(** On a flat second frame every determinant is zero; the inverse used here
    raises on every matrix. *)
Lemma lucas_kanade_step_flat_witness :
  shape frame_a = shape frame_flat /\
  lucas_kanade_step det2 (fun _ => Raise LinAlgError) frame_a frame_flat 3
  = Ok (zeros 5 5, zeros 5 5).
Proof.
  split; [reflexivity|].
  apply (lucas_kanade_step_flat det2 (fun _ => Raise LinAlgError)
           frame_a frame_flat 3 eq_refl).
  intros i j A C Hi Hj HA HC.
  change (3 / 2) with 1 in *. change (nrows frame_a) with 5 in *.
  change (ncols frame_a) with 5 in *.
  do 4 (destruct i as [|i];
        [do 4 (destruct j as [|j];
               [first [lia
                      |vm_compute in HA; injection HA as <-;
                       vm_compute in HC; injection HC as <-;
                       vm_compute; reflexivity]|]); lia|]).
  lia.
Defined.

(** With [window_size = 1] the crop at a corner is a single pixel, whose
    gradients vanish: the normal matrix is singular. *)
Lemma faster_lucas_kanade_step_unguarded_witness :
  4 * 1 <= Nat.min (nrows (frame12 0)) (ncols (frame12 0)) /\
  amax (harris (frame12 1)) = Ok top12 /\
  exists e,
    faster_lucas_kanade_step det2 inv2 harris (frame12 0) (frame12 1) 1
    = Raise e.
Proof.
  assert (4 * 1 <= Nat.min (nrows (frame12 0)) (ncols (frame12 0))) as Hbig
    by (vm_compute; lia).
  assert (amax (harris (frame12 1)) = Ok top12) as Htop
    by (vm_compute; reflexivity).
  split; [exact Hbig|]. split; [exact Htop|].
  eapply (faster_lucas_kanade_step_unguarded det2 inv2 harris
            (frame12 0) (frame12 1) 1 top12 1 5 _ _ LinAlgError Hbig Htop).
  - apply (elem_of_np_where _ (harris (frame12 1)) 12);
      [apply uniform_tabulate|].
    split; [vm_compute; lia|]. split; [lia|vm_compute; reflexivity].
  - vm_compute. reflexivity.
  - vm_compute. reflexivity.
  - vm_compute. reflexivity.
Defined.

Lemma warp_image_empty_field_witness :
  0 < nrows [[] : list float] /\ ncols [[] : list float] = 0 /\
  warp_image resize_nearest griddata_sites image3 [[]] (zeros 3 3)
  = Raise ZeroDivisionError.
Proof.
  split; [simpl; lia|]. split; [reflexivity|].
  apply (warp_image_empty_field resize_nearest griddata_sites image3 [[]]
           (zeros 3 3)).
  left. split; [simpl; lia|reflexivity].
Defined.

Lemma faster_lucas_kanade_optical_flow_padded_shape_witness :
  resize_contract (F:=float) resize_nearest /\
  shape frame_b = shape frame_a /\ 0 < nrows frame_a /\
  shape frame_a = (5, 5) /\
  exists u v,
    faster_lucas_kanade_optical_flow det2 inv2 harris resize_nearest
      griddata_sites frame_a frame_b 3 1 1 = Ok (u, v) /\
    shape u = (6, 6) /\ shape v = (6, 6).
Proof.
  split; [apply resize_nearest_contract|].
  split; [reflexivity|]. split; [simpl; lia|]. split; [reflexivity|].
  destruct (faster_lucas_kanade_optical_flow det2 inv2 harris resize_nearest
              griddata_sites frame_a frame_b 3 1 1) as [[u v]|e] eqn:E.
  - exists u, v. split; [done|].
    apply (faster_lucas_kanade_optical_flow_padded_shape det2 inv2 harris
             resize_nearest griddata_sites frame_a frame_b 3 1 1 u v
             resize_nearest_contract eq_refl); [simpl; lia|done].
  - vm_compute in E. discriminate E.
Defined.

(** Two 5x5 frames and two levels above them: the working resolution is
    8x8, below [4 * 3]. *)
Lemma faster_flow_agrees_on_small_images_witness :
  resize_contract (F:=float) resize_nearest /\
  shape frame_b = shape frame_a /\
  Nat.min (ceil_div 5 (2 ^ 2) * 2 ^ 2) (ceil_div 5 (2 ^ 2) * 2 ^ 2) < 4 * 3 /\
  faster_lucas_kanade_optical_flow det2 inv2 harris resize_nearest
    griddata_sites frame_a frame_b 3 1 2
  = lucas_kanade_optical_flow det2 inv2 resize_nearest griddata_sites
      frame_a frame_b 3 1 2.
Proof.
  split; [apply resize_nearest_contract|]. split; [reflexivity|].
  split; [vm_compute; lia|].
  apply (faster_flow_agrees_on_small_images det2 inv2 harris resize_nearest
           griddata_sites frame_a frame_b 3 1 2 resize_nearest_contract eq_refl);
    [simpl; lia|simpl; lia|vm_compute; lia|].
  intros c Hc Hle.
  change (Nat.max _ _) with 8 in Hle.
  do 5 (destruct c as [|c]; [first [lia|vm_compute; reflexivity]|]). lia.
Defined.

(** A capture of two grey 5x5 frames, through the dense driver. *)
Lemma stabilization_writes_one_frame_per_frame_read_witness :
  exists st,
    video_stabilization resize_nearest griddata_sites
      (list (list float)) id id
      (lucas_kanade_optical_flow det2 inv2 resize_nearest griddata_sites)
      [frame_a; frame_b] 5 5 3 1 1 = Ok st /\
    length (out st) = 2 /\ out st !! 0 = Some frame_a /\
    prev_frame st
    = resize_nearest frame_b (IMAGE_SIZE (shape frame_a) 1).1
                             (IMAGE_SIZE (shape frame_a) 1).2.
Proof.
  destruct (video_stabilization resize_nearest griddata_sites
              (list (list float)) id id
              (lucas_kanade_optical_flow det2 inv2 resize_nearest griddata_sites)
              [frame_a; frame_b] 5 5 3 1 1) as [st|e] eqn:E.
  - exists st. split; [done|].
    destruct (stabilization_writes_one_frame_per_frame_read
                resize_nearest griddata_sites (list (list float)) id id
                (lucas_kanade_optical_flow det2 inv2 resize_nearest
                   griddata_sites)
                frame_a [frame_b] 5 5 3 1 1 st E)
      as (Hlen & Hfirst & frame & Hlast & Hprev).
    split; [exact Hlen|]. split; [exact Hfirst|].
    injection Hlast as <-. exact Hprev.
  - vm_compute in E. discriminate E.
Defined.

(** The same capture through the two corner-restricted drivers, one of them
    cropping one pixel on every side. *)
Lemma fix_effects_estimates_as_faster_driver_witness :
  head [frame_a; frame_b] = Some frame_a /\
  1 + 1 < nrows frame_a /\ 1 + 1 < ncols frame_a /\
  match
    lucas_kanade_faster_video_stabilization_fix_effects det2 inv2 harris
      resize_nearest griddata_sites (list (list float)) id id
      [frame_a; frame_b] 5 5 3 1 1 1 1 1 1,
    lucas_kanade_faster_video_stabilization det2 inv2 harris
      resize_nearest griddata_sites (list (list float)) id id
      [frame_a; frame_b] 5 5 3 1 1
  with
  | Ok st, Ok st' =>
      st_u st = st_u st' /\ st_v st = st_v st' /\
      prev_frame st = prev_frame st' /\ length (out st) = length (out st')
  | Raise e, Raise e' => e = e'
  | _, _ => False
  end.
Proof.
  split; [reflexivity|]. split; [simpl; lia|]. split; [simpl; lia|].
  apply (fix_effects_estimates_as_faster_driver det2 inv2 harris
           resize_nearest griddata_sites (list (list float)) id id
           [frame_a; frame_b] frame_a 5 5 3 1 1 1 1 1 1 eq_refl);
    simpl; lia.
Defined.

Lemma fix_effects_first_frame_written_witness :
  rect frame_a /\
  exists st written,
    lucas_kanade_faster_video_stabilization_fix_effects det2 inv2 harris
      resize_nearest griddata_sites (list (list float)) id id
      [frame_a; frame_b] 5 5 3 1 1 1 1 1 1 = Ok st /\
    out st !! 0 = Some written /\
    nrows written = 3 /\ uniform 3 written /\
    at2 written 0 0 = at2 frame_a 1 1.
Proof.
  assert (rect frame_a) as Hr by (repeat constructor).
  split; [exact Hr|].
  destruct (lucas_kanade_faster_video_stabilization_fix_effects det2 inv2 harris
              resize_nearest griddata_sites (list (list float)) id id
              [frame_a; frame_b] 5 5 3 1 1 1 1 1 1) as [st|e] eqn:E.
  - exists st.
    destruct (fix_effects_first_frame_written det2 inv2 harris
                resize_nearest griddata_sites (list (list float)) id id
                frame_a [frame_b] 5 5 3 1 1 1 1 1 1 st Hr E)
      as (written & Hfirst & Hrows & Hcols & Hat).
    exists written. split; [done|]. split; [exact Hfirst|].
    split; [exact Hrows|]. split; [exact Hcols|].
    apply (Hat 0 0); simpl; lia.
  - vm_compute in E. discriminate E.
Defined.

Lemma stabilization_field_is_one_translation_witness :
  resize_contract (F:=float) resize_nearest /\
  exists st cu cv,
    video_stabilization resize_nearest griddata_sites
      (list (list float)) id id
      (lucas_kanade_optical_flow det2 inv2 resize_nearest griddata_sites)
      [frame_a; frame_b] 5 5 3 1 1 = Ok st /\
    shape (st_v st) = shape (st_u st) /\
    forall i j, i < nrows (st_u st) -> j < ncols (st_u st) ->
      at2 (st_u st) i j
      = (if decide (1 <= i < nrows (st_u st) - 1 /\ 1 <= j < ncols (st_u st) - 1)
         then cu else 0%float) /\
      at2 (st_v st) i j
      = (if decide (1 <= i < nrows (st_u st) - 1 /\ 1 <= j < ncols (st_u st) - 1)
         then cv else 0%float).
Proof.
  split; [apply resize_nearest_contract|].
  destruct (video_stabilization resize_nearest griddata_sites
              (list (list float)) id id
              (lucas_kanade_optical_flow det2 inv2 resize_nearest griddata_sites)
              [frame_a; frame_b] 5 5 3 1 1) as [st|e] eqn:E.
  - exists st.
    destruct (stabilization_field_is_one_translation det2 inv2 harris
                resize_nearest griddata_sites (list (list float)) id id
                (lucas_kanade_optical_flow det2 inv2 resize_nearest
                   griddata_sites)
                frame_a [frame_b] 5 5 3 1 1 st
                resize_nearest_contract (or_introl eq_refl) E)
      as (Hv & cu & cv & Hfield).
    exists cu, cv. split; [done|]. split; [exact Hv|]. exact Hfield.
  - vm_compute in E. discriminate E.
Defined.
